(** * Lead Bringer: the e-mail offer pipeline and the offer knowledge script

    A shallow embedding of [EML_Email_To_LeadBringer_And_Airtable.py]
    (class [EmailOfferPipeline]) and of the image filter, the text
    functions and the upload functions of [LeadBringerOfferKnowledge.py],
    with the properties of the specification, and further properties of
    the code, stated and proved over it.

    Conventions of the model.
    - A Python [str] is a [list ascii]; only the ASCII fragment of Unicode
      is modelled (case mapping acts on A-Z, white space is the ASCII part
      of [str.isspace]).  Header values are [str] values.
    - A Python [bytes] is a [list byte].
    - A [dict] whose insertion order is observable is an association list;
      the [set] of seen identities is a [gset].
    - Calls into the Python standard library whose result cannot be derived
      from the sources of this repository (MD5, date parsing, MIME type
      tables, HTML to text, URL parsing, the file system) are fields of the
      class [StdLib]; the HTML parser, the network and the drive are fields
      of the class [World], which threads the state of the outside world.
      Every theorem holds for every instance.
    - A function that may end with an exception returns a [result]; the
      files [_save_imgs] writes are kept by the path the file name stands
      for in the image folder. *)

From Stdlib Require Import ZArith List Bool Lia.
From Stdlib.Strings Require Import Ascii String Byte.
From Stdlib Require Import DecimalString.
From stdpp Require Import base list gmap sets strings.

Local Open Scope bool_scope.
Local Open Scope list_scope.

Set Warnings "-clear-no-such-hyp".

(** ** Python [str] primitives *)

Module Py.

Abbreviation str := (list ascii).

(** A literal. *)
Definition lit (s : string) : str := list_ascii_of_string s.

Definition code (c : ascii) : N := N_of_ascii c.

Definition in_range (lo hi : N) (c : ascii) : bool :=
  (lo <=? code c)%N && (code c <=? hi)%N.

(** [str.isspace] on one ASCII character: TAB, LF, VT, FF, CR, the four
    separators FS GS RS US, and the space. *)
Definition isspace (c : ascii) : bool :=
  in_range 9 13 c || in_range 28 32 c.

Definition isdigit (c : ascii) : bool := in_range 48 57 c.
Definition isupper (c : ascii) : bool := in_range 65 90 c.
Definition islower (c : ascii) : bool := in_range 97 122 c.
Definition isalpha (c : ascii) : bool := isupper c || islower c.

(** A word character of [re]: a letter, a digit or the underscore. *)
Definition isword (c : ascii) : bool :=
  isalpha c || isdigit c || (code c =? 95)%N.

Definition lower_char (c : ascii) : ascii :=
  if isupper c then ascii_of_N (code c + 32) else c.

(** [s.lower()] and [s.casefold()] coincide on ASCII text. *)
Definition lower (s : str) : str := map lower_char s.
Definition casefold (s : str) : str := map lower_char s.

Fixpoint lstrip_by (p : ascii -> bool) (s : str) : str :=
  match s with
  | [] => []
  | c :: t => if p c then lstrip_by p t else s
  end.

Definition rstrip_by (p : ascii -> bool) (s : str) : str :=
  rev (lstrip_by p (rev s)).

Definition strip_by (p : ascii -> bool) (s : str) : str :=
  rstrip_by p (lstrip_by p s).

(** [s.strip()]. *)
Definition strip (s : str) : str := strip_by isspace s.

(** The truth value of a [str]: non-empty. *)
Definition truthy (s : str) : bool :=
  match s with
  | [] => false
  | _ :: _ => true
  end.

(** [a or b] on [str] values. *)
Definition or_else (a b : str) : str := if truthy a then a else b.

(** [a == b]. *)
Definition eqs (a b : str) : bool := bool_decide (a = b).

Definition char_in (cs : str) (c : ascii) : bool :=
  existsb (Ascii.eqb c) cs.

(** [s.strip(cs)]: characters of [cs] removed at both ends. *)
Definition strip_chars (cs : str) (s : str) : str := strip_by (char_in cs) s.

Fixpoint startswith (p s : str) : bool :=
  match p, s with
  | [], _ => true
  | _ :: _, [] => false
  | a :: p', b :: s' => Ascii.eqb a b && startswith p' s'
  end.

(** [sub in s]. *)
Fixpoint contains (sub s : str) : bool :=
  startswith sub s ||
  match s with
  | [] => false
  | _ :: t => contains sub t
  end.

(** [s.endswith(suf)]. *)
Definition endswith (suf s : str) : bool := startswith (rev suf) (rev s).

(** [s.replace(old, new)] for a non-empty [old]: the occurrences of [old]
    are found from the left and do not overlap.  [skip] counts the
    characters of the current occurrence still to be dropped. *)
Fixpoint replace_go (old new : str) (skip : nat) (s : str) : str :=
  match s with
  | [] => []
  | c :: t =>
      match skip with
      | S n => replace_go old new n t
      | O => if startswith old s
             then new ++ replace_go old new (length old - 1) t
             else c :: replace_go old new 0 t
      end
  end.

Definition replace (old new s : str) : str := replace_go old new 0 s.

Definition digit_val (c : ascii) : Z := Z.of_N (code c) - 48.

(** The digits of a base-10 literal: non-empty groups of digits separated
    by single underscores.  [acc] is the value read so far, [after_digit]
    tells whether the previous character was a digit. *)
Fixpoint int_digits (acc : Z) (after_digit : bool) (s : str) : option Z :=
  match s with
  | [] => if after_digit then Some acc else None
  | c :: t =>
      if isdigit c then int_digits (10 * acc + digit_val c) true t
      else if (code c =? 95)%N && after_digit then int_digits acc false t
      else None
  end.

(** The white space [int] skips around a literal: TAB, LF, VT, FF, CR and
    the space (the separators FS..US are not skipped). *)
Definition isspace_c (c : ascii) : bool :=
  in_range 9 13 c || (code c =? 32)%N.

(** [sys.get_int_max_str_digits()]: the largest number of digits [int]
    reads (CPython 3.11, and the releases of 3.7 to 3.10 from September
    2022 on); the program does not change the default. *)
Definition MAX_STR_DIGITS : nat := 4300.

(** [int(s)]: surrounding white space, an optional sign, then the digits.
    [None] stands for [ValueError], which is also raised for a literal of
    more than [MAX_STR_DIGITS] digits. *)
Definition int (s : str) : option Z :=
  match strip_by isspace_c s with
  | [] => None
  | c :: t =>
      if (MAX_STR_DIGITS <? length (List.filter isdigit (c :: t)))%nat
      then None
      else if (code c =? 45)%N then Z.opp <$> int_digits 0 false t
      else if (code c =? 43)%N then int_digits 0 false t
      else int_digits 0 false (c :: t)
  end.

End Py.

(** ** The fragment of Python's [re] the pipeline uses

    A backtracking matcher in continuation-passing style: alternatives are
    tried from the left, quantifiers are greedy, and the first way to
    complete the match is the one returned, as in [re].  All four patterns
    of the module have exactly one capturing group, which is [RGroup]. *)

Module Re.
Import Py.

Inductive regex :=
| REps
| RChar (p : ascii -> bool)
| RSeq (a b : regex)
| RAlt (a b : regex)
| RRep (lo : nat) (hi : option nat) (a : regex)
| RGroup (a : regex)
| RBol
| RWordB.

(** A position in the subject: the characters before it (nearest first),
    the characters after it, and what group 1 has captured so far. *)
Record mstate := MState {
  m_prev : str;
  m_rest : str;
  m_grp : option str
}.

Definition cont := mstate -> option mstate.

Definition advance (c : ascii) (t : str) (st : mstate) : mstate :=
  MState (c :: m_prev st) t (m_grp st).

(** The text consumed between the positions [st] and [st']. *)
Definition between (st st' : mstate) : str :=
  rev (take (length (m_prev st') - length (m_prev st)) (m_prev st')).

Definition set_grp (st st' : mstate) : mstate :=
  MState (m_prev st') (m_rest st') (Some (between st st')).

Definition head_is (p : ascii -> bool) (s : str) : bool :=
  match s with
  | [] => false
  | c :: _ => p c
  end.

(** [\b]: exactly one of the two neighbours is a word character. *)
Definition at_boundary (st : mstate) : bool :=
  xorb (head_is isword (m_prev st)) (head_is isword (m_rest st)).

(** Greedy repetition of the matcher [m]: [lo] iterations are still
    required and at most [fuel] more are allowed. *)
Fixpoint rep (m : cont -> cont) (lo fuel : nat) (k : cont) (st : mstate)
  : option mstate :=
  match fuel with
  | O => if Nat.eqb lo 0 then k st else None
  | S f =>
      match m (rep m (Nat.pred lo) f k) st with
      | Some r => Some r
      | None => if Nat.eqb lo 0 then k st else None
      end
  end.

Fixpoint rmatch (r : regex) (k : cont) (st : mstate) : option mstate :=
  match r with
  | REps => k st
  | RChar p =>
      match m_rest st with
      | c :: t => if p c then k (advance c t st) else None
      | [] => None
      end
  | RSeq a b => rmatch a (rmatch b k) st
  | RAlt a b =>
      match rmatch a k st with
      | Some r => Some r
      | None => rmatch b k st
      end
  | RRep lo hi a =>
      let fuel := match hi with
                  | Some h => h
                  | None => lo + length (m_rest st)
                  end in
      rep (rmatch a) lo fuel k st
  | RGroup a => rmatch a (fun st' => k (set_grp st st')) st
  | RBol => match m_prev st with [] => k st | _ :: _ => None end
  | RWordB => if at_boundary st then k st else None
  end.

(** Try the pattern at the position after [prev], then further right. *)
Fixpoint search_from (r : regex) (prev rest : str)
  : option (mstate * mstate) :=
  let st := MState prev rest None in
  match rmatch r Some st with
  | Some st' => Some (st, st')
  | None =>
      match rest with
      | [] => None
      | c :: t => search_from r (c :: prev) t
      end
  end.

(** [rgx.search(txt)]: the positions where the leftmost match starts and
    ends. *)
Definition search (r : regex) (txt : str) : option (mstate * mstate) :=
  search_from r [] txt.

(** [match.group(0)] and [match.group(1)]. *)
Definition group0 (m : mstate * mstate) : str := between (fst m) (snd m).
Definition group1 (m : mstate * mstate) : option str := m_grp (snd m).

(** The number of capturing groups of a pattern. *)
Fixpoint ngroups (r : regex) : nat :=
  match r with
  | RSeq a b | RAlt a b => ngroups a + ngroups b
  | RRep _ _ a => ngroups a
  | RGroup a => S (ngroups a)
  | _ => 0
  end.

(** One search of [rgx.sub]: as [search_from], but when [adv] is set (the
    previous match was empty and ended here) a match starting at this very
    position has to be non-empty. *)
Definition search_next (r : regex) (adv : bool) (prev rest : str)
  : option (mstate * mstate) :=
  if adv then
    let st := MState prev rest None in
    let k st' := if Nat.eqb (length (m_prev st')) (length prev)
                 then None else Some st' in
    match rmatch r k st with
    | Some st' => Some (st, st')
    | None =>
        match rest with
        | [] => None
        | c :: t => search_from r (c :: prev) t
        end
    end
  else search_from r prev rest.

(** [rgx.sub('', txt)]: the matches are found from the left, each search
    starting where the previous match ended, and their text is removed.
    [n] bounds the number of searches. *)
Fixpoint sub_empty_go (r : regex) (n : nat) (adv : bool) (prev rest : str)
  : str :=
  match n with
  | O => rest
  | S n' =>
      match search_next r adv prev rest with
      | None => rest
      | Some (st, st') =>
          between (MState prev rest None) st ++
          sub_empty_go r n' (Nat.eqb (length (between st st')) 0)
            (m_prev st') (m_rest st')
      end
  end.

Definition sub_empty (r : regex) (txt : str) : str :=
  sub_empty_go r (2 * length txt + 2) false [] txt.

(** *** What a match is

    [matches r st st']: the pattern [r] can take the matcher from the
    position [st] to the position [st'].  The relation has no notion of
    priority; it says which matches exist, [rmatch] says which one is
    found. *)

Inductive matches : regex -> mstate -> mstate -> Prop :=
| M_eps st : matches REps st st
| M_char p c t st :
    m_rest st = c :: t -> p c = true ->
    matches (RChar p) st (advance c t st)
| M_seq a b st1 st2 st3 :
    matches a st1 st2 -> matches b st2 st3 -> matches (RSeq a b) st1 st3
| M_alt_l a b st st' : matches a st st' -> matches (RAlt a b) st st'
| M_alt_r a b st st' : matches b st st' -> matches (RAlt a b) st st'
| M_rep_stop hi a st : matches (RRep 0 hi a) st st
| M_rep_more lo hi a st1 st2 st3 :
    hi <> Some 0 ->
    matches a st1 st2 ->
    matches (RRep (Nat.pred lo) (Nat.pred <$> hi) a) st2 st3 ->
    matches (RRep lo hi a) st1 st3
| M_group a st st' : matches a st st' -> matches (RGroup a) st (set_grp st st')
| M_bol st : m_prev st = [] -> matches RBol st st
| M_wordb st : at_boundary st = true -> matches RWordB st st.

(** The texts a pattern matches, positions and groups forgotten. *)
Fixpoint lang (r : regex) (w : str) : Prop :=
  match r with
  | REps | RBol | RWordB => w = []
  | RChar p => exists c, w = [c] /\ p c = true
  | RSeq a b => exists u v, w = u ++ v /\ lang a u /\ lang b v
  | RAlt a b => lang a w \/ lang b w
  | RRep lo hi a =>
      exists ws, w = concat ws /\ Forall (lang a) ws /\
                 lo <= length ws /\
                 (forall h, hi = Some h -> length ws <= h)
  | RGroup a => lang a w
  end.

(** May the pattern match the empty text? *)
Fixpoint nullable (r : regex) : bool :=
  match r with
  | REps | RBol | RWordB => true
  | RChar _ => false
  | RSeq a b => nullable a && nullable b
  | RAlt a b => nullable a || nullable b
  | RRep lo _ a => Nat.eqb lo 0 || nullable a
  | RGroup a => nullable a
  end.

(** Every unbounded repetition repeats a pattern that consumes text, so
    that the bound [rmatch] puts on the number of its turns is never
    reached. *)
Fixpoint progressing (r : regex) : bool :=
  match r with
  | RSeq a b | RAlt a b => progressing a && progressing b
  | RRep _ hi a =>
      progressing a &&
      match hi with
      | Some _ => true
      | None => negb (nullable a)
      end
  | RGroup a => progressing a
  | _ => true
  end.

(** Every character class of the pattern lies within [q]. *)
Fixpoint classes_within (q : ascii -> Prop) (r : regex) : Prop :=
  match r with
  | RChar p => forall c, p c = true -> q c
  | RSeq a b | RAlt a b => classes_within q a /\ classes_within q b
  | RRep _ _ a | RGroup a => classes_within q a
  | _ => True
  end.

(** The position [i] characters into [txt], no group captured. *)
Definition at_pos (txt : str) (i : nat) : mstate :=
  MState (rev (take i txt)) (drop i txt) None.



(** The position [n] characters further on. *)
Definition skip (n : nat) (st : mstate) : mstate :=
  MState (rev (take n (m_rest st)) ++ m_prev st) (drop n (m_rest st))
    (m_grp st).

(** *** Pattern syntax *)

Definition chr (c : ascii) : regex := RChar (Ascii.eqb c).

(** A literal character under [re.I]. *)
Definition chr_i (c : ascii) : regex :=
  RChar (fun x => Ascii.eqb (lower_char x) (lower_char c)).

Definition lit_with (f : ascii -> regex) (s : string) : regex :=
  fold_right (fun c r => RSeq (f c) r) REps (lit s).

Definition star (a : regex) : regex := RRep 0 None a.
Definition opt (a : regex) : regex := RRep 0 (Some 1) a.
Definition times (lo hi : nat) (a : regex) : regex := RRep lo (Some hi) a.

Definition alt3 (a b c : regex) : regex := RAlt a (RAlt b c).

(** [\d] and [\s]. *)
Definition digit : regex := RChar isdigit.
Definition space : regex := RChar isspace.

Declare Scope re_scope.
Delimit Scope re_scope with re.
Bind Scope re_scope with regex.
Notation "a ;; b" := (RSeq a b)
  (at level 100, b at level 200, right associativity) : re_scope.

End Re.

(** ** The standard library, as the program sees it *)

Module Std.
Import Py.

(** A computation that returns or raises an exception no handler inside
    the function catches. *)
Inductive result (A : Type) : Type :=
| Ok (a : A)
| Raise.
Arguments Ok {A} a.
Arguments Raise {A}.

Definition rbind {A B : Type} (r : result A) (f : A -> result B) : result B :=
  match r with
  | Ok a => f a
  | Raise => Raise
  end.

Notation "'do' x <- r ; k" := (rbind r (fun x => k))
  (at level 10, x name, r at level 100, k at level 200).

(** [email.utils.parsedate_to_datetime(ds).astimezone(timezone.utc)]: an
    instant, counted in seconds from [datetime.min], 0001-01-01T00:00:00Z,
    before which a [datetime] cannot lie; or [TypeError] / [ValueError];
    or another exception ([OverflowError] when the instant leaves the
    range of [datetime]). *)
Inductive dt_result :=
| DtOk (t : N)
| DtInvalid
| DtError.

(** [Path.write_bytes]: done, [OSError], or another exception. *)
Inductive write_result :=
| Written
| WriteOSError
| WriteError.

#[global]
Instance write_result_eq_dec : EqDecision write_result.
Proof. solve_decision. Defined.

Class StdLib := {
  (** [hashlib.md5(b).hexdigest()] *)
  md5_hexdigest : list byte -> str;
  parsedate_utc : str -> dt_result;
  (** [mimetypes.guess_extension] *)
  guess_extension : str -> option str;
  (** [BeautifulSoup(html, 'html.parser').get_text(' ', strip=True)] *)
  html_get_text : str -> str;
  (** [b.decode(errors='ignore')] *)
  decode_ignore : list byte -> str;
  (** [email.utils.parseaddr(s)[1]] *)
  parseaddr_addr : str -> str;
  (** [self.image_dir / filename]: the file this path stands for.  Two
      names may stand for one file ([logo.png] and [./logo.png]), and a
      name that is an absolute path stands for a file outside the
      folder. *)
  image_path : str -> str;
  (** [(image_dir / filename).write_bytes(data)], by file name *)
  write_bytes : str -> write_result;
  (** [urlparse(url).path]; [Raise] is the [ValueError] of [urlparse],
      as for a bracket of the host that is not closed *)
  urlparse_path : str -> result str
}.

(** [datetime.min.replace(tzinfo=timezone.utc)]. *)
Definition dt_min : N := 0.

End Std.

(** ** The pipeline *)

Module Pipeline.
Import Py Re Std.

(** *** Regular expressions *)

(** [\$\s?(\d{1,3}(?:,\d{3})*(?:\.\d{2})?)], [re.I]. *)
Definition PRICE_RGX : regex :=
  (chr "$" ;; opt space ;;
   RGroup (times 1 3 digit ;;
           star (chr "," ;; times 3 3 digit) ;;
           opt (chr "." ;; times 2 2 digit)))%re.

(** [(\d{2,6}(?:,\d{3})?)\s*(?:sqft|sf|pcs|ctns?)], [re.I]. *)
Definition QTY_RGX : regex :=
  (RGroup (times 2 6 digit ;; opt (chr "," ;; times 3 3 digit)) ;;
   star space ;;
   RAlt (lit_with chr_i "sqft")
     (RAlt (lit_with chr_i "sf")
        (RAlt (lit_with chr_i "pcs")
           (lit_with chr_i "ctn" ;; opt (chr_i "s")))))%re.

(** [\bFOB[:\-]?\s*([A-Za-z ]{2,40})], [re.I]. *)
Definition FOB_RGX : regex :=
  (RWordB ;; lit_with chr_i "FOB" ;;
   opt (RChar (char_in (lit ":-"))) ;;
   star space ;;
   RGroup (times 2 40 (RChar (fun c => isalpha c || Ascii.eqb c " "))))%re.

(** [^(re:|fw:|fwd:)\s*], [re.I]. *)
Definition SUBJ_CLEAN_RGX : regex :=
  (RBol ;;
   RGroup (alt3 (lit_with chr_i "re:") (lit_with chr_i "fw:")
             (lit_with chr_i "fwd:")) ;;
   star space)%re.

(** *** The shapes the patterns describe *)

Definition digits (w : str) : Prop := Forall (fun c => isdigit c = true) w.
Definition spaces (w : str) : Prop := Forall (fun c => isspace c = true) w.

(** A comma and three digits. *)
Definition thousands (grp : str) : Prop :=
  exists ds, grp = ","%char :: ds /\ digits ds /\ length ds = 3.

(** One to three digits, any number of thousands groups, and optionally a
    point and two digits. *)
Definition price_number (g : str) : Prop :=
  exists lead groups cents,
    g = lead ++ concat groups ++ cents /\
    digits lead /\ 1 <= length lead <= 3 /\
    Forall thousands groups /\
    (cents = [] \/
     exists ds, cents = "."%char :: ds /\ digits ds /\ length ds = 2).

(** Two to six digits and optionally one thousands group. *)
Definition quantity_number (g : str) : Prop :=
  exists lead grp,
    g = lead ++ grp /\ digits lead /\ 2 <= length lead <= 6 /\
    (grp = [] \/ thousands grp).

(** [sqft], [sf], [pcs], [ctn] or [ctns], in any case. *)
Definition unit_token (u : str) : Prop :=
  In (lower u) (map lit ["sqft"; "sf"; "pcs"; "ctn"; "ctns"]%string).



(** A dollar sign, at most one white space character and a price
    number. *)
Definition price_phrase (w : str) : Prop :=
  exists ws g,
    w = "$"%char :: ws ++ g /\ length ws <= 1 /\ spaces ws /\
    price_number g.

(** A quantity number, any white space and a unit. *)
Definition quantity_phrase (w : str) : Prop :=
  exists g ws u,
    w = g ++ ws ++ u /\ quantity_number g /\ spaces ws /\ unit_token u.


(** A phrase stands at the position [i] of the text. *)
Definition begins_at (phrase : str -> Prop) (txt : str) (i : nat) : Prop :=
  exists w post, i <= length txt /\ drop i txt = w ++ post /\ phrase w.


(** *** The grouping key, in the words of the specification *)

Definition reply_markers : list str := map lit ["re:"; "fw:"; "fwd:"]%string.

(** A single leading reply or forward marker, in any case, is removed. *)
Definition strip_marker (subject : str) : str :=
  match find (fun m => startswith m (lower subject)) reply_markers with
  | Some m => drop (length m) subject
  | None => subject
  end.

(** Strip the marker, fold the case, trim the white space. *)
Definition spec_key (subject : str) : str :=
  strip (casefold (strip_marker subject)).

(** *** The category, in the words of the specification *)

(** The keyword occurs in the text, in whatever case. *)
Definition occurs_ci (kw text : str) : Prop :=
  exists pre mid post, text = pre ++ mid ++ post /\ lower mid = kw.

(** The rules are tried in the order SPC, LVT, Laminate, Tile, Solid and
    Hardwood; the first whose keywords occur gives the category. *)
Inductive category_rule (text : str) : str -> Prop :=
| cat_spc :
    occurs_ci (lit "spc") text -> category_rule text (lit "SPC Flooring")
| cat_lvt :
    ~ occurs_ci (lit "spc") text -> occurs_ci (lit "lvt") text ->
    category_rule text (lit "LVT Flooring")
| cat_laminate :
    ~ occurs_ci (lit "spc") text -> ~ occurs_ci (lit "lvt") text ->
    occurs_ci (lit "laminate") text ->
    category_rule text (lit "Laminate Flooring")
| cat_tile :
    ~ occurs_ci (lit "spc") text -> ~ occurs_ci (lit "lvt") text ->
    ~ occurs_ci (lit "laminate") text -> occurs_ci (lit "tile") text ->
    category_rule text (lit "Tile")
| cat_hardwood :
    ~ occurs_ci (lit "spc") text -> ~ occurs_ci (lit "lvt") text ->
    ~ occurs_ci (lit "laminate") text -> ~ occurs_ci (lit "tile") text ->
    occurs_ci (lit "solid") text -> occurs_ci (lit "hardwood") text ->
    category_rule text (lit "Solid Hardwood")
| cat_other :
    ~ occurs_ci (lit "spc") text -> ~ occurs_ci (lit "lvt") text ->
    ~ occurs_ci (lit "laminate") text -> ~ occurs_ci (lit "tile") text ->
    ~ (occurs_ci (lit "solid") text /\ occurs_ci (lit "hardwood") text) ->
    category_rule text (lit "Other").

(** *** Messages *)

(** The headers the pipeline reads; [None] is an absent header. *)
Record Headers := {
  h_message_id : option str;
  h_subject : option str;
  h_date : option str;
  h_from : option str;
  h_content_disposition : option str;
  h_content_id : option str;
  (** [get_content_type()] *)
  h_content_type : str
}.

(** A parsed message: a leaf with its transfer-decoded payload, or a
    container with its sub-parts. *)
#[warnings="-register-all"]
Inductive Message :=
| Leaf (h : Headers) (data : list byte)
| Multipart (h : Headers) (parts : list Message).

Definition headers (m : Message) : Headers :=
  match m with
  | Leaf h _ | Multipart h _ => h
  end.

(** [msg.walk()]: the part itself, then its sub-parts, depth first. *)
Fixpoint walk (m : Message) : list Message :=
  m :: match m with
       | Leaf _ _ => []
       | Multipart _ parts => flat_map walk parts
       end.

Definition get_content_type (m : Message) : str := h_content_type (headers m).

(** [get_content_maintype()]: the content type up to its slash. *)
Fixpoint before_slash (s : str) : str :=
  match s with
  | [] => []
  | c :: t => if Ascii.eqb c "/" then [] else c :: before_slash t
  end.

Definition get_content_maintype (m : Message) : str :=
  before_slash (get_content_type m).

(** [get_payload(decode=True)]: [None] for a container. *)
Definition get_payload_decoded (m : Message) : option (list byte) :=
  match m with
  | Leaf _ data => Some data
  | Multipart _ _ => None
  end.

(** A file of the e-mail folder: its stem, its bytes and the message
    [email.message_from_binary_file] reads from it. *)
Record EmlFile := {
  stem : str;
  raw : list byte;
  parsed : Message
}.

Record ProductOffer := {
  title : str;
  category : str;
  product_description : str;
  price : str;
  fob_location : str;
  available_quantity : str;
  primary_image : str;
  more_images : list str;
  source_email : str;
  date_received : str;
  message_id : str;
  status : str
}.

(** *** The state of a run *)

(** The insertion-ordered [dict] [latest]. *)
Abbreviation dict := (list (str * ProductOffer)).

Fixpoint dict_get (k : str) (dct : dict) : option ProductOffer :=
  match dct with
  | [] => None
  | (k', v) :: rest => if eqs k k' then Some v else dict_get k rest
  end.

(** [dct[k] = v]: the value of a present key is replaced where it stands,
    a new key goes to the end. *)
Fixpoint dict_set (k : str) (v : ProductOffer) (dct : dict) : dict :=
  match dct with
  | [] => [(k, v)]
  | (k', v') :: rest =>
      if eqs k k' then (k, v) :: rest else (k', v') :: dict_set k v rest
  end.

(** What [process] reads and writes: its local [latest] and
    [new_offers_count], the attribute [seen], and the two places on disk,
    the ledger file ([None] while it does not exist) and the files
    [_save_imgs] may write, each under the path [image_path] gives. *)
Record state := {
  latest : dict;
  new_offers_count : nat;
  seen : gset str;
  hash_file : option (gset str);
  image_dir : gmap str (list byte)
}.

Definition with_images (st : state) (dir : gmap str (list byte)) : state :=
  {| latest := latest st; new_offers_count := new_offers_count st;
     seen := seen st; hash_file := hash_file st; image_dir := dir |}.

Definition with_latest (st : state) (lat : dict) : state :=
  {| latest := lat; new_offers_count := new_offers_count st;
     seen := seen st; hash_file := hash_file st; image_dir := image_dir st |}.

(** [new_offers_count += 1]. *)
Definition count_offer (st : state) : state :=
  {| latest := latest st; new_offers_count := S (new_offers_count st);
     seen := seen st; hash_file := hash_file st; image_dir := image_dir st |}.

(** [_load_hashes]. *)
Definition _load_hashes (file : option (gset str)) : gset str :=
  default ∅ file.

(** [__init__] followed by the first two assignments of [process]. *)
Definition start (file : option (gset str)) (dir : gmap str (list byte))
  : state :=
  {| latest := []; new_offers_count := 0; seen := _load_hashes file;
     hash_file := file; image_dir := dir |}.

(** [_save_hash]. *)
Definition _save_hash (mid : str) (st : state) : state :=
  let seen' := {[mid]} ∪ seen st in
  {| latest := latest st; new_offers_count := new_offers_count st;
     seen := seen'; hash_file := Some seen'; image_dir := image_dir st |}.

(** How the body of the loop of [process] ends for one file. *)
Inductive outcome :=
| SkippedAsSeen
| Failed
| CandidateBuilt.

#[global]
Instance outcome_eq_dec : EqDecision outcome.
Proof. solve_decision. Defined.

(** *** The methods of [EmailOfferPipeline] *)

Section Methods.
Context {L : StdLib}.

Definition _msg_id (msg : Message) (filepath : EmlFile) : str :=
  match h_message_id (headers msg) with
  | Some msg_id =>
      if truthy msg_id then msg_id
      else lit "<" ++ md5_hexdigest (raw filepath) ++ lit ">"
  | None => lit "<" ++ md5_hexdigest (raw filepath) ++ lit ">"
  end.

Definition _as_dt (ds : str) : result N :=
  match parsedate_utc ds with
  | DtOk t => Ok t
  | DtInvalid => Ok dt_min
  | DtError => Raise
  end.

Definition _clean_subj (s : str) : str :=
  strip (casefold (sub_empty SUBJ_CLEAN_RGX s)).

(** [str(part.get('Content-Disposition'))]. *)
Definition cdispo_of (part : Message) : str :=
  match h_content_disposition (headers part) with
  | Some v => v
  | None => lit "None"
  end.

(** One turn of the loop of [_body] over the parts; the accumulator is
    [(html_body, plain_body)]. *)
Definition body_step (acc : str * str) (part : Message) : str * str :=
  let '(html_body, plain_body) := acc in
  let ctype := get_content_type part in
  if contains (lit "attachment") (cdispo_of part) then acc
  else if eqs ctype (lit "text/html") && negb (truthy html_body) then
    match get_payload_decoded part with
    | Some b => (decode_ignore b, plain_body)
    | None => acc
    end
  else if eqs ctype (lit "text/plain") && negb (truthy plain_body) then
    match get_payload_decoded part with
    | Some b => (html_body, decode_ignore b)
    | None => acc
    end
  else acc.

Definition _body (msg : Message) : str :=
  let '(html_body, plain_body) := fold_left body_step (walk msg) ([], []) in
  if truthy html_body then html_get_text html_body else plain_body.

(** [mimetypes.guess_extension(part.get_content_type()) or '.bin']. *)
Definition img_ext (part : Message) : str :=
  match guess_extension (get_content_type part) with
  | Some (c :: e) => c :: e
  | Some [] | None => lit ".bin"
  end.

(** The file name [_save_imgs] gives to an image part with the decoded
    payload [img_data]. *)
Definition img_filename (part : Message) (img_data : list byte) : str :=
  let cid := strip_chars (lit "<>")
               (default [] (h_content_id (headers part))) in
  let ext := img_ext part in
  if truthy cid then cid ++ ext
  else lit "img_" ++ md5_hexdigest img_data ++ ext.

(** The loop of [_save_imgs]: [dir] holds the files by path, [saved] is
    the list of the file names appended so far. *)
Fixpoint save_parts (parts : list Message) (dir : gmap str (list byte))
    (saved : list str) : gmap str (list byte) * result (list str) :=
  match parts with
  | [] => (dir, Ok saved)
  | part :: rest =>
      if eqs (get_content_maintype part) (lit "image") then
        match get_payload_decoded part with
        | None | Some [] => save_parts rest dir saved
        | Some img_data =>
            let filename := img_filename part img_data in
            match write_bytes filename with
            | Written =>
                save_parts rest (<[image_path filename := img_data]> dir)
                  (saved ++ [filename])
            | WriteOSError => save_parts rest dir saved
            | WriteError => (dir, Raise)
            end
        end
      else save_parts rest dir saved
  end.

Definition _save_imgs (msg : Message) (dir : gmap str (list byte))
  : gmap str (list byte) * result (list str) :=
  save_parts (walk msg) dir [].

Definition _cat (sub body : str) : str :=
  let t := lower (sub ++ lit " " ++ body) in
  if contains (lit "spc") t then lit "SPC Flooring"
  else if contains (lit "lvt") t then lit "LVT Flooring"
  else if contains (lit "laminate") t then lit "Laminate Flooring"
  else if contains (lit "tile") t then lit "Tile"
  else if contains (lit "solid") t && contains (lit "hardwood") t
  then lit "Solid Hardwood"
  else lit "Other".

(** [_m]; [Raise] is the [AttributeError] of [None.strip()] when group 1
    took no part in the match. *)
Definition _m (rgx : regex) (txt : str) : result str :=
  match search rgx txt with
  | Some m =>
      if (0 <? ngroups rgx)%nat then
        match group1 m with
        | Some g => Ok (strip g)
        | None => Raise
        end
      else Ok (strip (group0 m))
  | None => Ok []
  end.

(** [msg.get('Subject') or f.stem]. *)
Definition subject_of (f : EmlFile) : str :=
  or_else (default [] (h_subject (headers (parsed f)))) (stem f).

Definition date_of (f : EmlFile) : str :=
  default [] (h_date (headers (parsed f))).

(** The construction of the [ProductOffer] of a message. *)
Definition make_offer (f : EmlFile) (body : str) (imgs : list str)
  : result ProductOffer :=
  let msg := parsed f in
  let subj := subject_of f in
  do p <- _m PRICE_RGX body;
  do fob <- _m FOB_RGX body;
  do qty <- _m QTY_RGX body;
  Ok {| title := subj;
        category := _cat subj body;
        product_description := body;
        price := p;
        fob_location := fob;
        available_quantity := qty;
        primary_image := hd [] imgs;
        more_images := tl imgs;
        source_email := parseaddr_addr (default [] (h_from (headers msg)));
        date_received := date_of f;
        message_id := _msg_id msg f;
        status := lit "Unreviewed" |}.

(** The update of [latest] by a candidate: [Raise] when the date of the
    retained offer cannot be read again. *)
Definition resolve (key : str) (dt : N) (offer : ProductOffer) (lat : dict)
  : result dict :=
  match dict_get key lat with
  | None => Ok (dict_set key offer lat)
  | Some prev =>
      do pdt <- _as_dt (date_received prev);
      Ok (if (pdt <? dt)%N then dict_set key offer lat else lat)
  end.

(** The body of the loop of [process], with its [try] / [except]. *)
Definition process_file (st : state) (f : EmlFile) : state * outcome :=
  let msg := parsed f in
  let mid := _msg_id msg f in
  if bool_decide (mid ∈ seen st) then (st, SkippedAsSeen)
  else
    let key := _clean_subj (subject_of f) in
    match _as_dt (date_of f) with
    | Raise => (st, Failed)
    | Ok dt =>
        let body := _body msg in
        let '(dir, imgs_r) := _save_imgs msg (image_dir st) in
        let st1 := with_images st dir in
        match (do imgs <- imgs_r;
               do offer <- make_offer f body imgs;
               resolve key dt offer (latest st1)) with
        | Raise => (st1, Failed)
        | Ok lat =>
            (count_offer (_save_hash mid (with_latest st1 lat)),
             CandidateBuilt)
        end
    end.

(** The loop of [process], with the outcome of every file. *)
Fixpoint process_files (st : state) (files : list EmlFile)
  : state * list outcome :=
  match files with
  | [] => (st, [])
  | f :: rest =>
      let '(st', o) := process_file st f in
      let '(st'', os) := process_files st' rest in
      (st'', o :: os)
  end.

(** What a run leaves behind: nothing written ("No new offers"), or the
    offers of the JSON document, in its order. *)
Inductive output :=
| NoNewOffers
| Wrote (offers : list ProductOffer).

(** [process], after [start]. *)
Definition process (st : state) (files : list EmlFile)
  : state * list outcome * output :=
  let '(st', os) := process_files st files in
  (st', os,
   match latest st' with
   | [] => NoNewOffers
   | _ :: _ => Wrote (map snd (latest st'))
   end).

(** A run of the program on the ledger file, the image folder and the
    files of the e-mail folder. *)
Definition run (file : option (gset str)) (dir : gmap str (list byte))
    (files : list EmlFile) : state * list outcome * output :=
  process (start file dir) files.

(** *** Words for the statements about a run *)

(** The grouping key and the timestamp of a file. *)
Definition key_of (f : EmlFile) : str := _clean_subj (subject_of f).
Definition stamp_of (f : EmlFile) : result N := _as_dt (date_of f).

(** What the loop computes for a file before it touches [latest]: the
    timestamp and the offer, or the exception of one of the steps. *)
Definition candidate_of (f : EmlFile) : result (N * ProductOffer) :=
  do dt <- stamp_of f;
  do imgs <- snd (_save_imgs (parsed f) ∅);
  do offer <- make_offer f (_body (parsed f)) imgs;
  Ok (dt, offer).

Definition offer_of (f : EmlFile) : result ProductOffer :=
  do c <- candidate_of f; Ok (snd c).

(** The files for which a candidate was built, in the order of the
    scan. *)
Fixpoint built (files : list EmlFile) (os : list outcome) : list EmlFile :=
  match files, os with
  | f :: fs, CandidateBuilt :: os' => f :: built fs os'
  | _ :: fs, _ :: os' => built fs os'
  | _, _ => []
  end.

(** The keys of a list in the order of their first appearance. *)
Fixpoint first_seen (ks : list str) : list str :=
  match ks with
  | [] => []
  | k :: rest => k :: filter (fun x => x <> k) (first_seen rest)
  end.

(** [w], with the timestamp [tw], is the file of the group [k] that the
    rule "strictly later replaces" leaves in place: it is later than every
    file of the group met before it, and no file of the group met after it
    is later. *)
Definition group_winner (B : list EmlFile) (k : str) (w : EmlFile) (tw : N)
  : Prop :=
  exists before after,
    B = before ++ w :: after /\ key_of w = k /\ stamp_of w = Ok tw /\
    (forall g tg, g ∈ before -> key_of g = k -> stamp_of g = Ok tg ->
       (tg < tw)%N) /\
    (forall g tg, g ∈ after -> key_of g = k -> stamp_of g = Ok tg ->
       (tg <= tw)%N).

(** The identity of a file. *)
Definition mid_of (f : EmlFile) : str := _msg_id (parsed f) f.





(** The name under which a part is saved, when it is an image with a
    payload that is not empty. *)
Definition image_name (part : Message) : option str :=
  if eqs (get_content_maintype part) (lit "image") then
    match get_payload_decoded part with
    | Some (b :: data) => Some (img_filename part (b :: data))
    | _ => None
    end
  else None.

(** The part is written under the name [n]: it is an image with a payload
    that is not empty, and the file of that name could be written. *)
Definition written (part : Message) (n : str) : Prop :=
  image_name part = Some n /\ write_bytes n = Written.

(** *** Invariants of the loop *)

(** The state after a candidate is built. *)
Definition built_state (st : state) (mid : str) (lat : dict)
    (dir : gmap str (list byte)) : state :=
  {| latest := lat; new_offers_count := S (new_offers_count st);
     seen := {[mid]} ∪ seen st; hash_file := Some ({[mid]} ∪ seen st);
     image_dir := dir |}.

(** What a file that builds a candidate does to [latest]. *)
Definition absorb (lat : dict) (f : EmlFile) : dict :=
  match candidate_of f with
  | Ok (dt, o) =>
      match resolve (key_of f) dt o lat with
      | Ok l => l
      | Raise => lat
      end
  | Raise => lat
  end.

Definition has_candidate (f : EmlFile) : Prop :=
  exists c, candidate_of f = Ok c.

(** What [latest] holds once the files [B] have been absorbed: the keys
    in the order of their first appearance, and under each key the offer
    of the winner of its group. *)
Definition latest_inv (B : list EmlFile) (lat : dict) : Prop :=
  map fst lat = first_seen (map key_of B) /\
  forall k o, dict_get k lat = Some o ->
    exists w tw, group_winner B k w tw /\ offer_of w = Ok o /\
                 _as_dt (date_received o) = Ok tw.

(** The date of every retained offer can be read again. *)
Definition dates_ok (lat : dict) : Prop :=
  forall k o, dict_get k lat = Some o ->
    exists t, _as_dt (date_received o) = Ok t.

(** [seen] is what the ledger file holds. *)
Definition ledger_ok (st : state) : Prop :=
  seen st = _load_hashes (hash_file st).


(** *** The claims of the specification that the program does not meet,
    as the specification words them *)

(** The identity is the [Message-ID] header whenever the message has
    one. *)
Definition identity_is_header_when_present (msg : Message) (f : EmlFile)
  : Prop :=
  forall id, h_message_id (headers msg) = Some id -> _msg_id msg f = id.

(** The name of an image is its stripped [Content-ID] and the extension
    whenever the part has a [Content-ID]. *)
Definition name_is_cid_when_present (part : Message) (data : list byte)
  : Prop :=
  forall cid, h_content_id (headers part) = Some cid ->
    img_filename part data = strip_chars (lit "<>") cid ++ img_ext part.


(** On the second run every file is found in the ledger and skipped. *)
Definition rerun_skips_every_file (file : option (gset str))
    (dir : gmap str (list byte)) (files : list EmlFile) : Prop :=
  let '(st1, _, _) := run file dir files in
  let '(_, os2, _) := run (hash_file st1) (image_dir st1) files in
  Forall (fun f => mid_of f ∈ _load_hashes (hash_file st1)) files /\
  Forall (fun o => o = SkippedAsSeen) os2.

End Methods.

End Pipeline.

(** ** The image filter of [LeadBringerOfferKnowledge.py] *)

Module ImageFilter.
Import Py Std.

Definition TRACKING_PIXEL_PATTERNS : list str :=
  map lit
    ["s.gif"; "spacer.gif"; "pixel.gif"; "blank.gif"; "track.gif";
     "1x1.gif"; "1x1.png"; "beacon.gif"; "clear.gif"; "transparent.gif";
     "tracking"; "analytics"; "metric"; "mailtrack"; "emailtrack";
     "on.jsp"; "track.jsp"; "open.jsp"; "click.jsp";
     "track.php"; "open.php"; "click.php";
     "track.aspx"; "open.aspx";
     "/on/"; "/track/"; "/open/"; "/click/"]%string.

Definition TRACKING_EXTENSIONS : list str :=
  map lit [".jsp"; ".php"; ".aspx"; ".cgi"; ".pl"]%string.

Definition MINIMUM_IMAGE_SIZE : Z := 50.

Definition tracking_domains : list str :=
  map lit
    ["doubleclick"; "googleadservices"; "google-analytics";
     "facebook.com/tr"; "amazon-adsystem"; "list-manage.com/track";
     "constantcontact"; "mailchimp"; "sendgrid"; "hubspot";
     "salesforce"; "marketo"; "eloqua"]%string.

Definition tracking_params : list str :=
  map lit ["utm_"; "mc_"; "ml_"; "et_"; "fbclid"]%string.

(** The attributes of an [<img>] tag the filter reads; [None] is an absent
    attribute. *)
Record ImgTag := {
  width : option str;
  height : option str
}.

(** [int(a) if a else 999]; [None] is the [ValueError] of [int]. *)
Definition dimension (a : str) : option Z :=
  if truthy a then Py.int a else Some 999%Z.

(** The block "Check dimensions if available": [true] when it returns
    [True], [false] when control goes on to the next check (also after
    the bare [except]). *)
Definition dimension_check (img_tag : option ImgTag) : bool :=
  match img_tag with
  | None => false
  | Some tag =>
      let w_attr := replace (lit "px") [] (default [] (width tag)) in
      let h_attr := replace (lit "px") [] (default [] (height tag)) in
      match dimension w_attr with
      | None => false
      | Some w =>
          match dimension h_attr with
          | None => false
          | Some h =>
              (w <? MINIMUM_IMAGE_SIZE)%Z || (h <? MINIMUM_IMAGE_SIZE)%Z
          end
      end
  end.

(** What an attribute stands for in the check: the number [int] reads
    once every [px] is removed, 999 for an attribute that is absent or
    empty, nothing when [int] fails. *)
Definition declared (attr : option str) : option Z :=
  dimension (replace (lit "px") [] (default [] attr)).

(** An attribute without its [px] suffix, as the specification reads
    it. *)
Definition without_px_suffix (a : str) : str :=
  if endswith (lit "px") a then take (length a - 2) a else a.


Section Filter.
Context {L : StdLib}.

(** [Raise] is the [ValueError] of [urlparse], which no handler of the
    function catches. *)
Definition is_tracking_pixel (img_url : str) (img_tag : option ImgTag)
  : result bool :=
  let url_lower := lower img_url in
  if existsb (fun pattern => contains pattern url_lower)
       TRACKING_PIXEL_PATTERNS then Ok true
  else
    do parsed_path <- urlparse_path img_url;
    let path := lower parsed_path in
    if existsb (fun ext => endswith ext path) TRACKING_EXTENSIONS
    then Ok true
    else if dimension_check img_tag then Ok true
    else if existsb (fun domain => contains domain url_lower)
              tracking_domains then Ok true
    else Ok (existsb (fun param => contains param url_lower)
               tracking_params).

End Filter.

End ImageFilter.

(** ** Sample data

    The values the standard library returns on the inputs of the examples
    below (CPython 3.11), and a few message files.  The instance
    [sample_lib] knows these inputs only; the theorems are stated for
    every instance. *)

Module Sample.
Import Py Std Pipeline ImageFilter.

Definition bytes (s : string) : list byte := list_byte_of_string s.

(** The lines of a file, joined by LF. *)
Fixpoint eml (lines : list string) : string :=
  match lines with
  | [] => ""
  | [l] => l
  | l :: rest => l ++ String (ascii_of_nat 10) (eml rest)
  end.

Fixpoint bytes_eqb (a b : list byte) : bool :=
  match a, b with
  | [], [] => true
  | x :: a', y :: b' => Byte.eqb x y && bytes_eqb a' b'
  | _, _ => false
  end.

Fixpoint lookup_by {A B : Type} (eqb : A -> A -> bool) (x : A)
    (rows : list (A * B)) (dflt : B) : B :=
  match rows with
  | [] => dflt
  | (a, b) :: rest => if eqb x a then b else lookup_by eqb x rest dflt
  end.

Definition plain_headers (mid subj date from : option string) : Headers :=
  {| h_message_id := lit <$> mid; h_subject := lit <$> subj;
     h_date := lit <$> date; h_from := lit <$> from;
     h_content_disposition := None; h_content_id := None;
     h_content_type := lit "text/plain" |}.

Definition part_headers (ctype : string) (dispo cid : option string)
  : Headers :=
  {| h_message_id := None; h_subject := None; h_date := None;
     h_from := None; h_content_disposition := lit <$> dispo;
     h_content_id := lit <$> cid; h_content_type := lit ctype |}.

Definition date_jan1 : string := "Mon, 01 Jan 2024 10:00:00 +0000".
Definition date_jan2 : string := "Tue, 02 Jan 2024 09:30:00 +0100".
Definition date_overflow : string := "Fri, 31 Dec 9999 23:59:59 -0100".

Definition raw_first : string :=
  eml ["Message-ID: <a1@mail.example>"; "Subject: Offer: SPC Flooring";
       "Date: Mon, 01 Jan 2024 10:00:00 +0000";
       "From: Jeff <jeff@example.com>"; "Content-Type: text/plain"; "";
       "Price: $1,250.00 FOB Los Angeles, 5000 sqft available"].

Definition raw_reply : string :=
  eml ["Message-ID: <b2@mail.example>"; "Subject: RE: offer: SPC Flooring";
       "Date: Tue, 02 Jan 2024 09:30:00 +0100"; "From: sales@acme.test";
       "Content-Type: text/plain"; ""; "Now $980.50, FOB: Houston"].

Definition raw_nodate : string :=
  eml ["Subject: Fwd: Offer: SPC Flooring"; "From: sales@acme.test";
       "Content-Type: text/plain"; ""; "tile and spc"].

Definition raw_overflow : string :=
  eml ["Message-ID: <c3@mail.example>"; "Subject: Laminate lot";
       "Date: Fri, 31 Dec 9999 23:59:59 -0100"; "Content-Type: text/plain";
       ""; "laminate"].

Definition raw_empty_id : string :=
  eml ["Message-ID:"; "Subject: LVT closeout";
       "Date: Mon, 01 Jan 2024 10:00:00 +0000"; "Content-Type: text/plain";
       ""; "lvt"].

Definition sample_md5 (b : list byte) : str :=
  lit (lookup_by bytes_eqb b
         [(bytes raw_nodate, "62e7cc2f98828ac04cefc2df15a8eec3");
          (bytes raw_empty_id, "221acedb73a3e463df9e831bf1afe766");
          (bytes "GIF89a", "1ac2109d47dbc72551f71df89d01ed18");
          (bytes "", "d41d8cd98f00b204e9800998ecf8427e")]%string
         "00000000000000000000000000000000"%string).

Definition sample_parsedate (ds : str) : dt_result :=
  lookup_by eqs ds
    [(lit date_jan1, DtOk 63839700000%N);
     (lit date_jan2, DtOk 63839781000%N);
     (lit "Mon, 01 Jan 2024 05:00:00 -0500", DtOk 63839700000%N);
     (lit date_overflow, DtError)]
    DtInvalid.

Definition sample_guess_extension (ctype : str) : option str :=
  lookup_by eqs ctype
    [(lit "image/png", Some (lit ".png"));
     (lit "image/jpeg", Some (lit ".jpg"));
     (lit "image/gif", Some (lit ".gif"))]
    None.

Definition sample_get_text (html : str) : str :=
  lookup_by eqs html
    [(lit "<p>Oak <b>solid hardwood</b></p>", lit "Oak solid hardwood");
     (lit "<p>x</p>", lit "x")]
    html.

Definition sample_decode (b : list byte) : str :=
  map ascii_of_byte b.

Definition sample_parseaddr (v : str) : str :=
  lookup_by eqs v
    [(lit "Jeff <jeff@example.com>", lit "jeff@example.com")]
    v.

(** A file name with a slash names a folder that does not exist
    ([FileNotFoundError], an [OSError]); one with a NUL is refused with
    [ValueError]. *)
Definition sample_write (filename : str) : write_result :=
  if char_in filename (ascii_of_nat 0) then WriteError
  else if char_in filename "/"%char then WriteOSError
  else Written.

(** The path of a few URLs; a URL with a bracket that has no partner is
    refused. *)
Definition sample_urlpath (url : str) : result str :=
  if xorb (char_in url "["%char) (char_in url "]"%char) then Raise
  else
    Ok (lookup_by eqs url
          [(lit "https://example.com/track.gif", lit "/track.gif");
           (lit "https://example.com/product-photo.jpg",
            lit "/product-photo.jpg");
           (lit "https://shop.example.com/p/floor.png", lit "/p/floor.png")]
          []).

(** The folder is [images]; a name is taken as it is. *)
Definition sample_path (filename : str) : str := lit "images/" ++ filename.

Definition sample_lib : StdLib :=
  {| md5_hexdigest := sample_md5;
     parsedate_utc := sample_parsedate;
     guess_extension := sample_guess_extension;
     html_get_text := sample_get_text;
     decode_ignore := sample_decode;
     parseaddr_addr := sample_parseaddr;
     image_path := sample_path;
     write_bytes := sample_write;
     urlparse_path := sample_urlpath |}.

Definition file_first : EmlFile :=
  {| stem := lit "offer-1"; raw := bytes raw_first;
     parsed :=
       Leaf (plain_headers (Some "<a1@mail.example>")
               (Some "Offer: SPC Flooring") (Some date_jan1)
               (Some "Jeff <jeff@example.com>"))
         (bytes "Price: $1,250.00 FOB Los Angeles, 5000 sqft available") |}.

Definition file_reply : EmlFile :=
  {| stem := lit "offer-2"; raw := bytes raw_reply;
     parsed :=
       Leaf (plain_headers (Some "<b2@mail.example>")
               (Some "RE: offer: SPC Flooring") (Some date_jan2)
               (Some "sales@acme.test"))
         (bytes "Now $980.50, FOB: Houston") |}.

Definition file_nodate : EmlFile :=
  {| stem := lit "offer-3"; raw := bytes raw_nodate;
     parsed :=
       Leaf (plain_headers None (Some "Fwd: Offer: SPC Flooring") None
               (Some "sales@acme.test"))
         (bytes "tile and spc") |}.

Definition file_overflow : EmlFile :=
  {| stem := lit "offer-4"; raw := bytes raw_overflow;
     parsed :=
       Leaf (plain_headers (Some "<c3@mail.example>") (Some "Laminate lot")
               (Some date_overflow) None)
         (bytes "laminate") |}.

Definition file_empty_id : EmlFile :=
  {| stem := lit "offer-5"; raw := bytes raw_empty_id;
     parsed :=
       Leaf (plain_headers (Some "") (Some "LVT closeout") (Some date_jan1)
               None)
         (bytes "lvt") |}.

(** A forward of the first offer, received at the same instant. *)
Definition file_tie : EmlFile :=
  {| stem := lit "offer-6"; raw := bytes "";
     parsed :=
       Leaf (plain_headers (Some "<e5@mail.example>")
               (Some "FW: Offer: SPC Flooring")
               (Some "Mon, 01 Jan 2024 05:00:00 -0500") None)
         (bytes "same lot") |}.

Definition sample_files : list EmlFile :=
  [file_first; file_reply; file_nodate].


(** An inline image whose [Content-ID] is a pair of brackets. *)
Definition part_cid_brackets : Message :=
  Leaf (part_headers "image/gif" (Some "inline") (Some "<>"))
    (bytes "GIF89a").




End Sample.

(** ** More sample data *)

Module MoreSamples.
Import Py Std Pipeline ImageFilter Sample.

(** A message with two inline images that share a [Content-ID]. *)
Definition msg_two_logos : Message :=
  Multipart
    {| h_message_id := Some (lit "<p6@mail.example>");
       h_subject := Some (lit "Oak planks"); h_date := Some (lit date_jan1);
       h_from := None; h_content_disposition := None;
       h_content_id := None;
       h_content_type := lit "multipart/related" |}
    [Leaf (part_headers "text/plain" None None) (bytes "oak");
     Leaf (part_headers "image/png" (Some "inline") (Some "<logo@shop>"))
       (bytes "PNG-1");
     Leaf (part_headers "image/png" (Some "inline") (Some "<logo@shop>"))
       (bytes "PNG-2")].

Definition file_photo : EmlFile :=
  {| stem := lit "offer-7"; raw := bytes ""; parsed := msg_two_logos |}.

End MoreSamples.

(** ** More of Python's [str] *)

Module PyText.
Import Py.

Definition upper_char (c : ascii) : ascii :=
  if islower c then ascii_of_N (code c - 32) else c.

(** [s.upper()]. *)
Definition upper (s : str) : str := map upper_char s.

(** [s.capitalize()]. *)
Definition capitalize (s : str) : str :=
  match s with
  | [] => []
  | c :: t => upper_char c :: lower t
  end.

(** [s.split()]: the maximal runs of characters that are not white space.
    [cur] is the run being read, its last character first. *)
Fixpoint split_go (cur : str) (s : str) : list str :=
  match s with
  | [] =>
      match cur with
      | [] => []
      | _ :: _ => [rev cur]
      end
  | c :: t =>
      if isspace c then
        match cur with
        | [] => split_go [] t
        | _ :: _ => rev cur :: split_go [] t
        end
      else split_go (c :: cur) t
  end.

Definition split (s : str) : list str := split_go [] s.

(** [sep.join(l)]. *)
Fixpoint join (sep : str) (l : list str) : str :=
  match l with
  | [] => []
  | w :: rest =>
      match rest with
      | [] => w
      | _ :: _ => w ++ sep ++ join sep rest
      end
  end.

(** [str(n)] for an [int]. *)
Definition str_of_Z (z : Z) : str := lit (NilZero.string_of_int (Z.to_int z)).

(** *** Words for the statements about texts *)

(** A word: not empty, and free of white space. *)
Definition word (w : str) : Prop :=
  w <> [] /\ Forall (fun c => isspace c = false) w.

(** Words separated by single spaces. *)
Definition spaced (s : str) : Prop :=
  exists ws, Forall word ws /\ s = join (lit " ") ws.

(** A word as [capitalize] leaves it: no lower case letter at its head, no
    upper case letter after it. *)
Definition capitalized (w : str) : Prop :=
  match w with
  | [] => False
  | c :: t => islower c = false /\ Forall (fun x => isupper x = false) t
  end.

(** [s.isascii()]: every character is below 128. *)
Definition isascii (s : str) : bool :=
  forallb (fun c => (code c <? 128)%N) s.

(** The length of the longest prefix of [s] whose characters satisfy
    [p]. *)
Fixpoint run_length (p : ascii -> bool) (s : str) : nat :=
  match s with
  | [] => 0
  | c :: t => if p c then S (run_length p t) else 0
  end.

(** [s'] is [s] with some of its white space removed or turned into
    spaces. *)
Inductive squeezed : str -> str -> Prop :=
| squeezed_nil : squeezed [] []
| squeezed_keep c s s' : squeezed s s' -> squeezed (c :: s) (c :: s')
| squeezed_drop c s s' :
    isspace c = true -> squeezed s s' -> squeezed (c :: s) s'
| squeezed_space c s s' :
    isspace c = true -> squeezed s s' -> squeezed (c :: s) (" "%char :: s').

End PyText.

(** ** More of [re]: [sub] with a replacement, [findall], a closing [$] *)

Module ReMore.
Import Py Re.

(** A pattern: a regex, possibly closed by [$]. *)
Record pattern := Pattern {
  p_body : regex;
  p_dollar : bool
}.

(** [$] without [re.M]: at the end of the text, or before a line feed that
    ends it. *)
Definition at_dollar (st : mstate) : bool :=
  match m_rest st with
  | [] => true
  | c :: t =>
      match t with
      | [] => Ascii.eqb c "010"
      | _ :: _ => false
      end
  end.

(** What is left to check once the body of the pattern has matched up to
    [st']: the closing [$], and, when [adv] is set, that the match is not
    empty. *)
Definition accept (p : pattern) (adv : bool) (st : mstate) : cont :=
  fun st' =>
    if adv && Nat.eqb (length (m_prev st')) (length (m_prev st)) then None
    else if p_dollar p && negb (at_dollar st') then None
    else Some st'.

Definition try_at (p : pattern) (adv : bool) (st : mstate) : option mstate :=
  rmatch (p_body p) (accept p adv st) st.

(** The next match at or after the position between [prev] and [rest];
    [adv] is set when the previous match was empty and ended here. *)
Fixpoint scan (p : pattern) (adv : bool) (prev rest : str)
  : option (mstate * mstate) :=
  let st := MState prev rest None in
  match try_at p adv st with
  | Some st' => Some (st, st')
  | None =>
      match rest with
      | [] => None
      | c :: t => scan p false (c :: prev) t
      end
  end.

(** [re.search(p, txt)]. *)
Definition search_p (p : pattern) (txt : str) : option (mstate * mstate) :=
  scan p false [] txt.

(** [re.sub(p, repl, txt)] for a replacement without back-references: the
    matches are found from the left, each search starting where the previous
    match ended; [n] bounds the number of searches. *)
Fixpoint sub_go (p : pattern) (repl : str) (n : nat) (adv : bool)
    (prev rest : str) : str :=
  match n with
  | O => rest
  | S n' =>
      match scan p adv prev rest with
      | None => rest
      | Some (st, st') =>
          between (MState prev rest None) st ++ repl ++
          sub_go p repl n' (Nat.eqb (length (between st st')) 0)
            (m_prev st') (m_rest st')
      end
  end.

Definition sub (p : pattern) (repl txt : str) : str :=
  sub_go p repl (2 * length txt + 2) false [] txt.

(** What [findall] returns for a match: group 1 when the pattern has a
    group (the empty string when it took no part), else the whole match. *)
Definition found (p : pattern) (m : mstate * mstate) : str :=
  if (0 <? ngroups (p_body p))%nat then default [] (group1 m) else group0 m.

(** [re.findall(p, txt)] for a pattern with at most one group. *)
Fixpoint findall_go (p : pattern) (n : nat) (adv : bool) (prev rest : str)
  : list str :=
  match n with
  | O => []
  | S n' =>
      match scan p adv prev rest with
      | None => []
      | Some (st, st') =>
          found p (st, st') ::
          findall_go p n' (Nat.eqb (length (between st st')) 0)
            (m_prev st') (m_rest st')
      end
  end.

Definition findall (p : pattern) (txt : str) : list str :=
  findall_go p (2 * length txt + 2) false [] txt.

Definition plus (a : regex) : regex := RRep 1 None a.

(** A pattern with no closing [$]. *)
Definition pat (r : regex) : pattern := Pattern r false.

End ReMore.

(** ** The rest of [LeadBringerOfferKnowledge.py] *)

(** ** What the greedy matcher takes *)

Module Greedy.
Import Py Re PyText.

(** The pattern has no [^] and no [\b]. *)
Fixpoint anchor_free (r : regex) : bool :=
  match r with
  | RBol | RWordB => false
  | RSeq a b | RAlt a b => anchor_free a && anchor_free b
  | RRep _ _ a | RGroup a => anchor_free a
  | _ => true
  end.







End Greedy.

Module Knowledge.
Import Py Re Std Pipeline ImageFilter PyText ReMore.

(** *** Regular expressions *)

(** [<[^>]+>]. *)
Definition TAG_RX : pattern :=
  pat (chr "<" ;; plus (RChar (fun c => negb (Ascii.eqb c ">"))) ;; chr ">")%re.

(** [[^\w\s-]]. *)
Definition UNSAFE_RX : pattern :=
  pat (RChar (fun c => negb (isword c || isspace c || Ascii.eqb c "-"))).

(** [[^\w\s.-]]. *)
Definition UNSAFE_NAME_RX : pattern :=
  pat (RChar (fun c => negb (isword c || isspace c || char_in (lit ".-") c))).

(** [^(re:|fw:|fwd:)], [re.I]. *)
Definition MARKER_RX : pattern :=
  pat (RBol ;;
       RGroup (alt3 (lit_with chr_i "re:") (lit_with chr_i "fw:")
                 (lit_with chr_i "fwd:")))%re.

(** [slp\s*-+], [re.I]. *)
Definition SLP_RX : pattern :=
  pat (lit_with chr_i "slp" ;; star space ;; plus (chr "-"))%re.

(** [\b(steal it|blowout|specials?|crazy|cheap|offer|deals?)\b],
    [re.I]. *)
Definition HYPE_RX : pattern :=
  pat (RWordB ;;
       RGroup
         (RAlt (lit_with chr_i "steal it")
            (RAlt (lit_with chr_i "blowout")
               (RAlt (lit_with chr_i "special" ;; opt (chr_i "s"))
                  (RAlt (lit_with chr_i "crazy")
                     (RAlt (lit_with chr_i "cheap")
                        (RAlt (lit_with chr_i "offer")
                           (lit_with chr_i "deal" ;; opt (chr_i "s")))))))) ;;
       RWordB)%re.

(** [[-:;!?,]+$]. *)
Definition TRAIL_RX : pattern :=
  Pattern (plus (RChar (char_in (lit "-:;!?,")))) true.

(** [\bFOB\s*:?\s*([A-Za-z0-9\s,]+)]. *)
Definition FOB_RX : pattern :=
  pat (RWordB ;; lit_with chr "FOB" ;; star space ;; opt (chr ":") ;;
       star space ;;
       RGroup (plus (RChar (fun c => isalpha c || isdigit c || isspace c
                                     || Ascii.eqb c ","))))%re.

(** [(\d+(?:\.\d+)?\s*mm)]. *)
Definition THICK_RX : pattern :=
  pat (RGroup (plus digit ;; opt (chr "." ;; plus digit) ;; star space ;;
               lit_with chr "mm"))%re.

(** [(\d+(?:\.\d+)?\s*mil\s*WL)]. *)
Definition WL_RX : pattern :=
  pat (RGroup (plus digit ;; opt (chr "." ;; plus digit) ;; star space ;;
               lit_with chr "mil" ;; star space ;; lit_with chr "WL"))%re.

(** *** Parsing functions *)

Definition clean_title (raw : str) : str :=
  let t := lower raw in
  let t := strip (sub MARKER_RX [] t) in
  let t := strip (sub SLP_RX [] t) in
  let t := sub HYPE_RX [] t in
  let t := strip (sub TRAIL_RX [] t) in
  join (lit " ") (map capitalize (split t)).

(** [clean_text(html)]; [None] is Python's [None]. *)
Definition clean_text (html : option str) : str :=
  let text :=
    replace [ascii_of_nat 10] (lit " ")
      (sub TAG_RX (lit " ") (default [] html)) in
  join (lit " ") (split text).

(** [<], then a character other than [>], and a [>] further on: what
    [TAG_RX] matches at the head of a text. *)
Definition tag_at_head (s : str) : bool :=
  match s with
  | c :: x :: t =>
      Ascii.eqb c "<" && negb (Ascii.eqb x ">") && char_in t ">"
  | _ => false
  end.

(** No suffix of the text has a tag at its head. *)
Fixpoint notag (s : str) : bool :=
  negb (tag_at_head s) &&
  match s with
  | [] => true
  | _ :: t => notag t
  end.

(** The text has no tag: no [<] that is followed by a character other than
    [>] and, further on, by a [>]. *)
Definition tag_free (s : str) : Prop :=
  forall a x b d, s = a ++ "<"%char :: x :: b ++ ">"%char :: d -> x = ">"%char.

(** *** Images of the body *)

(** An [<img>] element: the attributes [extract_quality_images] reads, and
    the two of them [is_tracking_pixel] reads. *)
Record Img := {
  src : option str;
  alt : option str;
  tag : ImgTag
}.

Definition product_words : list str :=
  map lit ["product"; "floor"; "tile"; "carpet"; "stone"]%string.

(** [any(word in alt for word in [...])]. *)
Definition product_alt (img : Img) : bool :=
  let alt := lower (default [] (alt img)) in
  existsb (fun word => contains word alt) product_words.

(** [img.get('src', '')]. *)
Definition src_of (img : Img) : str := default [] (src img).

(** What the outside world answers. *)
Record Response := {
  status_code : Z;
  (** [headers.get('content-type', '')] *)
  content_type : str;
  content : list byte
}.

(** The libraries and the network, as the module sees them: [E] is the
    state of the world outside the program. *)
Class World (E : Type) := {
  (** [BeautifulSoup(html, 'html.parser').find_all('img')] *)
  find_all_img : str -> list Img;
  (** [requests.get(url, headers=..., timeout=15)] *)
  requests_get : str -> E -> result Response * E;
  (** [int(time.time())] *)
  time_now : E -> Z;
  (** [time.sleep(secs)] *)
  sleep : Z -> E -> E;
  (** [image_dir.mkdir(parents=True, exist_ok=True)] *)
  mkdir_temp : E -> result unit * E;
  (** [open(filepath, 'wb')] and [f.write(data)], by file name *)
  write_temp : str -> list byte -> E -> result unit * E;
  (** [build], [MediaFileUpload], [files().create(...).execute()] and
      [file['id']], by file name and MIME type *)
  drive_create : str -> str -> E -> result str * E;
  (** [permissions().create(...).execute()], by file id *)
  drive_share : str -> E -> result unit * E;
  (** [os.remove(filepath)], its exceptions passed over *)
  os_remove : str -> E -> E;
  (** [base64.b64decode(s)] of the module [base64] *)
  b64decode : str -> result (list byte)
}.

(** A computation in the world that returns or raises. *)
Definition io (E A : Type) : Type := E -> result A * E.

Definition io_ret {E A : Type} (a : A) : io E A := fun e => (Ok a, e).

Definition io_bind {E A B : Type} (m : io E A) (f : A -> io E B) : io E B :=
  fun e =>
    match m e with
    | (Ok a, e') => f a e'
    | (Raise, e') => (Raise, e')
    end.

Notation "'let!' x := m 'in' k" := (io_bind m (fun x => k))
  (at level 10, x name, m at level 100, k at level 200).

(** [try: ... except Exception: return dflt]. *)
Definition try_or {E A : Type} (m : io E A) (dflt : A) (e : E) : A * E :=
  match m e with
  | (Ok a, e') => (a, e')
  | (Raise, e') => (dflt, e')
  end.

(** The names bound in the module: what it imports, its constants and its
    functions.  No builtin is called [base64]. *)
Definition module_names : list string :=
  ["os"; "re"; "time"; "requests"; "msal"; "pd"; "gspread";
   "datetime"; "timedelta"; "timezone"; "Path"; "BeautifulSoup";
   "urlparse"; "InstalledAppFlow"; "build"; "MediaFileUpload";
   "CLIENT_ID"; "TENANT_ID"; "AUTHORITY"; "SCOPES"; "USERNAME";
   "RSS_FOLDER_ID"; "GOOGLE_SHEET_ID"; "WORKSHEET_NAME";
   "GOOGLE_CLIENT_SECRETS"; "DRIVE_FOLDER_ID";
   "TRACKING_PIXEL_PATTERNS"; "TRACKING_EXTENSIONS"; "MINIMUM_IMAGE_SIZE";
   "is_tracking_pixel"; "extract_quality_images";
   "handle_multiple_images_single"; "handle_multiple_images_collage";
   "handle_multiple_images_album"; "upload_image_to_drive";
   "ms_auth"; "google_auth"; "clean_title";
   "fetch_full_email_with_attachments"; "upload_attachment_to_drive";
   "clean_text"; "PRICE_RX"; "FOB_RX"; "THICK_RX"; "WL_RX"; "DIM_RX";
   "parse_offer"; "push_to_sheet"; "main"]%string.

(** The look-up of a global name: [NameError] when it is not bound. *)
Definition load_global {E : Type} (name : string) : io E unit :=
  fun e =>
    if existsb (String.eqb name) module_names then (Ok tt, e) else (Raise, e).

(** An entry of [email['attachmentImages']]. *)
Record Attachment := {
  a_name : str;
  a_contentBytes : str;
  a_contentType : str
}.

(** The message [parse_offer] is given, a JSON object whose values are
    strings, objects or [null]; a key that is absent is given as the
    default the program reads for it. *)
Record Email := {
  (** [email.get('subject', '')]; [None] is [null] *)
  e_subject : option str;
  (** [email.get('body', {})]: [None] is [null]; otherwise what
      [.get('content', '')] gives for it, where [None] is [null] again *)
  e_body : option (option str);
  (** [email.get('attachmentImages', [])], as
      [fetch_full_email_with_attachments] builds it *)
  e_attachmentImages : list Attachment
}.

(** The fields of the offer of [parse_offer] that are modelled; [price],
    [unit] and [dimensions] are not (their patterns have two groups, a lazy
    quantifier and a character outside ASCII). *)
Record Offer := {
  photo : str;
  photos : str;
  photo_count : nat;
  name : str;
  fob : str;
  thickness : str;
  wl : str;
  saved : bool;
  had_attachments : bool;
  quality_images_found : nat
}.

Definition drive_prefix : str := lit "https://drive.google.com/uc?id=".

Section Functions.
Context {E : Type} {W : World E}.
Context {L : StdLib}.

(** One turn of the loop of [extract_quality_images]; [Raise] is the
    exception of [is_tracking_pixel]. *)
Definition image_step (found_images : list str) (img : Img)
  : result (list str) :=
  let src := src_of img in
  if negb (truthy src) || negb (startswith (lit "http") src)
  then Ok found_images
  else
    do tracking <- is_tracking_pixel src (Some (tag img));
    if tracking then Ok found_images
    else if product_alt img then Ok (src :: found_images)
    else Ok (found_images ++ [src]).

(** The loop of [extract_quality_images] over the [<img>] elements. *)
Fixpoint image_loop (imgs : list Img) (found_images : list str)
  : result (list str) :=
  match imgs with
  | [] => Ok found_images
  | img :: rest =>
      do found <- image_step found_images img;
      image_loop rest found
  end.

(** The images the loop looks at: those with a [src] that starts with
    [http]. *)
Definition candidate (img : Img) : bool :=
  truthy (src_of img) && startswith (lit "http") (src_of img).

(** The images the loop keeps: the candidates that [is_tracking_pixel]
    lets through. *)
Definition kept (img : Img) : bool :=
  candidate img &&
  match is_tracking_pixel (src_of img) (Some (tag img)) with
  | Ok false => true
  | _ => false
  end.

(** The images on which the loop stops with an exception. *)
Definition refused (img : Img) : bool :=
  candidate img &&
  match is_tracking_pixel (src_of img) (Some (tag img)) with
  | Raise => true
  | _ => false
  end.

Definition extract_quality_images (html : option str) : result (list str) :=
  match html with
  | None | Some [] => Ok []
  | Some html =>
      do found_images <- image_loop (find_all_img html) [];
      Ok (first_seen found_images)
  end.

(** The extension [upload_image_to_drive] gives to the file. *)
Definition upload_ext (content_type : str) : str :=
  if contains (lit "png") content_type then lit ".png"
  else if contains (lit "gif") content_type then lit ".gif"
  else lit ".jpg".

(** The name of the temporary file of [upload_image_to_drive]. *)
Definition upload_filename (title : str) (now : Z) (content_type : str)
  : str :=
  let safe_title := take 50 (sub UNSAFE_RX [] title) in
  safe_title ++ lit "_" ++ str_of_Z now ++ upload_ext content_type.

(** The steps of the two upload functions from the temporary file on. *)
Definition store_and_share (filename : str) (data : list byte)
    (mimetype : str) : io E str :=
  let! _ := write_temp filename data in
  let! id := drive_create filename mimetype in
  let! _ := drive_share id in
  fun e => (Ok (drive_prefix ++ id), os_remove filename e).

Definition upload_image_to_drive (image_url title : str) : E -> str * E :=
  try_or
    (let! response := requests_get image_url in
     if negb (status_code response =? 200)%Z then io_ret []
     else
       let content_type := content_type response in
       if negb (contains (lit "image") content_type) then io_ret []
       else
         let! _ := mkdir_temp in
         fun e =>
           let filename := upload_filename title (time_now e) content_type in
           store_and_share filename (content response) content_type e)
    [].

(** The name of the temporary file of [upload_attachment_to_drive]. *)
Definition attachment_filename (title : str) (attachment : Attachment)
  : str :=
  sub UNSAFE_NAME_RX [] (title ++ lit "_" ++ a_name attachment).

Definition upload_attachment_to_drive (attachment : Attachment)
    (title : str) : E -> str * E :=
  try_or
    (let! _ := load_global "base64" in
     let! image_content := fun e => (b64decode (a_contentBytes attachment), e) in
     let! _ := mkdir_temp in
     let filename := attachment_filename title attachment in
     store_and_share filename image_content (a_contentType attachment))
    [].

(** The loop of [handle_multiple_images_single] over [images[:3]];
    [None] when it ends without a [return]. *)
Fixpoint first_upload (images : list str) (title : str) (e : E)
  : option str * E :=
  match images with
  | [] => (None, e)
  | img_url :: rest =>
      let '(drive_url, e') := upload_image_to_drive img_url title e in
      if truthy drive_url then (Some drive_url, e')
      else first_upload rest title e'
  end.

Definition handle_multiple_images_single (images : list str) (title : str)
    (e : E) : str * E :=
  match images with
  | [] => ([], e)
  | first :: _ =>
      match first_upload (take 3 images) title e with
      | (Some drive_url, e') => (drive_url, e')
      | (None, e') => (first, e')
      end
  end.

(** The loop of [handle_multiple_images_album] from index [i] on. *)
Fixpoint album_loop (title : str) (i : nat) (images : list str) (e : E)
  : list str * E :=
  match images with
  | [] => ([], e)
  | img_url :: rest =>
      let '(drive_url, e1) :=
        upload_image_to_drive img_url
          (title ++ lit "_img" ++ str_of_Z (Z.of_nat i + 1)) e in
      let '(urls, e2) := album_loop title (S i) rest (sleep 1 e1) in
      ((if truthy drive_url then [drive_url] else []) ++ urls, e2)
  end.

Definition handle_multiple_images_album (images : list str) (title : str)
    (e : E) : list str * E :=
  album_loop title 0 (take 4 images) e.

(** The loop of [parse_offer] over the attachments. *)
Fixpoint attachment_loop (atts : list Attachment) (clean_name : str) (e : E)
  : list str * E :=
  match atts with
  | [] => ([], e)
  | att :: rest =>
      let '(drive_url, e1) := upload_attachment_to_drive att clean_name e in
      let '(urls, e2) := attachment_loop rest clean_name e1 in
      ((if truthy drive_url then [drive_url] else []) ++ urls, e2)
  end.

(** The loop of [parse_offer] over [all_images[:5]] from index [i] on;
    [n_all] is [len(all_images)]. *)
Fixpoint photo_loop (n_all : nat) (clean_name : str) (i : nat)
    (images : list str) (e : E) : list str * E :=
  match images with
  | [] => ([], e)
  | img_url :: rest =>
      let '(url, e1) :=
        if contains (lit "drive.google.com") img_url then (img_url, e)
        else
          let '(drive_url, e') :=
            upload_image_to_drive img_url
              (clean_name ++ lit "_img" ++ str_of_Z (Z.of_nat i + 1)) e in
          (if truthy drive_url then drive_url else img_url, e') in
      let e2 := if (Z.of_nat i <? Z.of_nat n_all - 1)%Z
                then sleep 1 e1 else e1 in
      let '(urls, e3) := photo_loop n_all clean_name (S i) rest e2 in
      (url :: urls, e3)
  end.

(** One turn of the loop of [parse_offer] over the images: the URL it
    appends and the world it leaves, before the pause. *)
Definition photo_step (img_url title : str) (e : E) : str * E :=
  if contains (lit "drive.google.com") img_url then (img_url, e)
  else
    let r := upload_image_to_drive img_url title e in
    (if truthy r.1 then r.1 else img_url, r.2).

(** [f.group(1).strip() if f else '']; [Raise] is the [AttributeError] of
    [None.strip()]. *)
Definition fob_of (text : str) : result str :=
  match search_p FOB_RX text with
  | Some m =>
      match group1 m with
      | Some g => Ok (strip g)
      | None => Raise
      end
  | None => Ok []
  end.

(** A method called on a value that may be [None]: [Raise] is the
    [AttributeError]. *)
Definition method_of {A : Type} (o : option A) : io E A :=
  fun e => (match o with Some a => Ok a | None => Raise end, e).

Definition parse_offer (email : Email) : io E Offer :=
  let! html := method_of (e_body email) in
  let text := upper (clean_text html) in
  let thickness := join (lit "; ") (findall THICK_RX text) in
  let wl := join (lit "; ") (findall WL_RX text) in
  let! fob := fun e => (fob_of text, e) in
  let! raw_title := method_of (e_subject email) in
  let clean_name := clean_title raw_title in
  let! inline_images := fun e => (extract_quality_images html, e) in
  fun e =>
    let '(attachment_images, e1) :=
      attachment_loop (e_attachmentImages email) clean_name e in
    let all_images := attachment_images ++ inline_images in
    let '(all_photo_urls, e2) :=
      photo_loop (length all_images) clean_name 0 (take 5 all_images) e1 in
    (Ok {| photo := hd [] all_photo_urls;
           photos := join (lit ",") all_photo_urls;
           photo_count := length all_photo_urls;
           name := clean_name;
           fob := fob;
           thickness := thickness;
           wl := wl;
           saved := false;
           had_attachments := (0 <? length attachment_images)%nat;
           quality_images_found := length all_images |}, e2).

End Functions.

End Knowledge.

(** ** A sample world *)

Module KnowledgeSamples.
Import Py Std Pipeline ImageFilter PyText Knowledge Sample.

Definition img (s a w h : option string) : Img :=
  {| src := lit <$> s; alt := lit <$> a;
     tag := {| width := lit <$> w; height := lit <$> h |} |}.

Definition url_floor : string := "https://shop.example.com/p/floor.png".
Definition url_photo : string := "https://example.com/product-photo.jpg".
Definition url_track : string := "https://example.com/track.gif".

(** The body of a message, and the [<img>] elements the HTML parser finds
    in it. *)
Definition page : string :=
  "<p>Oak planks 5mm, 20 mil WL. FOB: Dalton, GA</p><img src=...>".

Definition page_imgs : list Img :=
  [img (Some url_photo) (Some "Stone look") None None;
   img (Some url_track) None (Some "1") (Some "1");
   img (Some url_floor) (Some "Oak floor") (Some "600px") (Some "400");
   img (Some url_photo) None None None;
   img (Some "cid:logo") (Some "product") None None].

(** A body with an image whose URL [urlparse] refuses. *)
Definition url_bracket : string := "http://[::1/x.png".

Definition page_bracket : string :=
  "<p>Oak planks</p><img src=...><img src=...>".

Definition page_bracket_imgs : list Img :=
  [img (Some url_floor) (Some "Oak floor") None None;
   img (Some url_bracket) None None None].

Definition sample_find_all_img (html : str) : list Img :=
  if eqs html (lit page) then page_imgs
  else if eqs html (lit page_bracket) then page_bracket_imgs
  else [].

(** The state of the sample world is the list of what was asked of it. *)
Definition sample_get (url : str) (log : list str)
  : result Response * list str :=
  (lookup_by eqs url
     [(lit url_floor,
       Ok {| status_code := 200; content_type := lit "image/png";
             content := bytes "PNG" |});
      (lit url_photo,
       Ok {| status_code := 404; content_type := lit "text/html";
             content := bytes "" |})]
     Raise,
   log ++ [lit "GET " ++ url]).

Definition sample_world : World (list str) :=
  {| find_all_img := sample_find_all_img;
     requests_get := sample_get;
     time_now := fun _ => 1700000000%Z;
     sleep := fun _ log => log;
     mkdir_temp := fun log => (Ok tt, log);
     write_temp := fun filename _ log =>
       (Ok tt, log ++ [lit "WRITE " ++ filename]);
     drive_create := fun filename _ log =>
       (Ok (lit "F" ++ str_of_Z (Z.of_nat (length log))),
        log ++ [lit "CREATE " ++ filename]);
     drive_share := fun _ log => (Ok tt, log);
     os_remove := fun filename log => log ++ [lit "REMOVE " ++ filename];
     b64decode := fun _ => Ok [] |}.

Definition sample_email : Email :=
  {| e_subject := Some (lit "RE: SLP -- Oak Flooring Blowout!!");
     e_body := Some (Some (lit page));
     e_attachmentImages :=
       [{| a_name := lit "oak.jpg"; a_contentBytes := lit "T0FL";
           a_contentType := lit "image/jpeg" |}] |}.

End KnowledgeSamples.
(** * Properties *)

(** ** The strings of Python *)

Module PyFacts.
Import Py.

Lemma truthy_true (s : str) : truthy s = true <-> s <> [].
Proof. destruct s; simpl; split; congruence. Qed.

Lemma truthy_false (s : str) : truthy s = false <-> s = [].
Proof. destruct s; simpl; split; congruence. Qed.

Lemma eqs_true (a b : str) : eqs a b = true <-> a = b.
Proof. unfold eqs. apply bool_decide_eq_true. Qed.

Lemma eqs_false (a b : str) : eqs a b = false <-> a <> b.
Proof. unfold eqs. apply bool_decide_eq_false. Qed.

Lemma eqs_refl (a : str) : eqs a a = true.
Proof. by apply eqs_true. Qed.

(** Facts about single characters are checked on the 256 of them. *)
Ltac by_cases_on_char c :=
  destruct c as [[] [] [] [] [] [] [] []]; vm_compute; try done; auto.


Lemma isspace_lower c : isspace (lower_char c) = isspace c.
Proof. by_cases_on_char c. Qed.

Lemma lower_app (a b : str) : lower (a ++ b) = lower a ++ lower b.
Proof. unfold lower. apply map_app. Qed.

(** *** Stripping *)

Lemma lstrip_by_suffix p s :
  exists l, s = l ++ lstrip_by p s /\ Forall (fun c => p c = true) l.
Proof.
  induction s as [|c t [l [Hl Hf]]]; simpl.
  - by exists [].
  - destruct (p c) eqn:E.
    + exists (c :: l). split; [by rewrite Hl at 1|by constructor].
    + by exists [].
Qed.


Lemma lstrip_by_idem p s : lstrip_by p (lstrip_by p s) = lstrip_by p s.
Proof.
  induction s as [|c t IH]; simpl; [done|].
  destruct (p c) eqn:E; [done|]. simpl. by rewrite E.
Qed.


Lemma strip_by_infix p s : exists l r, s = l ++ strip_by p s ++ r.
Proof.
  unfold strip_by, rstrip_by.
  destruct (lstrip_by_suffix p s) as [l [Hl _]].
  destruct (lstrip_by_suffix p (rev (lstrip_by p s))) as [r [Hr _]].
  exists l, (rev r). rewrite Hl at 1. f_equal.
  rewrite <- rev_app_distr, <- Hr, rev_involutive. done.
Qed.



Lemma lstrip_lower s :
  lstrip_by isspace (casefold s) = casefold (lstrip_by isspace s).
Proof.
  induction s as [|c t IH]; simpl; [done|].
  rewrite isspace_lower. by destruct (isspace c).
Qed.

Lemma strip_casefold_lstrip s :
  strip (casefold (lstrip_by isspace s)) = strip (casefold s).
Proof.
  unfold strip, strip_by. by rewrite <- lstrip_lower, lstrip_by_idem.
Qed.

(** *** Substrings *)

Lemma startswith_spec p s :
  startswith p s = true <-> exists post, s = p ++ post.
Proof.
  revert s. induction p as [|a p IH]; intros s; simpl.
  - split; [by exists s|done].
  - destruct s as [|b s]; [split; [done|by intros [? ?]]|].
    rewrite andb_true_iff, Ascii.eqb_eq, IH. split.
    + intros [-> [post ->]]. by exists post.
    + intros [post [= -> ->]]. split; [done|by exists post].
Qed.

Lemma contains_spec sub s :
  contains sub s = true <-> exists pre post, s = pre ++ sub ++ post.
Proof.
  induction s as [|c s IH]; simpl.
  - rewrite orb_false_r, startswith_spec. split.
    + intros [post H]. by exists [], post.
    + intros [pre [post H]]. destruct pre; [by exists post|done].
  - rewrite orb_true_iff, startswith_spec, IH. split.
    + intros [[post H]|[pre [post H]]].
      * by exists [], post.
      * exists (c :: pre), post. by rewrite H.
    + intros [[|x pre] [post H]].
      * left. by exists post.
      * right. injection H as -> ->. by exists pre, post.
Qed.

End PyFacts.

(** ** The matcher *)

Module ReFacts.
Import Py Re PyFacts.

(** A match consumes a prefix of what is left. *)
Lemma matches_split r st st' :
  matches r st st' ->
  exists w, m_rest st = w ++ m_rest st' /\ m_prev st' = rev w ++ m_prev st.
Proof.
  induction 1 as [st|p c t st Hr Hp|a b st1 st2 st3 _ [u [Hu1 Hu2]] _ [v [Hv1 Hv2]]
                 |a b st st' _ IH|a b st st' _ IH|hi a st
                 |lo hi a st1 st2 st3 _ _ [u [Hu1 Hu2]] _ [v [Hv1 Hv2]]
                 |a st st' _ [w [Hw1 Hw2]]|st _|st _];
    try (by exists []); try done.
  - exists [c]. by rewrite Hr.
  - exists (u ++ v). rewrite Hu1, Hv1, Hv2, Hu2, rev_app_distr, !app_assoc. done.
  - exists (u ++ v). rewrite Hu1, Hv1, Hv2, Hu2, rev_app_distr, !app_assoc. done.
  - by exists w.
Qed.

Lemma between_split (st st' : mstate) (w : str) :
  m_prev st' = rev w ++ m_prev st -> between st st' = w.
Proof.
  intros H. unfold between. rewrite H, length_app, length_rev.
  replace (length w + length (m_prev st) - length (m_prev st)) with (length (rev w))
    by (rewrite length_rev; lia).
  by rewrite take_app_length, rev_involutive.
Qed.

Lemma matches_between r st st' :
  matches r st st' ->
  m_rest st = between st st' ++ m_rest st' /\
  m_prev st' = rev (between st st') ++ m_prev st.
Proof.
  intros H. destruct (matches_split _ _ _ H) as [w [H1 H2]].
  by rewrite (between_split _ _ _ H2).
Qed.

Lemma between_trans r1 r2 st1 st2 st3 :
  matches r1 st1 st2 -> matches r2 st2 st3 ->
  between st1 st3 = between st1 st2 ++ between st2 st3.
Proof.
  intros H1 H2.
  destruct (matches_between _ _ _ H1) as [_ E1].
  destruct (matches_between _ _ _ H2) as [_ E2].
  apply between_split. rewrite E2, E1, rev_app_distr, app_assoc. done.
Qed.

(** A pattern without a group leaves the capture alone. *)
Lemma matches_nogroup r st st' :
  matches r st st' -> ngroups r = 0 -> m_grp st' = m_grp st.
Proof.
  induction 1; simpl; intros Hn; try done.
  - rewrite IHmatches2, IHmatches1; [done|lia..].
  - apply IHmatches; lia.
  - apply IHmatches; lia.
  - rewrite IHmatches2, IHmatches1; done.
Qed.

(** The text of a match is in the language of the pattern. *)
Lemma matches_lang r st st' : matches r st st' -> lang r (between st st').
Proof.
  induction 1 as [st|p c t st Hr Hp|a b st1 st2 st3 Ha IHa Hb IHb
                 |a b st st' _ IH|a b st st' _ IH|hi a st
                 |lo hi a st1 st2 st3 Hhi Ha IHa Hb IHb
                 |a st st' Ha IH|st _|st _]; simpl.
  - by apply between_split.
  - exists c. split; [|done]. by apply between_split.
  - exists (between st1 st2), (between st2 st3).
    split; [by eapply between_trans|done].
  - by left.
  - by right.
  - exists []. split; [by apply between_split|].
    split; [constructor|]. split; simpl; [lia|intros; lia].
  - destruct IHb as [ws [Hw [Hall [Hlo Hup]]]].
    exists (between st1 st2 :: ws). simpl.
    split; [rewrite <- Hw; by eapply between_trans|].
    split; [by constructor|].
    split; [lia|].
    intros h ->. simpl in Hup. specialize (Hup _ eq_refl).
    destruct h; [done|simpl in Hup; lia].
  - destruct (matches_between _ _ _ Ha) as [_ E].
    replace (between st (set_grp st st')) with (between st st'); [done|].
    symmetry. by apply between_split.
  - by apply between_split.
  - by apply between_split.
Qed.

(** *** The matcher finds matches only *)

Lemma rep_sound a :
  (forall k st res, rmatch a k st = Some res ->
     exists st', matches a st st' /\ k st' = Some res) ->
  forall fuel lo k st res,
    rep (rmatch a) lo fuel k st = Some res ->
    exists st', matches (RRep lo (Some fuel) a) st st' /\ k st' = Some res.
Proof.
  intros IHa. induction fuel as [|f IHf]; intros lo k st res; simpl.
  - destruct lo; simpl; [|done]. intros Hk. exists st. split; [constructor|done].
  - destruct (rmatch a (rep (rmatch a) (Nat.pred lo) f k) st) as [r|] eqn:E.
    + intros [= ->]. apply IHa in E as [st1 [H1 E1]].
      apply IHf in E1 as [st2 [H2 E2]].
      exists st2. split; [|done]. by eapply M_rep_more.
    + destruct lo; simpl; [|done]. intros Hk.
      exists st. split; [constructor|done].
Qed.

Lemma rep_unbounded a h : forall lo st st',
  matches (RRep lo (Some h) a) st st' -> matches (RRep lo None a) st st'.
Proof.
  induction h as [|h IH]; intros lo st st' H; inversion H; subst.
  - constructor.
  - done.
  - constructor.
  - eapply M_rep_more; [done|eassumption|]. simpl in *. by apply IH.
Qed.

Theorem rmatch_sound r : forall k st res,
  rmatch r k st = Some res ->
  exists st', matches r st st' /\ k st' = Some res.
Proof.
  induction r as [|p|a IHa b IHb|a IHa b IHb|lo hi a IHa|a IHa| |];
    intros k st res; simpl.
  - intros H. exists st. split; [constructor|done].
  - destruct (m_rest st) as [|c t] eqn:E; [done|].
    destruct (p c) eqn:Hp; [|done]. intros H.
    exists (advance c t st). split; [by constructor|done].
  - intros H. apply IHa in H as [st1 [H1 H]]. apply IHb in H as [st2 [H2 H]].
    exists st2. split; [by econstructor|done].
  - destruct (rmatch a k st) as [r|] eqn:E.
    + intros [= ->]. apply IHa in E as [st1 [H1 E]].
      exists st1. split; [by apply M_alt_l|done].
    + intros H. apply IHb in H as [st1 [H1 H]].
      exists st1. split; [by apply M_alt_r|done].
  - intros H. apply (rep_sound a IHa) in H as [st1 [H1 H]].
    exists st1. split; [|done].
    destruct hi; [done|]. by eapply rep_unbounded.
  - intros H. apply IHa in H as [st1 [H1 H]].
    exists (set_grp st st1). split; [by constructor|done].
  - destruct (m_prev st) eqn:E; [|done]. intros H.
    exists st. split; [by constructor|done].
  - destruct (at_boundary st) eqn:E; [|done]. intros H.
    exists st. split; [by constructor|done].
Qed.

(** *** The matcher finds a match whenever there is one *)

Lemma matches_shorter r st st' :
  matches r st st' -> length (m_rest st') <= length (m_rest st).
Proof.
  intros H. destruct (matches_split _ _ _ H) as [w [-> _]].
  rewrite length_app. lia.
Qed.

Lemma matches_consumes r st st' :
  matches r st st' -> nullable r = false ->
  length (m_rest st') < length (m_rest st).
Proof.
  induction 1 as [st|p c t st Hr Hp|a b st1 st2 st3 Ha IHa Hb IHb
                 |a b st st' _ IH|a b st st' _ IH|hi a st
                 |lo hi a st1 st2 st3 Hhi Ha IHa Hb IHb
                 |a st st' Ha IH|st _|st _]; simpl; try done.
  - intros _. rewrite Hr. simpl. lia.
  - intros [Hn|Hn]%andb_false_iff.
    + specialize (IHa Hn). apply matches_shorter in Hb. lia.
    + specialize (IHb Hn). apply matches_shorter in Ha. lia.
  - intros [Hn _]%orb_false_iff. by apply IH.
  - intros [_ Hn]%orb_false_iff. by apply IH.
  - intros [_ Hn]%orb_false_iff.
    specialize (IHa Hn). apply matches_shorter in Hb. lia.
Qed.

Section RepComplete.
Variable a : regex.
Hypothesis IHa : forall st st' k,
  matches a st st' -> is_Some (k st') -> is_Some (rmatch a k st).

Lemma rep_stop_some lo fuel k st :
  lo = 0 -> is_Some (k st) -> is_Some (rep (rmatch a) lo fuel k st).
Proof.
  intros -> Hk. destruct fuel as [|f]; simpl; [done|].
  by destruct (rmatch a _ st).
Qed.

Lemma rep_more_some lo f k st st2 :
  matches a st st2 -> is_Some (rep (rmatch a) (Nat.pred lo) f k st2) ->
  is_Some (rep (rmatch a) lo (S f) k st).
Proof.
  intros Ha Hr. simpl.
  destruct (IHa _ _ _ Ha Hr) as [r ->]. by eexists.
Qed.

Lemma rep_complete_bounded k : forall h lo st st',
  matches (RRep lo (Some h) a) st st' -> is_Some (k st') ->
  is_Some (rep (rmatch a) lo h k st).
Proof.
  induction h as [|h IH]; intros lo st st' H Hk; inversion H; subst.
  - done.
  - done.
  - by apply rep_stop_some.
  - eapply rep_more_some; [eassumption|]. eapply IH; [|done].
    simpl in *. eassumption.
Qed.

Lemma rep_complete_unbounded k :
  nullable a = false ->
  forall fuel lo st st',
    matches (RRep lo None a) st st' -> lo + length (m_rest st) <= fuel ->
    is_Some (k st') -> is_Some (rep (rmatch a) lo fuel k st).
Proof.
  intros Hn. induction fuel as [|f IH]; intros lo st st' H Hf Hk;
    inversion H; subst.
  - done.
  - match goal with Hm : matches a _ _ |- _ =>
      apply matches_consumes in Hm; [lia|done] end.
  - by apply rep_stop_some.
  - eapply rep_more_some; [eassumption|]. eapply IH; [eassumption| |done].
    match goal with Hm : matches a _ _ |- _ =>
      apply matches_consumes in Hm; [lia|done] end.
Qed.

End RepComplete.

Theorem rmatch_complete r :
  progressing r = true ->
  forall st st' k,
    matches r st st' -> is_Some (k st') -> is_Some (rmatch r k st).
Proof.
  induction r as [|p|a IHa b IHb|a IHa b IHb|lo hi a IHa|a IHa| |];
    simpl; intros Hp st st' k H Hk; inversion H; subst; simpl.
  - done.
  - match goal with Hr : m_rest _ = _, Hc : p _ = true |- _ =>
      rewrite Hr, Hc end. done.
  - apply andb_true_iff in Hp as [Hpa Hpb].
    eapply IHa; [done|eassumption|]. eapply IHb; [done|eassumption|done].
  - apply andb_true_iff in Hp as [Hpa Hpb].
    destruct (IHa Hpa _ _ k ltac:(eassumption) Hk) as [r ->]. by eexists.
  - apply andb_true_iff in Hp as [Hpa Hpb].
    destruct (rmatch a k st); [by eexists|]. eapply IHb; eassumption.
  - apply rep_stop_some; done.
  - apply andb_true_iff in Hp as [Hpa Hb].
    destruct hi as [h|].
    + eapply rep_complete_bounded; [by apply IHa|eassumption|done].
    + apply negb_true_iff in Hb.
      eapply rep_complete_unbounded; [by apply IHa|done|eassumption|lia|done].
  - eapply IHa; [done|eassumption|done].
  - match goal with Hr : m_prev _ = [] |- _ => rewrite Hr end. done.
  - match goal with Hr : at_boundary _ = true |- _ => rewrite Hr end. done.
Qed.

(** *** Searching *)



(** *** The language of a pattern, construct by construct *)

Lemma lang_classes (q : ascii -> Prop) r :
  classes_within q r -> forall w, lang r w -> Forall q w.
Proof.
  induction r as [|p|a IHa b IHb|a IHa b IHb|lo hi a IHa|a IHa| |];
    simpl; intros Hc w Hw; subst; try done.
  - destruct Hw as [c [-> Hp]]. constructor; [by apply Hc|done].
  - destruct Hw as [u [v [-> [Hu Hv]]]]. destruct Hc as [Ha Hb].
    apply Forall_app. split; [by apply IHa|by apply IHb].
  - destruct Hc as [Ha Hb]. destruct Hw; [by apply IHa|by apply IHb].
  - destruct Hw as [ws [-> [Hall _]]].
    induction Hall as [|x l Hx _ IH]; simpl; [done|].
    apply Forall_app. split; [by apply IHa|done].
  - by apply IHa.
Qed.

Lemma lang_times_class p lo hi w :
  lang (times lo hi (RChar p)) w ->
  Forall (fun c => p c = true) w /\ lo <= length w <= hi.
Proof.
  intros [ws [-> [Hall [Hlo Hhi]]]]. specialize (Hhi hi eq_refl).
  assert (length (concat ws) = length ws /\
          Forall (fun c => p c = true) (concat ws)) as [E F].
  { clear Hlo Hhi. induction Hall as [|x l [c [-> Hc]] _ [IH1 IH2]]; simpl.
    - done.
    - split; [by rewrite IH1|by constructor]. }
  split; [done|lia].
Qed.

Lemma lang_opt a w : lang (opt a) w -> w = [] \/ lang a w.
Proof.
  intros [ws [-> [Hall [_ Hhi]]]]. specialize (Hhi 1 eq_refl).
  destruct Hall as [|x l Hx Hl]; [by left|].
  destruct l; [|simpl in Hhi; lia]. right. simpl. by rewrite app_nil_r.
Qed.

Lemma lang_chr c w : lang (chr c) w -> w = [c].
Proof. intros [x [-> Hx]]. apply Ascii.eqb_eq in Hx. by subst. Qed.

Lemma lang_chr_i c w :
  lang (chr_i c) w -> exists x, w = [x] /\ lower_char x = lower_char c.
Proof. intros [x [-> Hx]]. apply Ascii.eqb_eq in Hx. by exists x. Qed.

Lemma lang_lit_i (s : string) w :
  lang (lit_with chr_i s) w -> lower w = lower (lit s).
Proof.
  unfold lit_with. revert w. induction s as [|c s IH]; intros w; simpl.
  - by intros ->.
  - intros [u [v [-> [[x [-> Hx]]%lang_chr_i Hv]]]]. simpl.
    rewrite Hx. f_equal. by apply IH.
Qed.

Lemma lang_star_class p w :
  lang (star (RChar p)) w -> Forall (fun c => p c = true) w.
Proof.
  intros H. eapply (lang_classes (fun c => p c = true)); [|exact H].
  simpl. done.
Qed.

(** *** The matcher on literals and on white space *)

Lemma skip_0 st : skip 0 st = st.
Proof. by destruct st. Qed.

Lemma skip_S n c t st :
  m_rest st = c :: t -> skip (S n) st = skip n (advance c t st).
Proof.
  intros E. unfold skip, advance. rewrite E. simpl.
  by rewrite <- app_assoc.
Qed.

Lemma rmatch_lit_i (w : string) k : forall st,
  rmatch (lit_with chr_i w) k st =
  if startswith (lower (lit w)) (lower (m_rest st))
  then k (skip (length (lit w)) st) else None.
Proof.
  unfold lit_with. induction w as [|c w IH]; intros st; simpl.
  - by rewrite skip_0.
  - destruct (m_rest st) as [|x t] eqn:E; simpl; [done|].
    rewrite (Ascii.eqb_sym (lower_char c)).
    destruct (Ascii.eqb (lower_char x) (lower_char c)); simpl; [|done].
    rewrite IH. simpl. by rewrite (skip_S _ x t).
Qed.

(** [\s*] in front of the continuation [Some]: all the white space. *)
Lemma rep_spaces : forall fuel st,
  length (m_rest st) <= fuel ->
  exists prev',
    rep (rmatch (RChar isspace)) 0 fuel Some st =
    Some (MState prev' (lstrip_by isspace (m_rest st)) (m_grp st)) /\
    length (m_prev st) <= length prev'.
Proof.
  induction fuel as [|f IH]; intros [prev rest grp] Hf; simpl in *.
  - destruct rest; [|simpl in Hf; lia]. by exists prev.
  - destruct rest as [|c t]; simpl; [by exists prev|].
    destruct (isspace c) eqn:E; [|by exists prev].
    destruct (IH (advance c t (MState prev (c :: t) grp))) as [p' [-> Hl]];
      [simpl in *; lia|].
    exists p'. split; [done|]. simpl in Hl. lia.
Qed.

Lemma search_from_eq r prev rest :
  search_from r prev rest =
  match rmatch r Some (MState prev rest None) with
  | Some st' => Some (MState prev rest None, st')
  | None =>
      match rest with
      | [] => None
      | c :: t => search_from r (c :: prev) t
      end
  end.
Proof. by destruct rest. Qed.

Lemma rmatch_star_space k st :
  rmatch (star space) k st =
  rep (rmatch (RChar isspace)) 0 (0 + length (m_rest st)) k st.
Proof. done. Qed.

End ReFacts.

(** ** The patterns of the pipeline *)

Module PatternFacts.
Import Py Re Std Pipeline PyFacts ReFacts.

(** *** What a match of each pattern looks like *)

Lemma lang_thousands w :
  lang (chr "," ;; times 3 3 digit)%re w -> thousands w.
Proof.
  intros [u [v [-> [->%lang_chr [Hd Hl]%lang_times_class]]]].
  exists v. repeat split; [done|lia].
Qed.

Lemma lang_price_number g :
  lang (times 1 3 digit ;; star (chr "," ;; times 3 3 digit) ;;
        opt (chr "." ;; times 2 2 digit))%re g ->
  price_number g.
Proof.
  intros [lead [v [-> [[Hd Hl]%lang_times_class
            [gs [cents [-> [[groups [-> [Hg _]]] Hc%lang_opt]]]]]]]].
  exists lead, groups, cents. repeat split; [done|lia|lia| |].
  - eapply Forall_impl; [exact Hg|]. intros x Hx. by apply lang_thousands.
  - destruct Hc as [->|[u [w [-> [->%lang_chr [Hd2 Hl2]%lang_times_class]]]]];
      [by left|right].
    exists w. repeat split; [done|lia].
Qed.

Lemma price_match st st' :
  matches PRICE_RGX st st' ->
  exists ws g,
    m_rest st = "$"%char :: ws ++ g ++ m_rest st' /\
    length ws <= 1 /\ spaces ws /\ price_number g /\ m_grp st' = Some g.
Proof.
  unfold PRICE_RGX. intros H.
  inversion H as [| |? ? ? st1 ? H1 H2| | | | | | |]; subst.
  inversion H2 as [| |? ? ? st2 ? H3 H4| | | | | | |]; subst.
  inversion H4 as [| | | | | | |? ? st3 H5| |]; subst.
  exists (between st1 st2), (between st2 st3).
  destruct (matches_between _ _ _ H1) as [E1 _].
  destruct (matches_between _ _ _ H3) as [E2 _].
  destruct (matches_between _ _ _ H5) as [E3 _].
  apply matches_lang in H1, H3, H5.
  apply lang_chr in H1. rewrite H1 in E1.
  repeat split.
  - rewrite E1, E2, E3. simpl. done.
  - apply lang_opt in H3 as [->|[c [-> _]]]; simpl; lia.
  - apply lang_opt in H3 as [->|[c [-> Hc]]]; [constructor|].
    by repeat constructor.
  - by apply lang_price_number.
Qed.

Lemma lang_quantity_number g :
  lang (times 2 6 digit ;; opt (chr "," ;; times 3 3 digit))%re g ->
  quantity_number g.
Proof.
  intros [lead [grp [-> [[Hd Hl]%lang_times_class Hg%lang_opt]]]].
  exists lead, grp. repeat split; [done|lia|lia|].
  destruct Hg as [->|Hg]; [by left|right]. by apply lang_thousands.
Qed.

Lemma qty_match st st' :
  matches QTY_RGX st st' ->
  exists g ws u,
    m_rest st = g ++ ws ++ u ++ m_rest st' /\
    quantity_number g /\ spaces ws /\ unit_token u /\ m_grp st' = Some g.
Proof.
  unfold QTY_RGX. intros H.
  inversion H as [| |? ? ? st1' ? H1 H2| | | | | | |]; subst.
  inversion H1 as [| | | | | | |? ? st1 H3| |]; subst.
  inversion H2 as [| |? ? ? st2 ? H4 H5| | | | | | |]; subst.
  exists (between st st1), (between (set_grp st st1) st2), (between st2 st').
  destruct (matches_between _ _ _ H3) as [E1 _].
  destruct (matches_between _ _ _ H4) as [E2 _].
  destruct (matches_between _ _ _ H5) as [E3 _].
  assert (G : m_grp st' = Some (between st st1)).
  { rewrite (matches_nogroup _ _ _ H5 eq_refl).
    by rewrite (matches_nogroup _ _ _ H4 eq_refl). }
  apply matches_lang in H3, H4, H5.
  repeat split.
  - rewrite E1. simpl in E2. rewrite E2, E3. done.
  - by apply lang_quantity_number.
  - by apply lang_star_class.
  - unfold unit_token.
    destruct H5 as [H5|[H5|[H5|[a [b [-> [Ha Hb%lang_opt]]]]]]].
    + apply lang_lit_i in H5. rewrite H5. vm_compute. tauto.
    + apply lang_lit_i in H5. rewrite H5. vm_compute. tauto.
    + apply lang_lit_i in H5. rewrite H5. vm_compute. tauto.
    + apply lang_lit_i in Ha. rewrite lower_app, Ha.
      destruct Hb as [->|[x [-> Hx]]%lang_chr_i].
      * vm_compute. tauto.
      * simpl. rewrite Hx. vm_compute. tauto.
  - done.
Qed.


(** *** The captures need no stripping *)





(** *** [_m] on the three patterns *)






(** *** The subject pattern *)

Lemma rmatch_bol_fails k prev rest g r :
  prev <> [] -> rmatch (RBol ;; r)%re k (MState prev rest g) = None.
Proof. intros H. simpl. by destruct prev. Qed.

Lemma search_from_subj_none : forall rest prev,
  prev <> [] -> search_from SUBJ_CLEAN_RGX prev rest = None.
Proof.
  induction rest as [|c t IH]; intros prev Hp; unfold SUBJ_CLEAN_RGX;
    cbn [search_from]; rewrite rmatch_bol_fails by done; [done|].
  by apply IH.
Qed.

Lemma subj_at_start (s0 : str) :
  match find (fun m => startswith m (lower s0)) reply_markers with
  | Some m =>
      exists st',
        rmatch SUBJ_CLEAN_RGX Some (MState [] s0 None) = Some st' /\
        m_rest st' = lstrip_by isspace (drop (length m) s0) /\
        0 < length (m_prev st')
  | None => rmatch SUBJ_CLEAN_RGX Some (MState [] s0 None) = None
  end.
Proof.
  unfold SUBJ_CLEAN_RGX, alt3.
  cbn [rmatch m_prev]. rewrite !rmatch_lit_i. cbn [m_rest].
  unfold reply_markers. cbn [map find].
  change (lower (lit "re:")) with (lit "re:").
  change (lower (lit "fw:")) with (lit "fw:").
  change (lower (lit "fwd:")) with (lit "fwd:").
  assert (K : forall n, startswith (lit "re:") (lower s0) = true \/
                        startswith (lit "fw:") (lower s0) = true \/
                        startswith (lit "fwd:") (lower s0) = true ->
              (n = 3 \/ n = 4) ->
              exists st',
                rmatch (star space) Some
                  (set_grp (MState [] s0 None) (skip n (MState [] s0 None)))
                  = Some st' /\
                m_rest st' = lstrip_by isspace (drop n s0) /\
                0 < length (m_prev st')).
  { intros n Hs Hn. rewrite rmatch_star_space.
    destruct (rep_spaces (0 + length (m_rest (set_grp (MState [] s0 None) (skip n (MState [] s0 None)))))
                (set_grp (MState [] s0 None) (skip n (MState [] s0 None))))
      as [p' [-> Hl]]; [simpl; lia|].
    eexists. split; [done|]. split; [done|]. simpl in *.
    rewrite app_nil_r, length_rev, length_take in Hl.
    assert (3 <= length s0).
    { unfold lower in Hs. rewrite <- (length_map lower_char s0).
      destruct (map lower_char s0) as [|? [|? [|? ?]]]; simpl in *;
        try lia; destruct Hs as [?|[?|?]]; try done;
        repeat match goal with H : _ && _ = true |- _ =>
                 apply andb_true_iff in H as [? ?] end; done. }
    lia. }
  change (length (lit "re:")) with 3. change (length (lit "fw:")) with 3.
  change (length (lit "fwd:")) with 4.
  destruct (startswith (lit "re:") (lower s0)) eqn:E1.
  { destruct (K 3 ltac:(auto) ltac:(auto)) as [st' [E H]]. rewrite E. by exists st'. }
  destruct (startswith (lit "fw:") (lower s0)) eqn:E2.
  { destruct (K 3 ltac:(auto) ltac:(auto)) as [st' [E H]]. rewrite E. by exists st'. }
  destruct (startswith (lit "fwd:") (lower s0)) eqn:E3.
  { destruct (K 4 ltac:(auto) ltac:(auto)) as [st' [E H]]. rewrite E. by exists st'. }
  done.
Qed.

Lemma sub_empty_subj (s0 : str) :
  sub_empty SUBJ_CLEAN_RGX s0 =
  match find (fun m => startswith m (lower s0)) reply_markers with
  | Some m => lstrip_by isspace (drop (length m) s0)
  | None => s0
  end.
Proof.
  pose proof (subj_at_start s0) as H. unfold sub_empty.
  replace (2 * length s0 + 2) with (S (S (2 * length s0))) by lia.
  cbn [sub_empty_go search_next]. rewrite search_from_eq.
  destruct (find _ reply_markers) as [m|].
  - destruct H as [st' [-> [Hr Hp]]].
    assert (E0 : between (MState [] s0 None) (MState [] s0 None) = []) by done.
    rewrite E0. cbn [app fst snd].
    assert (E1 : (length (between (MState [] s0 None) st') =? 0) = false).
    { apply Nat.eqb_neq. unfold between. cbn [m_prev length].
      rewrite Nat.sub_0_r, take_ge, length_rev by lia. lia. }
    rewrite E1. cbn [search_next].
    rewrite search_from_subj_none; [done|].
    intros E. rewrite E in Hp. simpl in Hp. lia.
  - rewrite H. destruct s0 as [|c t]; [done|].
    by rewrite search_from_subj_none.
Qed.

Lemma clean_subj_spec (subject : str) :
  _clean_subj subject = spec_key subject.
Proof.
  unfold _clean_subj, spec_key, strip_marker. rewrite sub_empty_subj.
  destruct (find _ reply_markers); [|done].
  apply strip_casefold_lstrip.
Qed.

(** *** Keywords *)

Lemma contains_lower kw text :
  contains kw (lower text) = true <-> occurs_ci kw text.
Proof.
  rewrite contains_spec. unfold occurs_ci, lower. split.
  - intros (pre & post & H).
    apply List.map_eq_app in H as (pre' & r & -> & <- & H).
    apply List.map_eq_app in H as (mid' & post' & -> & <- & <-).
    by exists pre', mid', post'.
  - intros (pre & mid & post & -> & <-).
    exists (map lower_char pre), (map lower_char post).
    by rewrite !map_app.
Qed.

Lemma contains_lower_false kw text :
  contains kw (lower text) = false <-> ~ occurs_ci kw text.
Proof.
  rewrite <- contains_lower. by destruct (contains kw (lower text)).
Qed.

End PatternFacts.

(** ** The loop of [process] *)

Module RunFacts.
Import Py Re Std Pipeline PyFacts ReFacts PatternFacts.

(** *** The dictionary *)
Lemma dict_get_set_eq k v (lat : dict) : dict_get k (dict_set k v lat) = Some v.
Proof.
  induction lat as [|[k' v'] rest IH]; simpl.
  - by rewrite eqs_refl.
  - destruct (eqs k k') eqn:E; simpl; [by rewrite eqs_refl|].
    by rewrite E.
Qed.

Lemma dict_get_set_ne k k' v (lat : dict) :
  k' <> k -> dict_get k' (dict_set k v lat) = dict_get k' lat.
Proof.
  intros Hne. induction lat as [|[k2 v2] rest IH]; simpl.
  - apply eqs_false in Hne. by rewrite Hne.
  - destruct (eqs k k2) eqn:E; simpl.
    + apply eqs_true in E. subst k2. apply eqs_false in Hne. by rewrite !Hne.
    + destruct (eqs k' k2); [done|]. apply IH.
Qed.

Lemma dict_get_keys k (lat : dict) :
  is_Some (dict_get k lat) <-> k ∈ map fst lat.
Proof.
  induction lat as [|[k' v'] rest IH]; simpl.
  - split; [by intros [? ?]|by intros ?%elem_of_nil].
  - destruct (eqs k k') eqn:E.
    + apply eqs_true in E. subst. split; [intros; by left|by eexists].
    + apply eqs_false in E. rewrite IH. rewrite elem_of_cons. naive_solver.
Qed.

Lemma dict_get_None k (lat : dict) :
  dict_get k lat = None <-> k ∉ map fst lat.
Proof.
  rewrite <- dict_get_keys. destruct (dict_get k lat) eqn:E.
  - split; [done|]. intros H. exfalso. apply H. by eexists.
  - split; [|done]. by intros _ [? ?].
Qed.

Lemma dict_set_keys_present k v (lat : dict) :
  k ∈ map fst lat -> map fst (dict_set k v lat) = map fst lat.
Proof.
  induction lat as [|[k' v'] rest IH]; simpl.
  - by intros ?%elem_of_nil.
  - destruct (eqs k k') eqn:E; simpl.
    + apply eqs_true in E. by subst.
    + apply eqs_false in E. intros [?|?]%elem_of_cons; [done|].
      by rewrite IH.
Qed.

Lemma dict_set_keys_absent k v (lat : dict) :
  k ∉ map fst lat -> map fst (dict_set k v lat) = map fst lat ++ [k].
Proof.
  induction lat as [|[k' v'] rest IH]; simpl; [done|].
  intros [Hne Hr]%not_elem_of_cons.
  apply eqs_false in Hne. rewrite Hne. simpl. by rewrite IH.
Qed.

Lemma dict_get_In k v (lat : dict) :
  dict_get k lat = Some v -> (k, v) ∈ lat.
Proof.
  induction lat as [|[k' v'] rest IH]; simpl; [done|].
  destruct (eqs k k') eqn:E.
  - apply eqs_true in E. intros [= ->]. subst. by left.
  - intros H. right. by apply IH.
Qed.

(** *** The order of first appearance *)

Lemma first_seen_elem k ks : k ∈ first_seen ks <-> k ∈ ks.
Proof.
  induction ks as [|x rest IH]; simpl; [done|].
  rewrite !elem_of_cons, list_elem_of_filter, IH.
  destruct (decide (k = x)); naive_solver.
Qed.

Lemma first_seen_NoDup ks : NoDup (first_seen ks).
Proof.
  induction ks as [|x rest IH]; simpl; [constructor|].
  constructor.
  - rewrite list_elem_of_filter. naive_solver.
  - by apply NoDup_filter.
Qed.

Lemma first_seen_snoc ks k :
  first_seen (ks ++ [k]) =
  if bool_decide (k ∈ ks) then first_seen ks else first_seen ks ++ [k].
Proof.
  induction ks as [|x rest IH].
  - case_bool_decide as H; [by apply elem_of_nil in H|done].
  - cbn [app first_seen]. rewrite IH. destruct (decide (k = x)) as [->|Hne].
    + rewrite (bool_decide_eq_true_2 (x ∈ x :: rest)) by (by left).
      case_bool_decide; [done|].
      rewrite filter_app, filter_cons_False by naive_solver.
      by rewrite filter_nil, app_nil_r.
    + case_bool_decide as Hin.
      * rewrite bool_decide_eq_true_2; [done|by right].
      * rewrite bool_decide_eq_false_2.
        -- by rewrite filter_app, filter_cons_True, filter_nil.
        -- rewrite elem_of_cons. naive_solver.
Qed.

Section Run.
Context {L : StdLib}.

(** *** One file *)

Lemma save_parts_result parts : forall dir dir' saved,
  snd (save_parts parts dir saved) = snd (save_parts parts dir' saved).
Proof.
  induction parts as [|part rest IH]; intros dir dir' saved; simpl; [done|].
  destruct (eqs _ _); [|apply IH].
  destruct (get_payload_decoded part) as [[|b data]|]; try apply IH.
  destruct (write_bytes _); [apply IH|apply IH|done].
Qed.


Lemma make_offer_fields f body imgs o :
  make_offer f body imgs = Ok o ->
  title o = subject_of f /\ product_description o = body /\
  date_received o = date_of f /\ message_id o = _msg_id (parsed f) f /\
  category o = _cat (subject_of f) body /\
  primary_image o = hd [] imgs /\ more_images o = tl imgs /\
  _m PRICE_RGX body = Ok (price o) /\
  _m FOB_RGX body = Ok (fob_location o) /\
  _m QTY_RGX body = Ok (available_quantity o) /\
  status o = lit "Unreviewed".
Proof.
  unfold make_offer.
  destruct (_m PRICE_RGX body) as [p|]; [|done].
  destruct (_m FOB_RGX body) as [fo|]; [|done].
  destruct (_m QTY_RGX body) as [q|]; [|done].
  simpl. intros [= <-]. simpl. done.
Qed.

Lemma candidate_of_fields f dt o :
  candidate_of f = Ok (dt, o) ->
  stamp_of f = Ok dt /\ _as_dt (date_received o) = Ok dt /\
  offer_of f = Ok o /\
  product_description o = _body (parsed f) /\
  message_id o = _msg_id (parsed f) f.
Proof.
  unfold offer_of, candidate_of. intros H. rewrite H. simpl.
  destruct (stamp_of f) as [t|] eqn:Et; [|done]. simpl in H.
  destruct (snd (_save_imgs (parsed f) ∅)) as [imgs|]; [|done]. simpl in H.
  destruct (make_offer f (_body (parsed f)) imgs) as [o'|] eqn:Eo; [|done].
  simpl in H. injection H as <- <-.
  apply make_offer_fields in Eo as (_ & Hb & Hd & Hm & _).
  rewrite Hd. done.
Qed.

Lemma with_images_same st : with_images st (image_dir st) = st.
Proof. by destruct st. Qed.

(** The three ways the body of the loop ends. *)
Lemma process_file_cases st f :
  let mid := _msg_id (parsed f) f in
  (mid ∈ seen st /\ process_file st f = (st, SkippedAsSeen)) \/
  ((mid ∉ seen st) /\
   (candidate_of f = Raise \/
    (exists dt o, candidate_of f = Ok (dt, o) /\
                  resolve (key_of f) dt o (latest st) = Raise)) /\
   (exists dir, process_file st f = (with_images st dir, Failed))) \/
  ((mid ∉ seen st) /\
   (exists dt o lat dir,
      candidate_of f = Ok (dt, o) /\
      resolve (key_of f) dt o (latest st) = Ok lat /\
      process_file st f = (built_state st mid lat dir, CandidateBuilt))).
Proof.
  intros mid. unfold process_file. fold mid.
  case_bool_decide as Hs; [by left|right].
  unfold candidate_of, stamp_of.
  destruct (_as_dt (date_of f)) as [dt|] eqn:Ed; simpl.
  2:{ left. split; [done|]. split; [by left|].
      exists (image_dir st). by rewrite with_images_same. }
  unfold _save_imgs.
  rewrite (save_parts_result _ ∅ (image_dir st) []).
  destruct (save_parts (walk (parsed f)) (image_dir st) []) as [dir [imgs|]];
    simpl.
  2:{ left. split; [done|]. split; [by left|]. by exists dir. }
  destruct (make_offer f (_body (parsed f)) imgs) as [o|]; simpl.
  2:{ left. split; [done|]. split; [by left|]. by exists dir. }
  fold (key_of f).
  destruct (resolve (key_of f) dt o (latest st)) as [lat|] eqn:Er.
  - right. split; [done|]. by exists dt, o, lat, dir.
  - left. split; [done|]. split; [|by exists dir].
    right. by exists dt, o.
Qed.

(** *** The winner of a group *)

Lemma group_winner_snoc B k w tw f :
  group_winner B k w tw ->
  (key_of f <> k \/ exists dt, stamp_of f = Ok dt /\ (dt <= tw)%N) ->
  group_winner (B ++ [f]) k w tw.
Proof.
  intros (bw & aw & -> & Hk & Hs & Hb & Ha) Hf.
  exists bw, (aw ++ [f]). rewrite <- app_assoc. split; [done|].
  split; [done|]. split; [done|]. split; [done|].
  intros g tg [Hg|Hg%list_elem_of_singleton]%elem_of_app Hkg Hsg.
  - by eapply Ha.
  - subst g. destruct Hf as [Hf|(dt & Hdt & Hle)]; [done|].
    rewrite Hsg in Hdt. by injection Hdt as ->.
Qed.

Lemma group_winner_new B k f dt :
  key_of f = k -> stamp_of f = Ok dt ->
  (forall g tg, g ∈ B -> key_of g = k -> stamp_of g = Ok tg -> (tg < dt)%N) ->
  group_winner (B ++ [f]) k f dt.
Proof.
  intros Hk Hs Hb. exists B, []. repeat split; try done.
  intros g tg Hg. by apply elem_of_nil in Hg.
Qed.

Lemma group_winner_bounds B k w tw g tg :
  group_winner B k w tw -> g ∈ B -> key_of g = k -> stamp_of g = Ok tg ->
  (tg <= tw)%N.
Proof.
  intros (bw & aw & -> & Hk & Hs & Hb & Ha).
  intros [Hg|[->|Hg]%elem_of_cons]%elem_of_app Hkg Hsg.
  - specialize (Hb _ _ Hg Hkg Hsg). lia.
  - rewrite Hsg in Hs. injection Hs as ->. lia.
  - by eapply Ha.
Qed.

Lemma absorb_inv B lat f :
  has_candidate f -> latest_inv B lat -> latest_inv (B ++ [f]) (absorb lat f).
Proof.
  intros [[dt o] Hc] [Hkeys Hwin]. unfold latest_inv, absorb. rewrite Hc.
  destruct (candidate_of_fields _ _ _ Hc) as (Hs & Hd & Ho & _).
  unfold resolve. rewrite map_app. cbn [map]. rewrite first_seen_snoc.
  destruct (dict_get (key_of f) lat) as [prev|] eqn:Eg.
  - (* the group has an offer already *)
    destruct (Hwin _ _ Eg) as (w & tw & Hw & Hwo & Hwd).
    rewrite Hwd. cbn [rbind].
    assert (Hin : key_of f ∈ map fst lat).
    { apply dict_get_keys. by eexists. }
    assert (Hin' : key_of f ∈ map key_of B).
    { apply first_seen_elem. by rewrite <- Hkeys. }
    rewrite bool_decide_eq_true_2 by done.
    destruct (tw <? dt)%N eqn:Elt.
    + apply N.ltb_lt in Elt. split.
      * by rewrite dict_set_keys_present.
      * intros k o'. destruct (decide (k = key_of f)) as [->|Hne].
        -- rewrite dict_get_set_eq. intros [= <-].
           exists f, dt. split; [|done].
           apply group_winner_new; [done|done|].
           intros g tg Hg Hkg Hsg.
           pose proof (group_winner_bounds _ _ _ _ _ _ Hw Hg Hkg Hsg). lia.
        -- rewrite dict_get_set_ne by done. intros Hk.
           destruct (Hwin _ _ Hk) as (w' & tw' & Hw' & ?).
           exists w', tw'. split; [|done].
           apply group_winner_snoc; [done|]. left. congruence.
    + apply N.ltb_ge in Elt. split; [done|].
      intros k o' Hk. destruct (Hwin _ _ Hk) as (w' & tw' & Hw' & Hwo' & Hwd').
      exists w', tw'. split; [|done].
      apply group_winner_snoc; [done|].
      destruct (decide (key_of f = k)) as [<-|Hne]; [right|by left].
      exists dt. split; [done|].
      rewrite Eg in Hk. injection Hk as <-. rewrite Hwd in Hwd'.
      injection Hwd' as <-. done.
  - (* the first offer of its group *)
    cbn [rbind].
    assert (Hnin : key_of f ∉ map fst lat) by by apply dict_get_None.
    assert (Hnin' : key_of f ∉ map key_of B).
    { rewrite <- first_seen_elem. by rewrite <- Hkeys. }
    rewrite bool_decide_eq_false_2 by done. split.
    + by rewrite dict_set_keys_absent, Hkeys.
    + intros k o'. destruct (decide (k = key_of f)) as [->|Hne].
      * rewrite dict_get_set_eq. intros [= <-].
        exists f, dt. split; [|done].
        apply group_winner_new; [done|done|].
        intros g tg Hg Hkg _. exfalso. apply Hnin'.
        rewrite <- Hkg. apply list_elem_of_fmap. by exists g.
      * rewrite dict_get_set_ne by done. intros Hk.
        destruct (Hwin _ _ Hk) as (w' & tw' & Hw' & ?).
        exists w', tw'. split; [|done].
        apply group_winner_snoc; [done|]. left. congruence.
Qed.

Lemma fold_absorb_inv Bs : forall B lat,
  Forall has_candidate Bs -> latest_inv B lat ->
  latest_inv (B ++ Bs) (fold_left absorb Bs lat).
Proof.
  induction Bs as [|f Bs IH]; intros B lat Hall Hinv; simpl.
  - by rewrite app_nil_r.
  - inversion Hall as [|? ? Hf Hrest]; subst.
    replace (B ++ f :: Bs) with ((B ++ [f]) ++ Bs)
      by (by rewrite <- app_assoc).
    apply IH; [done|]. by apply absorb_inv.
Qed.

Lemma latest_inv_nil : latest_inv [] [].
Proof. split; [done|]. intros k o H. done. Qed.

(** The loop, seen from [latest]. *)
Lemma process_files_latest files : forall st st' os,
  process_files st files = (st', os) ->
  length os = length files /\
  Forall has_candidate (built files os) /\
  latest st' = fold_left absorb (built files os) (latest st).
Proof.
  induction files as [|f files IH]; intros st st' os; simpl.
  - intros [= <- <-]. done.
  - destruct (process_file st f) as [st1 o] eqn:E1.
    destruct (process_files st1 files) as [st2 os2] eqn:E2.
    intros [= <- <-]. destruct (IH _ _ _ E2) as (Hl & Hc & Hlat).
    simpl. split; [by rewrite Hl|].
    destruct (process_file_cases st f) as
      [[_ E]|[(_ & _ & dir & E)|(_ & dt & ob & lat & dir & Hcand & Hres & E)]];
      rewrite E in E1; injection E1 as <- <-; simpl.
    + done.
    + done.
    + split; [constructor; [by eexists|done]|].
      rewrite Hlat. cbn [built_state latest]. f_equal.
      unfold absorb. by rewrite Hcand, Hres.
Qed.

(** *** The ledger *)

Lemma resolve_ok k dt o lat :
  dates_ok lat -> _as_dt (date_received o) = Ok dt ->
  exists lat', resolve k dt o lat = Ok lat' /\ dates_ok lat'.
Proof.
  intros Hd Ho. unfold resolve.
  assert (Hset : dates_ok (dict_set k o lat)).
  { intros k' o'. destruct (decide (k' = k)) as [->|Hne].
    - rewrite dict_get_set_eq. intros [= <-]. by eexists.
    - rewrite dict_get_set_ne by done. apply Hd. }
  destruct (dict_get k lat) as [prev|] eqn:E.
  - destruct (Hd _ _ E) as [t ->]. simpl. eexists. split; [done|].
    by destruct (t <? dt)%N.
  - by eexists.
Qed.

(** What one turn of the loop does to the ledger. *)
Lemma process_file_ledger st f st' o :
  process_file st f = (st', o) ->
  dates_ok (latest st) -> ledger_ok st ->
  dates_ok (latest st') /\ ledger_ok st' /\ seen st ⊆ seen st' /\
  (o <> Failed -> mid_of f ∈ seen st') /\
  (o = Failed -> candidate_of f = Raise).
Proof.
  intros E Hd Hl.
  destruct (process_file_cases st f) as
    [[Hs E']|[(Hs & Hr & dir & E')|(Hs & dt & ob & lat & dir & Hc & Hres & E')]];
    rewrite E' in E; injection E as <- <-.
  - repeat split; try done.
  - repeat split; try done. intros _.
    destruct Hr as [Hr|(dt & ob & Hc & Hres)]; [done|].
    destruct (candidate_of_fields _ _ _ Hc) as (_ & Ho & _).
    destruct (resolve_ok (key_of f) dt ob (latest st) Hd Ho) as (? & Hx & _).
    congruence.
  - destruct (candidate_of_fields _ _ _ Hc) as (_ & Ho & _).
    destruct (resolve_ok (key_of f) dt ob (latest st) Hd Ho) as (l' & Hx & Hd').
    rewrite Hres in Hx. injection Hx as <-.
    repeat split; try done.
    + simpl. set_solver.
    + intros _. simpl. unfold mid_of. set_solver.
Qed.

Lemma process_files_ledger files : forall st st' os,
  process_files st files = (st', os) ->
  dates_ok (latest st) -> ledger_ok st ->
  ledger_ok st' /\ seen st ⊆ seen st' /\
  forall i f o, files !! i = Some f -> os !! i = Some o ->
    (o <> Failed -> mid_of f ∈ seen st') /\
    (o = Failed -> candidate_of f = Raise).
Proof.
  induction files as [|f files IH]; intros st st' os; simpl.
  - intros [= <- <-] _ Hl. repeat split; try done.
  - destruct (process_file st f) as [st1 o1] eqn:E1.
    destruct (process_files st1 files) as [st2 os2] eqn:E2.
    intros [= <- <-] Hd Hl.
    destruct (process_file_ledger _ _ _ _ E1 Hd Hl) as (Hd1 & Hl1 & Hs1 & Hin & Hf).
    destruct (IH _ _ _ E2 Hd1 Hl1) as (Hl2 & Hs2 & Hall).
    split; [done|]. split; [set_solver|].
    intros [|i] g o; simpl.
    + intros [= <-] [= <-]. split; [|done]. intros Ho. set_solver.
    + apply Hall.
Qed.

(** A run over files that are all seen or failing builds nothing. *)
Lemma process_files_idle files : forall st,
  latest st = [] ->
  (forall f, f ∈ files -> mid_of f ∈ seen st \/ candidate_of f = Raise) ->
  exists st' os,
    process_files st files = (st', os) /\
    latest st' = [] /\ seen st' = seen st /\ hash_file st' = hash_file st /\
    built files os = [] /\
    (forall i f, files !! i = Some f ->
       (mid_of f ∈ seen st -> os !! i = Some SkippedAsSeen) /\
       (mid_of f ∉ seen st -> os !! i = Some Failed)) /\
    ((forall f, f ∈ files -> mid_of f ∈ seen st) -> st' = st).
Proof.
  induction files as [|f files IH]; intros st Hlat Hall; simpl.
  - exists st, []. split_and!; try done.
  - destruct (process_file_cases st f) as
      [[Hs E]|[(Hs & Hr & dir & E)|(Hs & dt & ob & lat & dir & Hc & Hres & E)]].
    + rewrite E.
      destruct (IH st Hlat) as (st' & os & -> & H1 & H2 & H3 & H4 & H5 & H6).
      { intros g Hg. apply Hall. by right. }
      exists st', (SkippedAsSeen :: os). split_and!; try done.
      * intros [|i] g; simpl; [|apply H5]. by intros [= <-].
      * intros Hx. apply H6. intros g Hg. apply Hx. by right.
    + rewrite E.
      destruct (IH (with_images st dir)) as (st' & os & -> & H1 & H2 & H3 & H4 & H5 & H6).
      { done. }
      { intros g Hg. apply Hall. by right. }
      exists st', (Failed :: os). split_and!; try done.
      * intros [|i] g; simpl; [|apply H5]. by intros [= <-].
      * intros Hx. exfalso. apply Hs. apply Hx. by left.
    + exfalso. destruct (Hall f) as [?|Hx]; [by left|done|]. congruence.
Qed.

(** The seen set grows by the identities of the files that build a
    candidate, and a file that fails was not in it. *)
Lemma process_files_seen files : forall st st' os,
  process_files st files = (st', os) ->
  seen st' = seen st ∪ list_to_set (map mid_of (built files os)) /\
  forall i f, files !! i = Some f -> os !! i = Some Failed ->
    mid_of f ∉ seen st.
Proof.
  induction files as [|f files IH]; intros st st' os; simpl.
  - intros [= <- <-]. split; [set_solver|]. by intros i f.
  - destruct (process_file st f) as [st1 o1] eqn:E1.
    destruct (process_files st1 files) as [st2 os2] eqn:E2.
    intros [= <- <-]. destruct (IH _ _ _ E2) as [Hs Hf].
    destruct (process_file_cases st f) as
      [[Hin E]|[(Hin & _ & dir & E)|(Hin & dt & ob & lat & dir & _ & _ & E)]];
      rewrite E in E1; injection E1 as <- <-; simpl in *.
    + split; [done|]. intros [|i] g; simpl; [done|]. apply Hf.
    + split; [done|]. intros [|i] g; simpl.
      * by intros [= <-] _.
      * apply Hf.
    + split; [rewrite Hs; set_solver|]. intros [|i] g; simpl; [done|].
      intros Hi Ho. specialize (Hf _ _ Hi Ho). set_solver.
Qed.

(** The second of two runs over the same files. *)
Lemma second_run file dir files st1 os1 :
  process_files (start file dir) files = (st1, os1) ->
  let st0 := start (hash_file st1) (image_dir st1) in
  seen st0 = seen st1 /\
  (forall i f, files !! i = Some f -> exists o, os1 !! i = Some o) /\
  (forall i f o, files !! i = Some f -> os1 !! i = Some o ->
     (o <> Failed -> mid_of f ∈ seen st1) /\
     (o = Failed -> candidate_of f = Raise)) /\
  exists st2 os2,
    process_files st0 files = (st2, os2) /\
    latest st2 = [] /\ seen st2 = seen st0 /\
    hash_file st2 = hash_file st0 /\ built files os2 = [] /\
    (forall i f, files !! i = Some f ->
       (mid_of f ∈ seen st0 -> os2 !! i = Some SkippedAsSeen) /\
       (mid_of f ∉ seen st0 -> os2 !! i = Some Failed)) /\
    ((forall f, f ∈ files -> mid_of f ∈ seen st0) -> st2 = st0).
Proof.
  intros Hp1 st0.
  destruct (process_files_latest _ _ _ _ Hp1) as (Hlen1 & _ & _).
  destruct (process_files_ledger _ _ _ _ Hp1) as (Hl1 & _ & Hall1);
    [done|done|].
  assert (Hseen0 : seen st0 = seen st1) by (unfold st0; by rewrite Hl1).
  assert (Hsome : forall i f, files !! i = Some f -> exists o, os1 !! i = Some o).
  { intros i f Hi. apply lookup_lt_is_Some_2. rewrite Hlen1.
    by eapply lookup_lt_Some. }
  split_and!; [done|done|done|].
  apply process_files_idle; [done|].
  intros f [i Hi]%list_elem_of_lookup.
  destruct (Hsome _ _ Hi) as [o Ho].
  destruct (Hall1 _ _ _ Hi Ho) as [Hok Hfail].
  destruct o; [left|right; by apply Hfail|left]; rewrite Hseen0; by apply Hok.
Qed.

(** *** A whole run *)

Lemma run_unfold file dir files st os out :
  run file dir files = (st, os, out) ->
  process_files (start file dir) files = (st, os) /\
  out = match latest st with
        | [] => NoNewOffers
        | _ :: _ => Wrote (map snd (latest st))
        end.
Proof.
  unfold run, process.
  destruct (process_files (start file dir) files) as [st' os'].
  by intros [= <- <- <-].
Qed.

Lemma run_latest file dir files st os out :
  run file dir files = (st, os, out) ->
  latest_inv (built files os) (latest st).
Proof.
  intros [Hp _]%run_unfold.
  destruct (process_files_latest _ _ _ _ Hp) as (_ & Hc & ->).
  apply (fold_absorb_inv _ [] []); [done|apply latest_inv_nil].
Qed.

Lemma key_of_spec f : key_of f = spec_key (subject_of f).
Proof. apply clean_subj_spec. Qed.

Lemma dict_lookup_all (lat : dict) :
  NoDup (map fst lat) ->
  Forall2 (fun k o => dict_get k lat = Some o) (map fst lat) (map snd lat).
Proof.
  induction lat as [|[k v] rest IH]; simpl; [constructor|].
  intros [Hk Hn]%NoDup_cons. constructor; [by rewrite eqs_refl|].
  eapply Forall2_impl; [by apply IH|]. simpl. intros k' o' Hg.
  destruct (eqs k' k) eqn:E; [|done]. apply eqs_true in E. subst.
  exfalso. apply Hk. apply dict_get_keys. by eexists.
Qed.

(** *** Images and bodies *)

Lemma omap_cons_eq {A B} (f : A -> option B) x l :
  omap f (x :: l) = match f x with Some y => y :: omap f l | None => omap f l end.
Proof. done. Qed.

Lemma save_parts_names parts : forall dir saved,
  Forall (fun n => write_bytes n <> WriteError) (omap image_name parts) ->
  snd (save_parts parts dir saved) =
  Ok (saved ++ filter (fun n => write_bytes n = Written)
                (omap image_name parts)).
Proof.
  induction parts as [|part rest IH]; intros dir saved.
  - intros _. simpl. by rewrite app_nil_r.
  - cbn [save_parts]. rewrite omap_cons_eq. unfold image_name in *.
    destruct (eqs (get_content_maintype part) (lit "image")); [|apply IH].
    destruct (get_payload_decoded part) as [[|b data]|]; try apply IH.
    cbv beta iota. intros [Hw Hrest]%Forall_cons.
    destruct (write_bytes (img_filename part (b :: data))) eqn:E.
    + rewrite filter_cons_True by done. rewrite IH by done.
      by rewrite <- app_assoc.
    + rewrite filter_cons_False by congruence. by apply IH.
    + done.
Qed.




End Run.

End RunFacts.

(** ** Splitting, joining and the case of letters *)

Module TextFacts.
Import Py Re PyText PyFacts.

Lemma isspace_upper c : isspace (upper_char c) = isspace c.
Proof. by_cases_on_char c. Qed.

Lemma islower_upper c : islower (upper_char c) = false.
Proof. by_cases_on_char c. Qed.

Lemma isupper_lower c : isupper (lower_char c) = false.
Proof. by_cases_on_char c. Qed.

Lemma lower_upper_char c : lower_char (upper_char c) = lower_char c.
Proof. by_cases_on_char c. Qed.

Lemma lower_upper s : lower (upper s) = lower s.
Proof.
  unfold lower, upper. rewrite map_map. apply map_ext. intros c.
  apply lower_upper_char.
Qed.

Lemma upper_no_lower s : Forall (fun c => islower c = false) (upper s).
Proof. apply Forall_fmap, Forall_forall. intros c _. apply islower_upper. Qed.

Lemma split_go_app w : forall cur rest,
  Forall (fun c => isspace c = false) w ->
  split_go cur (w ++ rest) = split_go (rev w ++ cur) rest.
Proof.
  induction w as [|c w IH]; intros cur rest Hw; [done|].
  apply Forall_cons in Hw as [Hc Hw]. simpl. rewrite Hc, IH by done.
  by rewrite <- app_assoc.
Qed.

Lemma word_rev_cons c cur :
  Forall (fun x => isspace x = false) (c :: cur) -> word (rev (c :: cur)).
Proof.
  intros H. split.
  - simpl. by destruct (rev cur).
  - by apply List.Forall_rev.
Qed.

Lemma split_go_words s : forall cur,
  Forall (fun c => isspace c = false) cur -> Forall word (split_go cur s).
Proof.
  induction s as [|c s IH]; intros cur Hcur; simpl.
  - destruct cur as [|x cur]; [done|].
    constructor; [by apply word_rev_cons|done].
  - destruct (isspace c) eqn:E.
    + destruct cur as [|x cur]; [by apply IH|].
      constructor; [by apply word_rev_cons|by apply IH].
    + apply IH. by constructor.
Qed.

Lemma split_words s : Forall word (split s).
Proof. by apply split_go_words. Qed.

Lemma split_join ws : Forall word ws -> split (join (lit " ") ws) = ws.
Proof.
  induction ws as [|w ws IH]; [done|].
  intros [[Hne Hw] Hws]%Forall_cons. simpl.
  assert (Hrev : exists x l, rev w = x :: l).
  { destruct (rev w) as [|x l] eqn:E; [|by eauto].
    apply (f_equal (@rev _)) in E. rewrite rev_involutive in E. done. }
  destruct Hrev as (x & l & Hrev).
  destruct ws as [|w2 ws'].
  - unfold split. rewrite <- (app_nil_r w), split_go_app by done.
    rewrite app_nil_r, Hrev. cbn [split_go]. rewrite <- Hrev.
    by rewrite rev_involutive, app_nil_r.
  - unfold split. rewrite split_go_app by done.
    rewrite app_nil_r, Hrev. cbn [lit list_ascii_of_string app split_go].
    replace (isspace " ") with true by done.
    rewrite <- Hrev, rev_involutive. f_equal. by apply IH.
Qed.

Lemma join_cons sep w ws :
  join sep (w :: ws) =
  match ws with
  | [] => w
  | _ :: _ => w ++ sep ++ join sep ws
  end.
Proof. done. Qed.

Lemma spaced_fix s : spaced s -> join (lit " ") (split s) = s.
Proof. intros (ws & Hws & ->). by rewrite split_join. Qed.

Lemma spaced_join_split s : spaced (join (lit " ") (split s)).
Proof. exists (split s). split; [apply split_words|done]. Qed.

Lemma join_chars (q : ascii -> Prop) ws :
  q " "%char -> Forall (Forall q) ws -> Forall q (join (lit " ") ws).
Proof.
  intros Hsp. induction ws as [|w ws IH]; [done|].
  intros [Hw Hws]%Forall_cons. rewrite join_cons.
  destruct ws; [done|]. apply Forall_app. split; [done|].
  constructor; [done|]. by apply IH.
Qed.

(** A text of words and single spaces has no other white space. *)
Lemma spaced_chars s c : spaced s -> c ∈ s -> isspace c = true -> c = " "%char.
Proof.
  intros (ws & Hws & ->) Hin Hsp.
  assert (H : Forall (fun x => isspace x = true -> x = " "%char)
                (join (lit " ") ws)).
  { apply join_chars; [done|]. eapply Forall_impl; [exact Hws|].
    intros w [_ Hw]. eapply Forall_impl; [exact Hw|]. simpl. congruence. }
  rewrite Forall_forall in H. by apply H.
Qed.

Lemma capitalize_word w :
  word w -> word (capitalize w) /\ capitalized (capitalize w).
Proof.
  intros [Hne Hw]. destruct w as [|c t]; [done|].
  apply Forall_cons in Hw as [Hc Ht]. simpl. split_and!.
  - split; [done|]. constructor; [by rewrite isspace_upper|].
    apply Forall_fmap. eapply Forall_impl; [exact Ht|].
    intros x Hx. simpl. by rewrite isspace_lower.
  - apply islower_upper.
  - apply Forall_fmap, Forall_forall. intros x _. apply isupper_lower.
Qed.

Lemma replace_absent x new s :
  x ∉ s -> replace [x] new s = s.
Proof.
  unfold replace. induction s as [|c s IH]; [done|].
  intros [Hc Hs]%not_elem_of_cons. simpl.
  destruct (Ascii.eqb x c) eqn:E; [by apply Ascii.eqb_eq in E|].
  simpl. by rewrite IH.
Qed.

Lemma replace_char x y s :
  replace [x] [y] s = map (fun c => if Ascii.eqb x c then y else c) s.
Proof.
  unfold replace. induction s as [|c s IH]; [done|]. simpl.
  destruct (Ascii.eqb x c); simpl; by rewrite IH.
Qed.

(** *** Squeezing white space *)

Lemma squeezed_refl s : squeezed s s.
Proof. induction s; by constructor. Qed.

Lemma squeezed_app a s s' : squeezed s s' -> squeezed (a ++ s) (a ++ s').
Proof. induction a; [done|]. intros H. simpl. constructor. by apply IHa. Qed.

Lemma squeezed_elem s s' c :
  squeezed s s' -> c ∈ s' -> c ∈ s \/ c = " "%char.
Proof.
  induction 1 as [|x s s' _ IH|x s s' _ _ IH|x s s' _ _ IH].
  - by left.
  - intros [->|Hin]%elem_of_cons; [left; by left|].
    destruct (IH Hin); [left; by right|by right].
  - intros Hin. destruct (IH Hin); [left; by right|by right].
  - intros [->|Hin]%elem_of_cons; [by right|].
    destruct (IH Hin); [left; by right|by right].
Qed.

Lemma squeezed_lf_space s :
  squeezed s (replace [ascii_of_nat 10] (lit " ") s).
Proof.
  change (lit " ") with [" "%char]. rewrite replace_char.
  induction s as [|c s IH]; [constructor|]. cbn [map].
  destruct (Ascii.eqb (ascii_of_nat 10) c) eqn:E.
  - apply Ascii.eqb_eq in E as <-. by apply squeezed_space.
  - by apply squeezed_keep.
Qed.

Lemma squeezed_split_go s : forall cur,
  squeezed (rev cur ++ s) (join (lit " ") (split_go cur s)).
Proof.
  induction s as [|c s IH]; intros cur; simpl.
  - rewrite app_nil_r. destruct cur; [constructor|]. apply squeezed_refl.
  - destruct (isspace c) eqn:E.
    + destruct cur as [|x cur].
      * simpl. apply squeezed_drop; [done|]. apply (IH []).
      * rewrite join_cons. specialize (IH []). simpl in IH.
        destruct (split_go [] s) eqn:Es.
        -- rewrite <- (app_nil_r (rev (x :: cur))) at 2.
           apply squeezed_app. by apply squeezed_drop.
        -- apply squeezed_app. by apply squeezed_space.
    + specialize (IH (c :: cur)). simpl in IH.
      by rewrite <- app_assoc in IH.
Qed.

Lemma squeezed_split s : squeezed s (join (lit " ") (split s)).
Proof. apply (squeezed_split_go s []). Qed.

Lemma run_length_le q s : run_length q s <= length s.
Proof. induction s; simpl; [lia|]. destruct (q a); simpl; lia. Qed.

Lemma run_length_take q s :
  Forall (fun c => q c = true) (take (run_length q s) s).
Proof.
  induction s as [|c s IH]; simpl; [done|].
  destruct (q c) eqn:E; simpl; [by constructor|done].
Qed.

Lemma run_length_drop q s :
  head_is q (drop (run_length q s) s) = false.
Proof.
  induction s as [|c s IH]; simpl; [done|].
  destruct (q c) eqn:E; simpl; [done|by rewrite E].
Qed.

End TextFacts.

(** ** Searching and substituting *)

Module ScanFacts.
Import Py Re PyText ReMore PyFacts ReFacts TextFacts.

Lemma scan_eq p adv prev rest :
  scan p adv prev rest =
  match try_at p adv (MState prev rest None) with
  | Some st' => Some (MState prev rest None, st')
  | None =>
      match rest with
      | [] => None
      | c :: t => scan p false (c :: prev) t
      end
  end.
Proof. by destruct rest. Qed.

(** Where a match found by [scan] starts. *)
Lemma scan_start p : forall rest adv prev st st',
  scan p adv prev rest = Some (st, st') ->
  exists w adv',
    rest = w ++ m_rest st /\ st = MState (rev w ++ prev) (m_rest st) None /\
    try_at p adv' st = Some st'.
Proof.
  induction rest as [|c t IH]; intros adv prev st st'; rewrite scan_eq.
  - destruct (try_at p adv _) eqn:E; [|done].
    intros [= <- <-]. by exists [], adv.
  - destruct (try_at p adv _) eqn:E.
    + intros [= <- <-]. by exists [], adv.
    + intros (w & adv' & Hw & Hst & Ht)%IH.
      exists (c :: w), adv'. split; [by rewrite Hw at 1|].
      split; [|done]. rewrite Hst at 1. simpl. by rewrite <- app_assoc.
Qed.

Lemma try_at_matches p adv st st' :
  try_at p adv st = Some st' -> matches (p_body p) st st'.
Proof.
  unfold try_at. intros (st'' & Hm & Hk)%rmatch_sound.
  unfold accept in Hk.
  destruct (adv && _); [done|]. destruct (p_dollar p && _); [done|].
  by injection Hk as <-.
Qed.

Lemma between_same st : between st st = [].
Proof. unfold between. by rewrite Nat.sub_diag, take_0. Qed.

Lemma between_prefix prev rest w r :
  between (MState prev rest None) (MState (rev w ++ prev) r None) = w.
Proof. by apply between_split. Qed.

(** *** One step of [sub] *)

Lemma sub_go_skip p repl n adv prev c t :
  try_at p adv (MState prev (c :: t) None) = None ->
  sub_go p repl (S n) adv prev (c :: t) =
  c :: sub_go p repl (S n) false (c :: prev) t.
Proof.
  intros Hno. cbn [sub_go]. rewrite (scan_eq p adv), Hno.
  destruct (scan p false (c :: prev) t) as [[st st']|] eqn:E; [|done].
  destruct (scan_start _ _ _ _ _ _ E) as (w & adv' & Hw & Hst & _).
  assert (H1 : between (MState prev (c :: t) None) st = c :: w).
  { apply between_split. rewrite Hst. simpl. by rewrite <- app_assoc. }
  assert (H2 : between (MState (c :: prev) t None) st = w).
  { apply between_split. by rewrite Hst. }
  by rewrite H1, H2.
Qed.

Lemma sub_go_hit p repl n adv prev s st' :
  try_at p adv (MState prev s None) = Some st' ->
  sub_go p repl (S n) adv prev s =
  repl ++ sub_go p repl n
            (Nat.eqb (length (between (MState prev s None) st')) 0)
            (m_prev st') (m_rest st').
Proof.
  intros Hyes. cbn [sub_go]. rewrite (scan_eq p adv), Hyes.
  by rewrite between_same.
Qed.

Lemma sub_go_end p repl n adv prev :
  try_at p adv (MState prev [] None) = None ->
  sub_go p repl (S n) adv prev [] = [].
Proof. intros Hno. cbn [sub_go]. by rewrite (scan_eq p adv), Hno. Qed.

(** Where the pattern matches nowhere, [sub] changes nothing and
    [findall] finds nothing. *)
Lemma scan_nowhere p : forall rest prev,
  (forall a b, rest = a ++ b ->
     try_at p false (MState (rev a ++ prev) b None) = None) ->
  scan p false prev rest = None.
Proof.
  induction rest as [|c t IH]; intros prev Hno; rewrite scan_eq.
  - pose proof (Hno [] [] eq_refl) as H0. simpl in H0. by rewrite H0.
  - pose proof (Hno [] (c :: t) eq_refl) as H0. simpl in H0. rewrite H0.
    apply IH.
    intros a b ->. specialize (Hno (c :: a) b eq_refl). simpl in Hno.
    by rewrite <- app_assoc in Hno.
Qed.

Lemma sub_nowhere p repl txt :
  search_p p txt = None -> sub p repl txt = txt.
Proof.
  unfold sub, search_p. intros H.
  replace (2 * length txt + 2) with (S (2 * length txt + 1)) by lia.
  cbn [sub_go]. by rewrite H.
Qed.

Lemma findall_nowhere p txt :
  search_p p txt = None -> findall p txt = [].
Proof.
  unfold findall, search_p. intros H.
  replace (2 * length txt + 2) with (S (2 * length txt + 1)) by lia.
  cbn [findall_go]. by rewrite H.
Qed.

(** *** Greedy runs of a character class *)

Lemma m_rest_skip n st : m_rest (skip n st) = drop n (m_rest st).
Proof. done. Qed.

Lemma m_prev_skip n st :
  m_prev (skip n st) = rev (take n (m_rest st)) ++ m_prev st.
Proof. done. Qed.

Lemma rmatch_char q k st :
  rmatch (RChar q) k st =
  match m_rest st with
  | c :: t => if q c then k (advance c t st) else None
  | [] => None
  end.
Proof. done. Qed.

(** A class repeated greedily, before a continuation that fails wherever
    the class could go on: the longest run is taken, or nothing. *)
Lemma rep_class q k :
  (forall st, head_is q (m_rest st) = true -> k st = None) ->
  forall fuel lo st,
    run_length q (m_rest st) <= fuel ->
    rep (rmatch (RChar q)) lo fuel k st =
    if lo <=? run_length q (m_rest st)
    then k (skip (run_length q (m_rest st)) st)
    else None.
Proof.
  intros Hk. induction fuel as [|f IH]; intros lo st Hf.
  - assert (run_length q (m_rest st) = 0) as -> by lia.
    rewrite skip_0. simpl. by destruct lo.
  - cbn [rep]. rewrite rmatch_char.
    destruct (m_rest st) as [|c t] eqn:Er; cbn [run_length] in *.
    { rewrite skip_0. by destruct lo. }
    destruct (q c) eqn:Eq.
    + assert (Hf' : run_length q (m_rest (advance c t st)) <= f)
        by (simpl; lia).
      rewrite (IH (Nat.pred lo) _ Hf'). cbn [advance m_rest].
      rewrite (skip_S _ c t st Er).
      destruct lo as [|lo]; cbn [Nat.pred Nat.leb Nat.eqb].
      * destruct (k (skip _ _)) eqn:Ek; [done|].
        apply Hk. by rewrite Er.
      * destruct (lo <=? run_length q t) eqn:El; [|done].
        by destruct (k (skip _ _)).
    + rewrite skip_0. by destruct lo.
Qed.

Lemma rmatch_rep lo hi a k st :
  rmatch (RRep lo hi a) k st =
  rep (rmatch a) lo
    (match hi with Some h => h | None => lo + length (m_rest st) end) k st.
Proof. done. Qed.


Lemma rmatch_plus_class q k st :
  (forall st, head_is q (m_rest st) = true -> k st = None) ->
  rmatch (plus (RChar q)) k st =
  if 1 <=? run_length q (m_rest st)
  then k (skip (run_length q (m_rest st)) st)
  else None.
Proof.
  intros Hk. unfold plus. rewrite rmatch_rep. apply rep_class; [done|].
  pose proof (run_length_le q (m_rest st)). lia.
Qed.

Lemma rmatch_star_class q k st :
  (forall st, head_is q (m_rest st) = true -> k st = None) ->
  rmatch (star (RChar q)) k st = k (skip (run_length q (m_rest st)) st).
Proof.
  intros Hk. unfold star. rewrite rmatch_rep.
  rewrite rep_class; [done|done|].
  pose proof (run_length_le q (m_rest st)). lia.
Qed.

(** *** A pattern that is one character class *)

Lemma try_class q adv prev s :
  try_at (pat (RChar q)) adv (MState prev s None) =
  match s with
  | c :: t => if q c then Some (MState (c :: prev) t None) else None
  | [] => None
  end.
Proof.
  unfold try_at, pat. cbn [p_body]. rewrite rmatch_char. cbn [m_rest].
  destruct s as [|c t]; [done|]. destruct (q c); [|done].
  unfold accept. cbn [advance m_prev m_rest m_grp p_dollar length].
  rewrite (proj2 (Nat.eqb_neq _ _)) by lia. by rewrite andb_false_r.
Qed.

(** Removing the characters of a class is filtering. *)
Lemma sub_class q s : forall n prev,
  length s < n ->
  sub_go (pat (RChar q)) [] n false prev s = filter (fun c => q c = false) s.
Proof.
  induction s as [|c t IH]; intros [|n] prev Hn; simpl in Hn; try lia.
  - by rewrite sub_go_end by apply try_class.
  - destruct (q c) eqn:E.
    + erewrite sub_go_hit by (rewrite try_class, E; done).
      simpl. rewrite (between_prefix prev (c :: t) [c]). simpl.
      rewrite IH by lia. by rewrite filter_cons_False by congruence.
    + rewrite sub_go_skip by (by rewrite try_class, E).
      rewrite IH by (simpl; lia). by rewrite filter_cons_True.
Qed.

Lemma sub_class_filter q s :
  sub (pat (RChar q)) [] s = filter (fun c => q c = false) s.
Proof. apply sub_class. lia. Qed.

End ScanFacts.

(** ** The phrases of the three patterns *)

Module PhraseFacts.
Import Py Re Std Pipeline PyText ReMore Greedy.
Import PyFacts ReFacts PatternFacts TextFacts ScanFacts.

(** *** From a text of the language to a match *)

Lemma lang_matches r :
  anchor_free r = true ->
  forall w, lang r w ->
  forall prev post grp, exists grp',
    matches r (MState prev (w ++ post) grp) (MState (rev w ++ prev) post grp').
Proof.
  induction r as [|p|a IHa b IHb|a IHa b IHb|lo hi a IHa|a IHa| |];
    cbn [anchor_free lang]; intros Hf w Hw prev post grp; try done.
  - subst w. exists grp. apply M_eps.
  - destruct Hw as [c [-> Hc]]. exists grp.
    exact (M_char p c post (MState prev (c :: post) grp) eq_refl Hc).
  - apply andb_true_iff in Hf as [Hfa Hfb].
    destruct Hw as (u & v & -> & Hu & Hv).
    destruct (IHa Hfa u Hu prev (v ++ post) grp) as [g1 H1].
    destruct (IHb Hfb v Hv (rev u ++ prev) post g1) as [g2 H2].
    exists g2. rewrite <- app_assoc, rev_app_distr, <- app_assoc.
    eapply M_seq; [exact H1|exact H2].
  - apply andb_true_iff in Hf as [Hfa Hfb]. destruct Hw as [Hw|Hw].
    + destruct (IHa Hfa w Hw prev post grp) as [g H]. exists g.
      by apply M_alt_l.
    + destruct (IHb Hfb w Hw prev post grp) as [g H]. exists g.
      by apply M_alt_r.
  - destruct Hw as (ws & -> & Hws & Hlo & Hhi).
    revert lo hi prev grp Hlo Hhi.
    induction Hws as [|x ws Hx Hws IH]; intros lo hi prev grp Hlo Hhi.
    + simpl in *. assert (lo = 0) as -> by lia. exists grp. apply M_rep_stop.
    + simpl in Hlo.
      destruct (IHa Hf x Hx prev (concat ws ++ post) grp) as [g1 H1].
      destruct (IH (Nat.pred lo) (Nat.pred <$> hi) (rev x ++ prev) g1)
        as [g2 H2]; [lia| |].
      { intros h Eh. destruct hi as [h'|]; [|done]. injection Eh as <-.
        specialize (Hhi h' eq_refl). simpl in Hhi. lia. }
      exists g2. cbn [concat]. rewrite <- app_assoc, rev_app_distr, <- app_assoc.
      eapply M_rep_more; [|exact H1|exact H2].
      intros ->. specialize (Hhi 0 eq_refl). simpl in Hhi. lia.
  - destruct (IHa Hf w Hw prev post grp) as [g H].
    eexists. exact (M_group a _ _ H).
Qed.

(** *** The texts of the patterns *)

Lemma concat_singletons (w : str) : concat (map (fun c => [c]) w) = w.
Proof. induction w as [|c w IH]; [done|]. simpl. by f_equal. Qed.

Lemma lang_singletons p (w : str) :
  Forall (fun c => p c = true) w ->
  Forall (lang (RChar p)) (map (fun c => [c]) w).
Proof.
  induction 1 as [|c w Hc Hw IH]; constructor; [|done]. by exists c.
Qed.

Lemma lang_class_times p lo hi w :
  Forall (fun c => p c = true) w -> lo <= length w <= hi ->
  lang (times lo hi (RChar p)) w.
Proof.
  intros Hw Hl. exists (map (fun c => [c]) w).
  split; [by rewrite concat_singletons|].
  split; [by apply lang_singletons|].
  rewrite length_map. split; [lia|]. intros h [= <-]. lia.
Qed.

Lemma lang_class_star p w :
  Forall (fun c => p c = true) w -> lang (star (RChar p)) w.
Proof.
  intros Hw. exists (map (fun c => [c]) w).
  split; [by rewrite concat_singletons|].
  split; [by apply lang_singletons|].
  split; [lia|done].
Qed.

Lemma lang_opt_none a : lang (opt a) [].
Proof. exists []. split_and!; [done|done|done|]. intros h [= <-]. simpl. lia. Qed.

Lemma lang_opt_some a w : lang a w -> lang (opt a) w.
Proof.
  intros H. exists [w]. split_and!.
  - simpl. by rewrite app_nil_r.
  - by constructor.
  - simpl. lia.
  - intros h [= <-]. simpl. lia.
Qed.

Lemma lang_chr_intro c : lang (chr c) [c].
Proof. exists c. split; [done|]. apply Ascii.eqb_refl. Qed.

Lemma lang_lit_i_intro (s : string) w :
  lower w = lower (lit s) -> lang (lit_with chr_i s) w.
Proof.
  unfold lit_with. revert w. induction s as [|c s IH]; intros w; simpl.
  - by destruct w.
  - destruct w as [|x w]; [done|]. simpl. intros [= Hx Hw].
    exists [x], w. split_and!; [done| |by apply IH].
    exists x. split; [done|]. rewrite Hx. apply Ascii.eqb_refl.
Qed.

Lemma thousands_lang w :
  thousands w -> lang (chr "," ;; times 3 3 digit)%re w.
Proof.
  intros (ds & -> & Hd & Hl). exists [","%char], ds.
  split_and!; [done|apply lang_chr_intro|].
  apply lang_class_times; [done|lia].
Qed.

Lemma price_number_lang g :
  price_number g ->
  lang (times 1 3 digit ;; star (chr "," ;; times 3 3 digit) ;;
        opt (chr "." ;; times 2 2 digit))%re g.
Proof.
  intros (lead & groups & cents & -> & Hd & Hl & Hg & Hc).
  exists lead, (concat groups ++ cents).
  split_and!; [done|by apply lang_class_times|].
  exists (concat groups), cents. split_and!; [done| |].
  - exists groups. split_and!; [done| |lia|done].
    eapply Forall_impl; [exact Hg|]. intros x. apply thousands_lang.
  - destruct Hc as [->|(ds & -> & Hds & Hls)]; [apply lang_opt_none|].
    apply lang_opt_some. exists ["."%char], ds.
    split_and!; [done|apply lang_chr_intro|].
    apply lang_class_times; [done|lia].
Qed.

Lemma price_phrase_lang w : price_phrase w -> lang PRICE_RGX w.
Proof.
  intros (ws & g & -> & Hl & Hs & Hg). unfold PRICE_RGX.
  exists ["$"%char], (ws ++ g). split_and!; [done|apply lang_chr_intro|].
  exists ws, g. split_and!; [done| |by apply price_number_lang].
  destruct ws as [|c [|? ?]]; [apply lang_opt_none| |simpl in Hl; lia].
  apply lang_opt_some. exists c. split; [done|]. by inversion Hs.
Qed.

Lemma quantity_number_lang g :
  quantity_number g ->
  lang (times 2 6 digit ;; opt (chr "," ;; times 3 3 digit))%re g.
Proof.
  intros (lead & grp & -> & Hd & Hl & Hg).
  exists lead, grp. split_and!; [done|by apply lang_class_times|].
  destruct Hg as [->|Hg]; [apply lang_opt_none|].
  by apply lang_opt_some, thousands_lang.
Qed.

Lemma unit_token_lang u :
  unit_token u ->
  lang (RAlt (lit_with chr_i "sqft")
          (RAlt (lit_with chr_i "sf")
             (RAlt (lit_with chr_i "pcs")
                (lit_with chr_i "ctn" ;; opt (chr_i "s")))))%re u.
Proof.
  unfold unit_token. cbn [map In].
  intros [H|[H|[H|[H|[H|[]]]]]]; symmetry in H.
  - left. by apply lang_lit_i_intro.
  - right. left. by apply lang_lit_i_intro.
  - right. right. left. by apply lang_lit_i_intro.
  - right. right. right. exists u, []. split_and!.
    + by rewrite app_nil_r.
    + by apply lang_lit_i_intro.
    + apply lang_opt_none.
  - right. right. right.
    destruct u as [|c1 [|c2 [|c3 [|c4 [|? ?]]]]]; try done.
    injection H as H1 H2 H3 H4.
    exists [c1; c2; c3], [c4]. split_and!; [done| |].
    + apply lang_lit_i_intro. simpl. by rewrite H1, H2, H3.
    + apply lang_opt_some. exists c4. split; [done|].
      rewrite H4. apply Ascii.eqb_refl.
Qed.

Lemma quantity_phrase_lang w : quantity_phrase w -> lang QTY_RGX w.
Proof.
  intros (g & ws & u & -> & Hg & Hs & Hu). unfold QTY_RGX.
  exists g, (ws ++ u). split_and!; [done|by apply quantity_number_lang|].
  exists ws, u. split_and!; [done|by apply lang_class_star|].
  by apply unit_token_lang.
Qed.




(** *** Where a phrase stands, the pattern matches *)

Lemma begins_matches r (phrase : str -> Prop) txt j :
  anchor_free r = true -> (forall w, phrase w -> lang r w) ->
  begins_at phrase txt j -> exists st', matches r (at_pos txt j) st'.
Proof.
  intros Hf Hl (w & post & Hj & E & Hw). unfold at_pos. rewrite E.
  destruct (lang_matches r Hf w (Hl w Hw) (rev (take j txt)) post None)
    as [g H].
  by eexists.
Qed.

Lemma at_pos_rest txt j : m_rest (at_pos txt j) = drop j txt.
Proof. done. Qed.

Lemma price_begins txt j :
  (exists st', matches PRICE_RGX (at_pos txt j) st') <->
  begins_at price_phrase txt j.
Proof.
  split.
  - intros [st' H]. destruct (price_match _ _ H) as (ws & g & E & Hl & Hs & Hg & _).
    rewrite at_pos_rest in E.
    exists ("$"%char :: ws ++ g), (m_rest st'). split_and!.
    + destruct (decide (j <= length txt)) as [|Hn]; [done|].
      rewrite drop_ge in E by lia. done.
    + rewrite E. simpl. by rewrite <- app_assoc.
    + by exists ws, g.
  - by apply begins_matches; [|apply price_phrase_lang].
Qed.

Lemma quantity_begins txt j :
  (exists st', matches QTY_RGX (at_pos txt j) st') <->
  begins_at quantity_phrase txt j.
Proof.
  split.
  - intros [st' H]. destruct (qty_match _ _ H) as (g & ws & u & E & Hg & Hs & Hu & _).
    rewrite at_pos_rest in E.
    exists (g ++ ws ++ u), (m_rest st'). split_and!.
    + destruct (decide (j <= length txt)) as [|Hn]; [done|].
      rewrite drop_ge in E by lia.
      destruct Hg as (lead & grp & -> & _ & Hl & _).
      destruct lead; [simpl in Hl; lia|done].
    + rewrite E. by rewrite <- !app_assoc.
    + by exists g, ws, u.
  - by apply begins_matches; [|apply quantity_phrase_lang].
Qed.





(** *** What the greedy repetition of a class takes *)










(** *** The price number the matcher takes *)









(** *** The leftmost match and what it captures *)








(** *** The quantity at a position is unique *)







(** *** The FOB location the matcher takes *)














End PhraseFacts.

(** ** Reading a dimension *)

Module DimensionFacts.
Import Py Re Std Pipeline ImageFilter PyFacts.











End DimensionFacts.

(** ** The claims of the specification *)

Module Spec.
Import Py Re Std Pipeline ImageFilter Sample.
Import PyFacts ReFacts PatternFacts RunFacts PhraseFacts DimensionFacts.

Section Claims.
Context {L : StdLib}.

(** C1.  Among the files of one run for which a candidate is built, two
    files whose subjects are equal once a single leading [re:], [fw:] or
    [fwd:] is removed, the case folded and the white space trimmed have
    the same entry of [latest]; [latest] has one entry per key and the
    output is its list of values.  The entry of a group is the offer of
    the file that is strictly later than every file of the group scanned
    before it and that no file of the group scanned after it is later
    than: a strictly later candidate replaces the retained offer, on
    equal timestamps the first one stays.  A date that does not parse, or
    a missing date header for which the empty string does not parse,
    gives [datetime.min], and the file loses to every file of its group
    whose date lies after [datetime.min]. *)
Theorem dedup_keeps_latest_per_subject file dir files st os out :
  run file dir files = (st, os, out) ->
  let B := built files os in
  (forall f, key_of f = spec_key (subject_of f)) /\
  NoDup (map fst (latest st)) /\
  (forall f g, f ∈ B -> g ∈ B ->
     spec_key (subject_of f) = spec_key (subject_of g) ->
     exists w tw o,
       dict_get (key_of f) (latest st) = Some o /\
       dict_get (key_of g) (latest st) = Some o /\
       group_winner B (key_of f) w tw /\ offer_of w = Ok o) /\
  (forall k o, dict_get k (latest st) = Some o ->
     exists f, f ∈ B /\ key_of f = k) /\
  match out with
  | Wrote offers => offers = map snd (latest st)
  | NoNewOffers => B = []
  end /\
  (forall f, parsedate_utc (date_of f) = DtInvalid \/
             (h_date (headers (parsed f)) = None /\
              parsedate_utc [] = DtInvalid) ->
     stamp_of f = Ok dt_min) /\
  (forall f g t, f ∈ B -> g ∈ B -> key_of f = key_of g ->
     stamp_of f = Ok dt_min -> stamp_of g = Ok t -> (dt_min < t)%N ->
     exists o tw,
       dict_get (key_of f) (latest st) = Some o /\
       _as_dt (date_received o) = Ok tw /\ (t <= tw)%N /\
       offer_of f <> Ok o).
Proof.
  intros Hrun B. pose proof (run_latest _ _ _ _ _ _ Hrun) as [Hkeys Hwin].
  fold B in Hkeys, Hwin.
  assert (Hget : forall f, f ∈ B ->
            exists w tw o, dict_get (key_of f) (latest st) = Some o /\
              group_winner B (key_of f) w tw /\ offer_of w = Ok o /\
              _as_dt (date_received o) = Ok tw).
  { intros f Hf.
    assert (Hin : key_of f ∈ map fst (latest st)).
    { rewrite Hkeys, first_seen_elem. apply list_elem_of_fmap. by exists f. }
    apply dict_get_keys in Hin as [o Ho].
    destruct (Hwin _ _ Ho) as (w & tw & Hw & Hwo & Hwd).
    by exists w, tw, o. }
  split_and!.
  - apply key_of_spec.
  - rewrite Hkeys. apply first_seen_NoDup.
  - intros f g Hf Hg Hk. rewrite <- !key_of_spec in Hk.
    destruct (Hget f Hf) as (w & tw & o & Ho & Hw & Hwo & _).
    exists w, tw, o. by rewrite <- Hk.
  - intros k o Ho.
    assert (Hin : k ∈ map fst (latest st)) by (apply dict_get_keys; by eexists).
    rewrite Hkeys, first_seen_elem in Hin.
    apply list_elem_of_fmap in Hin as (f & -> & Hf). by exists f.
  - apply run_unfold in Hrun as [_ ->].
    destruct (latest st) as [|[k o] rest] eqn:E; [|done].
    destruct B as [|f B']; [done|]. simpl in Hkeys. done.
  - intros f [Hp|[Hh Hp]]; unfold stamp_of, _as_dt.
    + by rewrite Hp.
    + unfold date_of. rewrite Hh. simpl. by rewrite Hp.
  - intros f g t Hf Hg Hk Hsf Hsg Hlt.
    destruct (Hget f Hf) as (w & tw & o & Ho & Hw & Hwo & Hwd).
    exists o, tw. split_and!; try done.
    + rewrite Hk in Hw. by eapply group_winner_bounds.
    + intros Hfo. unfold offer_of in Hfo.
      destruct (candidate_of f) as [[dt' o']|] eqn:Ec; [|done].
      simpl in Hfo. injection Hfo as ->.
      destruct (candidate_of_fields _ _ _ Ec) as (Hs' & Hd' & _).
      rewrite Hk in Hw.
      pose proof (group_winner_bounds _ _ _ _ _ _ Hw Hg eq_refl Hsg).
      rewrite Hsf in Hs'. injection Hs' as <-.
      rewrite Hwd in Hd'. injection Hd' as ->. lia.
Qed.

(** C2, as amended.  On a second run over the same files, started from
    the ledger file and the image folder the first run left, no candidate
    is built, [latest] stays empty, nothing is written and the run ends
    with "no new offers"; the ledger file is not touched.  Every file
    that did not fail in the first run has its identity in the ledger and
    is skipped, and skipping leaves the whole state as it is.  A file
    that failed in the first run fails again or is skipped; it fails
    again, its identity not being in the ledger, unless a file with the
    same identity built a candidate in the first run.  When no file
    failed in the first run the second run changes nothing at all. *)
Theorem rerun_builds_nothing file dir files st1 os1 out1 st2 os2 out2 :
  run file dir files = (st1, os1, out1) ->
  run (hash_file st1) (image_dir st1) files = (st2, os2, out2) ->
  out2 = NoNewOffers /\ built files os2 = [] /\ latest st2 = [] /\
  hash_file st2 = hash_file st1 /\
  (forall i f, files !! i = Some f ->
     (os1 !! i <> Some Failed ->
      mid_of f ∈ _load_hashes (hash_file st1) /\
      os2 !! i = Some SkippedAsSeen) /\
     (os1 !! i = Some Failed ->
      candidate_of f = Raise /\
      (os2 !! i = Some Failed \/ os2 !! i = Some SkippedAsSeen) /\
      ((forall g, g ∈ built files os1 -> mid_of g <> mid_of f) ->
       (mid_of f ∉ _load_hashes (hash_file st1)) /\
       os2 !! i = Some Failed))) /\
  (Forall (fun o => o <> Failed) os1 ->
   st2 = start (hash_file st1) (image_dir st1)) /\
  (forall st f, mid_of f ∈ seen st -> process_file st f = (st, SkippedAsSeen)).
Proof.
  intros [Hp1 _]%run_unfold [Hp2 ->]%run_unfold.
  destruct (second_run _ _ _ _ _ Hp1)
    as (Hseen0 & Hsome & Hall1 & st' & os' & Hp' & H1 & H2 & H3 & H4 & H5 & H6).
  destruct (process_files_seen _ _ _ _ Hp1) as [Hgrow Hnot].
  rewrite Hp' in Hp2. injection Hp2 as <- <-.
  assert (Hl : _load_hashes (hash_file st1) = seen st1) by (by rewrite <- Hseen0).
  split_and!; try done.
  - by rewrite H1.
  - intros i f Hi. destruct (Hsome _ _ Hi) as [o Ho].
    destruct (Hall1 _ _ _ Hi Ho) as [Hok Hfail]. rewrite Ho.
    destruct (H5 _ _ Hi) as [Hskip Hf]. split.
    + intros Hne. assert (Hin : mid_of f ∈ seen st1).
      { apply Hok. congruence. }
      split; [by rewrite Hl|]. apply Hskip. by rewrite Hseen0.
    + intros [= ->]. split_and!.
      * by apply Hfail.
      * destruct (decide (mid_of f ∈ seen (start (hash_file st1) (image_dir st1))));
          [right|left]; auto.
      * intros Hother. assert (Hout : mid_of f ∉ seen st1).
        { rewrite Hgrow. specialize (Hnot _ _ Hi Ho).
          intros [Hin|Hin]%elem_of_union; [done|].
          apply elem_of_list_to_set, list_elem_of_fmap in Hin as (g & Hg & Hgb).
          by apply (Hother g). }
        split; [by rewrite Hl|]. apply Hf. by rewrite Hseen0.
  - intros Hnf. apply H6. intros f [i Hi]%list_elem_of_lookup.
    destruct (Hsome _ _ Hi) as [o Ho].
    destruct (Hall1 _ _ _ Hi Ho) as [Hok _]. rewrite Hseen0. apply Hok.
    eapply Forall_lookup_1 in Hnf; [|exact Ho]. done.
  - intros st f Hs. destruct (process_file_cases st f) as
      [[_ E]|[(Hs' & _)|(Hs' & _)]]; done.
Qed.

(** C3, as amended.  The identity of a message is its [Message-ID] header
    when the header is there and not empty; when the header is absent or
    empty it is ["<"], the MD5 digest of the bytes of the file in
    hexadecimal, and [">"], so that two such messages read from equal
    bytes have equal identities. *)
Theorem identity_from_header_or_bytes (msg : Message) (f : EmlFile) :
  (forall id, h_message_id (headers msg) = Some id -> id <> [] ->
     _msg_id msg f = id) /\
  (h_message_id (headers msg) = None \/ h_message_id (headers msg) = Some [] ->
     _msg_id msg f = lit "<" ++ md5_hexdigest (raw f) ++ lit ">") /\
  (forall msg' f',
     (h_message_id (headers msg) = None \/
      h_message_id (headers msg) = Some []) ->
     (h_message_id (headers msg') = None \/
      h_message_id (headers msg') = Some []) ->
     raw f = raw f' -> _msg_id msg f = _msg_id msg' f').
Proof.
  assert (Hfb : forall m g,
            h_message_id (headers m) = None \/
            h_message_id (headers m) = Some [] ->
            _msg_id m g = lit "<" ++ md5_hexdigest (raw g) ++ lit ">").
  { intros m g [H|H]; unfold _msg_id; by rewrite H. }
  split_and!.
  - intros id H Hne. unfold _msg_id. rewrite H.
    by destruct id.
  - apply Hfb.
  - intros msg' f' H H' Hraw. rewrite !Hfb by done. by rewrite Hraw.
Qed.


(** C8.  The offers written at the end of a run are the values of
    [latest], one for each key, and the keys stand in the order in which
    they first appear among the files for which a candidate was built;
    assigning to a key that is present leaves the order of the keys as it
    is.  Nothing is written exactly when no candidate was built. *)
Theorem output_follows_first_appearance file dir files st os out :
  run file dir files = (st, os, out) ->
  let keys := first_seen (map key_of (built files os)) in
  map fst (latest st) = keys /\ NoDup keys /\
  (forall k v (lat : dict),
     k ∈ map fst lat -> map fst (dict_set k v lat) = map fst lat) /\
  match out with
  | NoNewOffers => built files os = []
  | Wrote offers =>
      built files os <> [] /\
      length offers = length keys /\
      Forall2 (fun k o => dict_get k (latest st) = Some o) keys offers
  end.
Proof.
  intros Hrun keys. pose proof (run_latest _ _ _ _ _ _ Hrun) as [Hkeys Hwin].
  fold keys in Hkeys.
  split_and!; [done|apply first_seen_NoDup|apply dict_set_keys_present|].
  apply run_unfold in Hrun as [_ ->].
  destruct (latest st) as [|[k o] rest] eqn:E.
  - unfold keys in *. destruct (built files os); [done|]. simpl in Hkeys. done.
  - split_and!.
    + intros Hb. unfold keys in Hkeys. rewrite Hb in Hkeys. done.
    + rewrite length_map, <- Hkeys, length_map. done.
    + rewrite <- Hkeys. apply dict_lookup_all. rewrite Hkeys.
      apply first_seen_NoDup.
Qed.

(** C9, as amended.  The name under which an image part is saved is its
    [Content-ID] without the angle brackets at its ends, when that is not
    empty, followed by the extension; otherwise it is [img_], the MD5
    digest of the decoded bytes in hexadecimal and the extension.  The
    extension is the one the MIME type table gives for the content type,
    [.bin] when it gives none.  The name depends on the [Content-ID], the
    bytes and the content type only.  [_save_imgs] returns the names of
    the image parts with a payload that is not empty, in the order of the
    parts, as far as they could be written; the other parts are passed
    over. *)
Theorem image_name_from_cid_or_bytes (part : Message) (data : list byte) :
  let cid := strip_chars (lit "<>") (default [] (h_content_id (headers part))) in
  (cid <> [] -> img_filename part data = cid ++ img_ext part) /\
  (cid = [] ->
   img_filename part data = lit "img_" ++ md5_hexdigest data ++ img_ext part) /\
  (guess_extension (get_content_type part) = None ->
   img_ext part = lit ".bin") /\
  (forall e, guess_extension (get_content_type part) = Some e -> e <> [] ->
   img_ext part = e) /\
  (forall part',
     h_content_id (headers part') = h_content_id (headers part) ->
     get_content_type part' = get_content_type part ->
     img_filename part' data = img_filename part data) /\
  (forall msg dir,
     Forall (fun n => write_bytes n <> WriteError)
       (omap image_name (walk msg)) ->
     snd (_save_imgs msg dir) =
     Ok (filter (fun n => write_bytes n = Written)
           (omap image_name (walk msg)))) /\
  (image_name part <> None <->
   get_content_maintype part = lit "image" /\
   exists b d, get_payload_decoded part = Some (b :: d)).
Proof.
  intros cid. unfold img_filename. fold cid. split_and!.
  - intros H. by destruct cid.
  - by intros ->.
  - unfold img_ext. by intros ->.
  - unfold img_ext. intros e -> He. by destruct e.
  - intros part' Hc Ht. unfold img_ext. by rewrite Hc, Ht.
  - intros msg dir H. unfold _save_imgs. by rewrite save_parts_names.
  - unfold image_name. destruct (eqs _ _) eqn:E.
    + apply eqs_true in E.
      destruct (get_payload_decoded part) as [[|b d]|]; split; try done.
      * by intros [_ (? & ? & ?)].
      * intros _. split; [done|]. by exists b, d.
      * by intros [_ (? & ? & ?)].
    + apply eqs_false in E. split; [done|]. by intros [? _].
Qed.

(** C10.  A file that is not in the seen set and for which one of the
    steps before the update of [latest] raises ends as [Failed].  When
    the body of the loop ends as [Failed], [latest], the seen set, the
    ledger file and the count of offers are what they were, the identity
    of the file is not in the seen set, and the loop goes on with the
    next file.  Unless another file of the run with the same identity
    builds a candidate, the identity is in neither the seen set nor the
    ledger file at the end of the run, and the next run over the same
    files does not skip the file. *)
Theorem failed_message_changes_nothing st f :
  (mid_of f ∉ seen st -> candidate_of f = Raise ->
   snd (process_file st f) = Failed) /\
  (forall st', process_file st f = (st', Failed) ->
     latest st' = latest st /\ seen st' = seen st /\
     hash_file st' = hash_file st /\
     new_offers_count st' = new_offers_count st /\
     (mid_of f ∉ seen st') /\
     (forall files,
        process_files st (f :: files) =
        let '(st'', os) := process_files st' files in (st'', Failed :: os))) /\
  (forall file dir files st1 os1 out1 st2 os2 out2 i,
     run file dir files = (st1, os1, out1) ->
     run (hash_file st1) (image_dir st1) files = (st2, os2, out2) ->
     files !! i = Some f -> os1 !! i = Some Failed ->
     (forall g, g ∈ built files os1 -> mid_of g <> mid_of f) ->
     (mid_of f ∉ seen st1) /\ (mid_of f ∉ _load_hashes (hash_file st1)) /\
     os2 !! i <> Some SkippedAsSeen).
Proof.
  split_and!.
  - intros Hs Hc.
    destruct (process_file_cases st f) as
      [[Hs' E]|[(_ & _ & dir & E)|(_ & dt & ob & lat & dir & Hc' & _)]].
    + done.
    + by rewrite E.
    + congruence.
  - intros st' E.
    destruct (process_file_cases st f) as
      [[Hs E']|[(Hs & Hr & dir & E')|(Hs & dt & ob & lat & dir & Hc & Hres & E')]];
      rewrite E' in E; try done.
    injection E as <-. split_and!; try done.
    intros files. simpl. by rewrite E'.
  - intros file dir files st1 os1 out1 st2 os2 out2 i
      [Hp1 _]%run_unfold [Hp2 _]%run_unfold Hi Ho Hother.
    destruct (second_run _ _ _ _ _ Hp1)
      as (Hseen0 & _ & _ & st' & os' & Hp' & _ & _ & _ & _ & H5 & _).
    destruct (process_files_seen _ _ _ _ Hp1) as [Hgrow Hnot].
    rewrite Hp' in Hp2. injection Hp2 as <- <-.
    assert (Hout : mid_of f ∉ seen st1).
    { rewrite Hgrow. specialize (Hnot _ _ Hi Ho).
      intros [Hin|Hin]%elem_of_union; [done|].
      apply elem_of_list_to_set, list_elem_of_fmap in Hin as (g & Hg & Hgb).
      by apply (Hother g). }
    assert (Hl : _load_hashes (hash_file st1) = seen st1)
      by (by rewrite <- Hseen0).
    split_and!; [done|by rewrite Hl|].
    destruct (H5 _ _ Hi) as [_ Hf]. rewrite Hf; [done|]. by rewrite Hseen0.
Qed.

End Claims.



(** C7.  The category of a message follows the rules of the
    specification on the subject, a space and the body: the keywords are
    looked for in any case, in the order SPC, LVT, Laminate, Tile, Solid
    together with Hardwood, and the first rule whose keywords occur gives
    the category, [Other] when none does.  A text in which both [spc] and
    [tile] occur is [SPC Flooring]. *)
Theorem category_by_priority (sub body : str) :
  category_rule (sub ++ lit " " ++ body) (_cat sub body) /\
  (occurs_ci (lit "spc") (sub ++ lit " " ++ body) ->
   occurs_ci (lit "tile") (sub ++ lit " " ++ body) ->
   _cat sub body = lit "SPC Flooring") /\
  _cat (lit "Porcelain Tile and SPC planks") (lit "in stock")
    = lit "SPC Flooring".
Proof.
  unfold _cat. set (text := sub ++ lit " " ++ body).
  split_and!.
  - destruct (contains (lit "spc") (lower text)) eqn:E1.
    { apply cat_spc. by apply contains_lower. }
    apply contains_lower_false in E1.
    destruct (contains (lit "lvt") (lower text)) eqn:E2.
    { apply cat_lvt; [done|]. by apply contains_lower. }
    apply contains_lower_false in E2.
    destruct (contains (lit "laminate") (lower text)) eqn:E3.
    { apply cat_laminate; [done..|]. by apply contains_lower. }
    apply contains_lower_false in E3.
    destruct (contains (lit "tile") (lower text)) eqn:E4.
    { apply cat_tile; [done..|]. by apply contains_lower. }
    apply contains_lower_false in E4.
    destruct (contains (lit "solid") (lower text)) eqn:E5;
      destruct (contains (lit "hardwood") (lower text)) eqn:E6; simpl.
    + apply cat_hardwood; [done..| |]; by apply contains_lower.
    + apply contains_lower_false in E6. apply cat_other; [done..|]. tauto.
    + apply contains_lower_false in E5. apply cat_other; [done..|]. tauto.
    + apply contains_lower_false in E5. apply cat_other; [done..|]. tauto.
  - intros H%contains_lower _. by rewrite H.
  - by vm_compute.
Qed.

(** *** Where the program departs from the wording of the specification *)

(** Run twice on a message whose date overflows on conversion to UTC: the
    message fails in both runs and its identity never reaches the
    ledger. *)
Lemma rerun_attempts_failed_file :
  ~ rerun_skips_every_file (L := sample_lib) None ∅ [file_overflow].
Proof.
  assert (E : run (L := sample_lib) None ∅ [file_overflow]
              = (start None ∅, [Failed], NoNewOffers)) by (by vm_compute).
  unfold rerun_skips_every_file. rewrite E. cbn [start hash_file image_dir].
  change (run None ∅ [file_overflow])
    with (run (L := sample_lib) None ∅ [file_overflow]).
  rewrite E. intros [_ H]. inversion H. done.
Qed.

(** A message with an empty [Message-ID] header gets the identity made
    from its bytes. *)
Lemma empty_message_id_is_not_the_identity :
  ~ identity_is_header_when_present (L := sample_lib)
      (parsed file_empty_id) file_empty_id.
Proof.
  intros H. specialize (H [] eq_refl). vm_compute in H. done.
Qed.



(** A [Content-ID] made of brackets only gives the name made from the
    bytes. *)
Lemma empty_cid_is_not_the_name :
  ~ name_is_cid_when_present (L := sample_lib) part_cid_brackets
      (bytes "GIF89a").
Proof.
  intros H. specialize (H (lit "<>") eq_refl). vm_compute in H. done.
Qed.

(** *** The hypotheses of the theorems on a run are met *)

(** Three offers of one group: the reply, with the later date, is kept. *)
Lemma dedup_on_sample_files :
  let r := run (L := sample_lib) None ∅ sample_files in
  r = (r.1.1, r.1.2, r.2) /\
  built sample_files r.1.2 = sample_files /\
  map (fun kv => message_id kv.2) (latest r.1.1) = [lit "<b2@mail.example>"] /\
  NoDup (map fst (latest r.1.1)).
Proof.
  intros r.
  assert (E : r = (r.1.1, r.1.2, r.2)) by (by destruct r as [[? ?] ?]).
  split_and!; [exact E|by vm_compute|by vm_compute|].
  exact (proj1 (proj2 (dedup_keeps_latest_per_subject _ _ _ _ _ _ E))).
Defined.

Lemma output_order_on_sample_files :
  let r := run (L := sample_lib) None ∅ (file_empty_id :: sample_files) in
  r = (r.1.1, r.1.2, r.2) /\
  map fst (latest r.1.1) =
  first_seen (map key_of (built (file_empty_id :: sample_files) r.1.2)) /\
  map fst (latest r.1.1) = [lit "lvt closeout"; lit "offer: spc flooring"].
Proof.
  intros r.
  assert (E : r = (r.1.1, r.1.2, r.2)) by (by destruct r as [[? ?] ?]).
  split_and!; [exact E| |by vm_compute].
  exact (proj1 (output_follows_first_appearance _ _ _ _ _ _ E)).
Defined.

Lemma rerun_on_sample_files :
  let files := file_overflow :: sample_files in
  let r1 := run (L := sample_lib) None ∅ files in
  let r2 := run (L := sample_lib) (hash_file r1.1.1) (image_dir r1.1.1) files in
  r1 = (r1.1.1, r1.1.2, r1.2) /\ r2 = (r2.1.1, r2.1.2, r2.2) /\
  r1.1.2 = [Failed; CandidateBuilt; CandidateBuilt; CandidateBuilt] /\
  r2.1.2 = [Failed; SkippedAsSeen; SkippedAsSeen; SkippedAsSeen] /\
  r2.2 = NoNewOffers.
Proof.
  intros files r1 r2.
  assert (E1 : r1 = (r1.1.1, r1.1.2, r1.2)) by (by destruct r1 as [[? ?] ?]).
  assert (E2 : r2 = (r2.1.1, r2.1.2, r2.2)) by (by destruct r2 as [[? ?] ?]).
  split_and!; [exact E1|exact E2|by vm_compute|by vm_compute|].
  exact (proj1 (rerun_builds_nothing _ _ _ _ _ _ _ _ _ E1 E2)).
Defined.

Lemma failure_on_sample_file :
  let st := start None ∅ in
  process_file (L := sample_lib) st file_overflow = (st, Failed) /\
  candidate_of (L := sample_lib) file_overflow = Raise /\
  latest st = [] /\ hash_file st = None.
Proof.
  intros st.
  assert (E : process_file (L := sample_lib) st file_overflow = (st, Failed))
    by (by vm_compute).
  split_and!; [exact E|by vm_compute| |].
  - exact (proj1 (proj1 (proj2 (failed_message_changes_nothing _ _)) _ E)).
  - exact (proj1 (proj2 (proj2
             (proj1 (proj2 (failed_message_changes_nothing _ _)) _ E)))).
Defined.

End Spec.

(** ** The model on concrete inputs

    The expected values are those of CPython 3.11 on the same inputs. *)

Module Checks.
Import Py Re Std Pipeline ImageFilter Sample.

Example int_of_padded : Py.int (lit " 10 ") = Some 10%Z.
Proof. by vm_compute. Qed.

Example int_of_grouped : Py.int (lit "1_0") = Some 10%Z.
Proof. by vm_compute. Qed.

Example int_of_double_underscore : Py.int (lit "1__0") = None.
Proof. by vm_compute. Qed.

Example int_of_negative : Py.int (lit "-5") = Some (-5)%Z.
Proof. by vm_compute. Qed.

Example replace_px_inside : replace (lit "px") [] (lit "1px0") = lit "10".
Proof. by vm_compute. Qed.

Example replace_px_once : replace (lit "px") [] (lit "ppxx") = lit "px".
Proof. by vm_compute. Qed.

Example strip_brackets :
  strip_chars (lit "<>") (lit "<<logo@shop>") = lit "logo@shop".
Proof. by vm_compute. Qed.

Example clean_subj_one_marker : _clean_subj (lit "Re: Re: foo") = lit "re: foo".
Proof. by vm_compute. Qed.

Example clean_subj_not_leading : _clean_subj (lit " RE: x") = lit "re: x".
Proof. by vm_compute. Qed.

Example clean_subj_fw_fwd : _clean_subj (lit "fw:fwd: A") = lit "fwd: a".
Proof. by vm_compute. Qed.

Example clean_subj_reply :
  _clean_subj (lit "RE: offer: SPC Flooring") =
  _clean_subj (lit "Offer: SPC Flooring").
Proof. by vm_compute. Qed.

Example qty_backtracks : _m QTY_RGX (lit "12,3456sf") = Ok (lit "3456").
Proof. by vm_compute. Qed.

Example qty_long_run : _m QTY_RGX (lit "1234567 SqFt") = Ok (lit "234567").
Proof. by vm_compute. Qed.

Example qty_one_digit : _m QTY_RGX (lit "9 pcs") = Ok [].
Proof. by vm_compute. Qed.

Example price_groups :
  _m PRICE_RGX (lit "$ 12,345,678.9") = Ok (lit "12,345,678").
Proof. by vm_compute. Qed.

Example price_four_digits : _m PRICE_RGX (lit "$1234") = Ok (lit "123").
Proof. by vm_compute. Qed.

Example price_no_dollar : _m PRICE_RGX (lit "USD 5") = Ok [].
Proof. by vm_compute. Qed.

Example fob_word_boundary : _m FOB_RGX (lit "xFOB Miami") = Ok [].
Proof. by vm_compute. Qed.

Example fob_colon :
  _m FOB_RGX (lit "fob:  Long Beach CA 90802") = Ok (lit "Long Beach CA").
Proof. by vm_compute. Qed.

Example fob_dash :
  _m FOB_RGX (lit "FOB-Savannah port") = Ok (lit "Savannah port").
Proof. by vm_compute. Qed.

(** The first of two offers of one group with equal timestamps stays. *)
Example tie_keeps_first :
  map (fun o => message_id o)
    match (run (L := sample_lib) None ∅ [file_first; file_tie]).2 with
    | Wrote offers => offers
    | NoNewOffers => []
    end
  = [lit "<a1@mail.example>"].
Proof. by vm_compute. Qed.

(** A file without a date loses to a dated file of its group, whichever
    comes first. *)
Example undated_loses :
  map (fun o => message_id o)
    match (run (L := sample_lib) None ∅ [file_nodate; file_first]).2 with
    | Wrote offers => offers
    | NoNewOffers => []
    end
  = [lit "<a1@mail.example>"].
Proof. by vm_compute. Qed.

(** The examples of the specification for the image filter. *)
Example track_gif_discarded :
  is_tracking_pixel (L := sample_lib) (lit "https://example.com/track.gif")
    None = Ok true.
Proof. by vm_compute. Qed.

Example wide_photo_kept :
  is_tracking_pixel (L := sample_lib)
    (lit "https://example.com/product-photo.jpg")
    (Some {| width := Some (lit "400"); height := None |}) = Ok false.
Proof. by vm_compute. Qed.

Example tiny_image_discarded :
  is_tracking_pixel (L := sample_lib)
    (lit "https://shop.example.com/p/floor.png")
    (Some {| width := Some (lit "10"); height := Some (lit "10") |})
  = Ok true.
Proof. by vm_compute. Qed.

(** A URL that [urlparse] refuses: the exception leaves the function,
    unless one of the patterns is found first. *)
Example bracket_url_raises :
  is_tracking_pixel (L := sample_lib) (lit "http://[::1/x.png")
    (Some {| width := Some (lit "10"); height := Some (lit "10") |})
  = Raise.
Proof. by vm_compute. Qed.

Example bracket_url_with_pattern :
  is_tracking_pixel (L := sample_lib) (lit "http://[::1/track.gif") None
  = Ok true.
Proof. by vm_compute. Qed.

Example long_literal_not_read :
  Py.int (repeat "9"%char 4301) = None /\
  Py.int (repeat "9"%char 4300) <> None.
Proof. by vm_compute. Qed.

Example px_suffix_only :
  without_px_suffix (lit "10pxpx") = lit "10px" /\
  declared (Some (lit "10pxpx")) = Some 10%Z.
Proof. by vm_compute. Qed.

Example px_suffix_read :
  declared (Some (lit "120px")) = Some 120%Z.
Proof. by vm_compute. Qed.

Example percent_not_read : declared (Some (lit "100%")) = None.
Proof. by vm_compute. Qed.

End Checks.

(** ** The loop of [process], file by file *)

Module LoopFacts.
Import Py Re Std Pipeline PyFacts ReFacts PatternFacts RunFacts.


Lemma built_nil_r files : built files [] = [].
Proof. by destruct files. Qed.

Lemma built_elem files : forall os f,
  f ∈ built files os ->
  exists i, files !! i = Some f /\ os !! i = Some CandidateBuilt.
Proof.
  induction files as [|g files IH]; intros [|o os] f; simpl; try by inversion 1.
  destruct o.
  - intros (i & ? & ?)%IH. by exists (S i).
  - intros (i & ? & ?)%IH. by exists (S i).
  - intros [->|(i & ? & ?)%IH]%elem_of_cons; [by exists 0|by exists (S i)].
Qed.

Lemma built_lookup files : forall os i f,
  files !! i = Some f -> os !! i = Some CandidateBuilt -> f ∈ built files os.
Proof.
  induction files as [|g files IH]; intros [|o os] [|i] f; simpl; try done.
  - intros [= ->] [= ->]. by left.
  - intros Hi Ho. specialize (IH _ _ _ Hi Ho). destruct o; try done. by right.
Qed.

Section Loop.
Context {L : StdLib}.



(** Once an identity is in the seen set, every file that has it is
    skipped. *)
Lemma process_files_skips files : forall st st' os j g,
  process_files st files = (st', os) ->
  files !! j = Some g -> mid_of g ∈ seen st ->
  os !! j = Some SkippedAsSeen.
Proof.
  induction files as [|f files IH]; intros st st' os j g; simpl; [done|].
  destruct (process_file st f) as [st1 o1] eqn:E1.
  destruct (process_files st1 files) as [st2 os2] eqn:E2.
  intros [= <- <-]. destruct j as [|j]; simpl.
  - intros [= ->] Hin.
    destruct (process_file_cases st g) as [[_ E]|[(Hn & _)|(Hn & _)]];
      [|done|done].
    rewrite E in E1. by injection E1 as <- <-.
  - intros Hj Hin. eapply (IH st1); [done|done|].
    destruct (process_file_cases st f) as
      [[_ E]|[(_ & _ & dir & E)|(_ & dt & ob & lat & dir & _ & _ & E)]];
      rewrite E in E1; injection E1 as <- <-; simpl; set_solver.
Qed.

(** *** The files of the images *)

(** Writing never removes a file. *)
Lemma save_parts_grows parts : forall dir saved k,
  is_Some (dir !! k) -> is_Some (fst (save_parts parts dir saved) !! k).
Proof.
  induction parts as [|part rest IH]; intros dir saved k Hk; [done|].
  cbn [save_parts].
  destruct (eqs (get_content_maintype part) (lit "image")); [|by apply IH].
  destruct (get_payload_decoded part) as [[|b data]|]; try by apply IH.
  destruct (write_bytes _); [|by apply IH|done].
  apply IH.
  destruct (decide (image_path (img_filename part (b :: data)) = k))
    as [->|Hne].
  - by rewrite lookup_insert_eq.
  - by rewrite lookup_insert_ne.
Qed.

(** The file written for a part that is an image with a payload. *)
Lemma image_name_payload part n :
  image_name part = Some n ->
  exists b data,
    get_payload_decoded part = Some (b :: data) /\
    n = img_filename part (b :: data) /\
    eqs (get_content_maintype part) (lit "image") = true.
Proof.
  unfold image_name.
  destruct (eqs (get_content_maintype part) (lit "image")); [|done].
  destruct (get_payload_decoded part) as [[|b data]|]; try done.
  intros [= <-]. by exists b, data.
Qed.

Lemma save_parts_step part rest dir saved :
  save_parts (part :: rest) dir saved =
  match image_name part with
  | Some n =>
      match write_bytes n with
      | Written =>
          save_parts rest
            (<[image_path n := default [] (get_payload_decoded part)]> dir)
            (saved ++ [n])
      | WriteOSError => save_parts rest dir saved
      | WriteError => (dir, Raise)
      end
  | None => save_parts rest dir saved
  end.
Proof.
  cbn [save_parts]. unfold image_name.
  destruct (eqs (get_content_maintype part) (lit "image")); [|done].
  by destruct (get_payload_decoded part) as [[|b data]|].
Qed.

(** The names returned and the files left by the loop of [_save_imgs]. *)
Lemma save_parts_folder parts : forall dir saved dir' names,
  save_parts parts dir saved = (dir', Ok names) ->
  exists new,
    names = saved ++ new /\
    (forall k, (forall n, n ∈ new -> image_path n <> k) ->
       dir' !! k = dir !! k) /\
    (forall n, n ∈ new ->
       (exists part, part ∈ parts /\ written part n) /\
       exists part m, part ∈ parts /\ written part m /\
         image_path m = image_path n /\
         dir' !! image_path n = get_payload_decoded part) /\
    (forall before part after n,
       parts = before ++ part :: after -> written part n ->
       (forall q m, q ∈ after -> written q m ->
          image_path m <> image_path n) ->
       n ∈ new /\ dir' !! image_path n = get_payload_decoded part).
Proof.
  induction parts as [|part rest IH]; intros dir saved dir' names.
  - simpl. intros [= <- <-]. exists []. rewrite app_nil_r.
    split_and!; try done.
    + intros n Hn. by apply not_elem_of_nil in Hn.
    + by intros [] ? ? ?.
  - rewrite save_parts_step.
    assert (Hskip : ~ (exists n, written part n) ->
      save_parts rest dir saved = (dir', Ok names) ->
      exists new,
        names = saved ++ new /\
        (forall k, (forall n, n ∈ new -> image_path n <> k) ->
           dir' !! k = dir !! k) /\
        (forall n, n ∈ new ->
           (exists q, q ∈ part :: rest /\ written q n) /\
           exists q m, q ∈ part :: rest /\ written q m /\
             image_path m = image_path n /\
             dir' !! image_path n = get_payload_decoded q) /\
        (forall before q after n,
           part :: rest = before ++ q :: after -> written q n ->
           (forall q' m, q' ∈ after -> written q' m ->
              image_path m <> image_path n) ->
           n ∈ new /\ dir' !! image_path n = get_payload_decoded q)).
    { intros Hno (new & -> & Hkeep & Hnew & Hlast)%IH. exists new.
      split_and!; try done.
      - intros n Hn. destruct (Hnew _ Hn) as [(q & Hq & Hw) (q' & m & Hq' & ?)].
        split; [exists q; split; [by right|done]|].
        exists q', m. split; [by right|done].
      - intros [|p before] q after n; simpl.
        + intros [= <- <-] Hw. destruct Hno. by exists n.
        + intros [= <- ->]. exact (Hlast before q after n eq_refl). }
    destruct (image_name part) as [n0|] eqn:En.
    2:{ apply Hskip. intros (n & Hn & _). congruence. }
    destruct (write_bytes n0) eqn:Ew; [| |done].
    2:{ apply Hskip. intros (n & Hn & Hw). congruence. }
    clear Hskip.
    intros (new & -> & Hkeep & Hnew & Hlast)%IH.
    destruct (image_name_payload _ _ En) as (b & data & Hp & _ & _).
    assert (Hw0 : written part n0) by done.
    exists (n0 :: new). rewrite <- app_assoc. split_and!; try done.
    + intros k Hk. rewrite Hkeep by (intros n Hn; apply Hk; by right).
      rewrite lookup_insert_ne; [done|]. apply Hk. by left.
    + assert (Hold : forall n, n ∈ new ->
                (exists q, q ∈ part :: rest /\ written q n) /\
                exists q m, q ∈ part :: rest /\ written q m /\
                  image_path m = image_path n /\
                  dir' !! image_path n = get_payload_decoded q).
      { intros n Hn.
        destruct (Hnew _ Hn) as [(q & Hq & Hw) (q' & m & Hq' & ?)].
        split; [exists q; split; [by right|done]|].
        exists q', m. split; [by right|done]. }
      intros n [->|Hn]%elem_of_cons; [|by apply Hold].
      split; [exists part; split; [by left|done]|].
      destruct (decide (Exists (fun n' => image_path n' = image_path n0) new))
        as [Hex|Hno].
      * apply Exists_exists in Hex as (n' & Hn' & Epath).
        destruct (Hold _ Hn') as [_ (q & m & Hq & Hw & Em & Hd)].
        exists q, m. split_and!; [done|done|congruence|by rewrite <- Epath].
      * exists part, n0. split_and!; [by left|done|done|].
        rewrite Hkeep.
        -- rewrite lookup_insert_eq. by rewrite Hp.
        -- intros n' Hn' Epath. apply Hno, Exists_exists. by exists n'.
    + intros [|p before] q after n; simpl.
      * intros [= <- <-] [Hq Hw] Hafter.
        assert (n = n0) as -> by congruence.
        split; [by left|].
        rewrite Hkeep.
        -- rewrite lookup_insert_eq. by rewrite Hp.
        -- intros n' Hn'. destruct (Hnew _ Hn') as [(q' & Hq' & Hw') _].
           by apply (Hafter q').
      * intros [= <- ->] Hq Hafter.
        destruct (Hlast _ _ _ _ eq_refl Hq Hafter) as [Hin Hd].
        split; [by right|done].
Qed.

(** What the body of the loop does to the files of the images. *)
Lemma process_file_folder st f st' o :
  process_file st f = (st', o) ->
  (forall n, is_Some (image_dir st !! n) -> is_Some (image_dir st' !! n)) /\
  (o = CandidateBuilt ->
   exists imgs dt ob,
     _save_imgs (parsed f) (image_dir st) = (image_dir st', Ok imgs) /\
     snd (_save_imgs (parsed f) ∅) = Ok imgs /\
     candidate_of f = Ok (dt, ob) /\
     primary_image ob = hd [] imgs /\ more_images ob = tl imgs).
Proof.
  unfold process_file. case_bool_decide as Hs.
  { intros [= <- <-]. done. }
  unfold candidate_of, stamp_of.
  destruct (_as_dt (date_of f)) as [dt|] eqn:Ed; simpl.
  2:{ intros [= <- <-]. done. }
  unfold _save_imgs.
  pose proof (save_parts_result (walk (parsed f)) ∅ (image_dir st) []) as Hr.
  pose proof (save_parts_grows (walk (parsed f)) (image_dir st) []) as Hg.
  destruct (save_parts (walk (parsed f)) (image_dir st) []) as [dir [imgs|]];
    simpl in *.
  2:{ intros [= <- <-]. done. }
  rewrite Hr. simpl.
  destruct (make_offer f (_body (parsed f)) imgs) as [ob|] eqn:Em; simpl.
  2:{ intros [= <- <-]. done. }
  destruct (resolve _ dt ob (latest st)) as [lat|] eqn:Er.
  2:{ intros [= <- <-]. done. }
  intros [= <- <-]. simpl. split; [done|]. intros _.
  exists imgs, dt, ob. apply make_offer_fields in Em.
  by destruct Em as (_ & _ & _ & _ & _ & ? & ? & _).
Qed.

Lemma process_files_folder files : forall st st' os,
  process_files st files = (st', os) ->
  (forall n, is_Some (image_dir st !! n) -> is_Some (image_dir st' !! n)) /\
  (forall f imgs n,
     f ∈ built files os -> snd (_save_imgs (parsed f) ∅) = Ok imgs ->
     n ∈ imgs -> is_Some (image_dir st' !! image_path n)).
Proof.
  induction files as [|f files IH]; intros st st' os; simpl.
  - intros [= <- <-]. split; [done|]. intros f imgs n. by inversion 1.
  - destruct (process_file st f) as [st1 o1] eqn:E1.
    destruct (process_files st1 files) as [st2 os2] eqn:E2.
    intros [= <- <-].
    destruct (process_file_folder _ _ _ _ E1) as [Hg1 Hb1].
    destruct (IH _ _ _ E2) as [Hg2 Hb2].
    split; [by auto|].
    intros g imgs n Hg Himgs Hn.
    destruct o1; try by eapply Hb2.
    apply elem_of_cons in Hg as [->|Hg]; [|by eapply Hb2].
    destruct (Hb1 eq_refl) as (imgs' & dt & ob & Hsave & Hsnd & _).
    assert (imgs' = imgs) as -> by congruence.
    apply Hg2. unfold _save_imgs in Hsave.
    destruct (save_parts_folder _ _ _ _ _ Hsave) as (new & Hnew & _ & Hin & _).
    simpl in Hnew. subst new.
    destruct (Hin _ Hn) as [_ (part & m & _ & [Hname _] & _ & ->)].
    destruct (image_name_payload _ _ Hname) as (b & data & -> & _). done.
Qed.

End Loop.

End LoopFacts.

(** ** More of the pipeline: the ledger, the output and the image folder *)

Module PipelineProps.
Import Py Re Std Pipeline ImageFilter Sample MoreSamples.
Import PyFacts ReFacts PatternFacts RunFacts LoopFacts.

Section Props.
Context {L : StdLib}.

Lemma pair_eta {A B} (r : A * B) b : r.2 = b -> r = (r.1, b).
Proof. destruct r. by intros <-. Qed.

Lemma triple_eta {A B C} (r : A * B * C) c :
  r.2 = c -> r = (r.1.1, r.1.2, c).
Proof. destruct r as [[]]. by intros <-. Qed.

Lemma dict_get_elem k o (lat : dict) :
  NoDup (map fst lat) -> (k, o) ∈ lat -> dict_get k lat = Some o.
Proof.
  induction lat as [|[k' o'] lat IH]; simpl; [by inversion 2|].
  intros [Hk Hnd]%NoDup_cons [[= -> ->]|Hin]%elem_of_cons.
  - by rewrite eqs_refl.
  - destruct (eqs k k') eqn:E; [|by apply IH].
    apply eqs_true in E as ->. exfalso. apply Hk.
    apply list_elem_of_fmap. by exists (k', o).
Qed.

(** Where an entry of [latest] comes from. *)
Lemma entry_origin B (lat : dict) k o :
  latest_inv B lat -> (k, o) ∈ lat ->
  exists w, w ∈ B /\ key_of w = k /\ offer_of w = Ok o /\
            message_id o = mid_of w /\ title o = subject_of w /\
            exists imgs, snd (_save_imgs (parsed w) ∅) = Ok imgs /\
                         primary_image o = hd [] imgs /\
                         more_images o = tl imgs.
Proof.
  intros [Hkeys Hinv] Hin.
  assert (Hnd : NoDup (map fst lat)).
  { rewrite Hkeys. apply first_seen_NoDup. }
  destruct (Hinv _ _ (dict_get_elem _ _ _ Hnd Hin))
    as (w & tw & (before & after & -> & Hk & _) & Ho & _).
  exists w. split; [set_solver|]. split; [done|]. split; [done|].
  unfold offer_of, candidate_of in Ho.
  destruct (stamp_of w); simpl in Ho; [|done].
  destruct (snd (_save_imgs (parsed w) ∅)) as [imgs|]; simpl in Ho; [|done].
  destruct (make_offer w (_body (parsed w)) imgs) as [o'|] eqn:Em;
    simpl in Ho; [|done].
  injection Ho as ->. apply make_offer_fields in Em.
  destruct Em as (? & _ & _ & ? & _ & ? & ? & _).
  split_and!; try done. by exists imgs.
Qed.


(** X2.  Of the files of one folder that have the same identity at most
    one builds a candidate: once a file was skipped or a candidate was
    built for it, every later file with its identity is skipped, whatever
    its subject, date or body. *)
Theorem same_identity_processed_once st files st' os i j f g :
  process_files st files = (st', os) ->
  files !! i = Some f -> files !! j = Some g -> i < j ->
  mid_of f = mid_of g ->
  os !! i <> Some Failed ->
  os !! j = Some SkippedAsSeen.
Proof.
  revert st st' os i j.
  induction files as [|h files IH]; intros st st' os i j; simpl; [done|].
  destruct (process_file st h) as [st1 o1] eqn:E1.
  destruct (process_files st1 files) as [st2 os2] eqn:E2.
  intros [= <- <-] Hi Hj Hlt Hmid Hnf.
  destruct j as [|j]; [lia|]. simpl in Hj. simpl.
  destruct i as [|i]; simpl in *.
  - injection Hi as ->.
    eapply process_files_skips; [exact E2|exact Hj|]. rewrite <- Hmid.
    destruct (process_file_cases st f) as
      [[Hin E]|[(_ & _ & dir & E)|(_ & dt & ob & lat & dir & _ & _ & E)]];
      rewrite E in E1; injection E1 as <- <-; simpl.
    + done.
    + done.
    + unfold mid_of. set_solver.
  - eapply (IH st1 _ _ i j); eauto. lia.
Qed.


(** X4.  A run removes no file, and for every image an offer of the
    output names, the file that the name stands for in the image folder
    (the path [image_dir / name]) exists when the run ends: this holds
    for [primary_image], unless it is empty, and for every entry of
    [more_images]; [primary_image] is empty only when [more_images]
    is. *)
Theorem written_offers_name_saved_images file dir files st os offers :
  run file dir files = (st, os, Wrote offers) ->
  (forall k, is_Some (dir !! k) -> is_Some (image_dir st !! k)) /\
  Forall (fun o =>
    (primary_image o = [] /\ more_images o = [] \/
     is_Some (image_dir st !! image_path (primary_image o))) /\
    Forall (fun n => is_Some (image_dir st !! image_path n))
      (more_images o)) offers.
Proof.
  intros Hrun. pose proof (run_latest _ _ _ _ _ _ Hrun) as Hinv.
  apply run_unfold in Hrun as [Hp Hout].
  assert (Hoffers : offers = map snd (latest st)).
  { destruct (latest st); [done|]. by injection Hout as ->. }
  destruct (process_files_folder _ _ _ _ Hp) as [Hgrow Hsaved].
  split; [exact Hgrow|].
  subst offers. apply Forall_fmap, Forall_forall. intros [k o] Hin.
  destruct (entry_origin _ _ _ _ Hinv Hin)
    as (w & Hw & _ & _ & _ & _ & imgs & Himgs & Hp1 & Hp2).
  simpl. rewrite Hp1, Hp2. destruct imgs as [|n imgs]; simpl.
  - split; [by left|done].
  - split.
    + right. eapply Hsaved; [exact Hw|exact Himgs|by left].
    + apply Forall_forall. intros m Hm.
      eapply Hsaved; [exact Hw|exact Himgs|by right].
Qed.

(** X5.  When [_save_imgs] returns, a file is as it was unless one of the
    names returned stands for it (two names may stand for one file, and
    a name may stand for a file outside the folder).  Every name returned
    is the name of an image part of the message with a payload that is
    not empty, and the file it stands for holds the payload of such a
    part.  The file holds the payload of the last part written to it:
    that of a part after which no part is written under a name that
    stands for the same file. *)
Theorem save_imgs_writes_what_it_names msg dir dir' names :
  _save_imgs msg dir = (dir', Ok names) ->
  (forall k, (forall n, n ∈ names -> image_path n <> k) ->
     dir' !! k = dir !! k) /\
  (forall n, n ∈ names ->
     (exists part b data,
        part ∈ walk msg /\ image_name part = Some n /\
        get_payload_decoded part = Some (b :: data)) /\
     (exists part m b data,
        part ∈ walk msg /\ image_name part = Some m /\
        image_path m = image_path n /\
        get_payload_decoded part = Some (b :: data) /\
        dir' !! image_path n = Some (b :: data))) /\
  (forall before part after n,
     walk msg = before ++ part :: after ->
     image_name part = Some n -> write_bytes n = Written ->
     (forall q m, q ∈ after -> image_name q = Some m ->
        write_bytes m = Written -> image_path m <> image_path n) ->
     n ∈ names /\ dir' !! image_path n = get_payload_decoded part).
Proof.
  unfold _save_imgs.
  intros (new & Hnew & Hkeep & Hin & Hlast)%save_parts_folder.
  simpl in Hnew. subst new. split_and!; try done.
  - intros n [(part & Hpart & Hn & _) (q & m & Hq & [Hm _] & Epath & Hd)]%Hin.
    split.
    + destruct (image_name_payload _ _ Hn) as (b & data & Hp & _).
      by exists part, b, data.
    + destruct (image_name_payload _ _ Hm) as (b & data & Hp & _).
      exists q, m, b, data. split_and!; try done. by rewrite Hd.
  - intros before part after n E Hn Hw Hafter.
    apply (Hlast before part after n E); [done|].
    intros q m Hq [Hm Hwm]. by apply (Hafter q).
Qed.

End Props.


Lemma second_copy_is_skipped :
  let files := [file_first; file_reply; file_first] in
  let r := process_files (L := sample_lib) (start None ∅) files in
  r = (r.1, r.2) /\ r.2 !! 2 = Some SkippedAsSeen.
Proof.
  intros files r.
  assert (E : r = (r.1, r.2)) by (by destruct r).
  split; [exact E|].
  apply (same_identity_processed_once _ _ _ _ 0 2 file_first file_first E);
    [done|done|lia|done|by vm_compute].
Defined.


Lemma images_of_sample_files :
  let r := run (L := sample_lib) None ∅ (file_photo :: sample_files) in
  exists offers,
    r = (r.1.1, r.1.2, Wrote offers) /\
    Forall (fun o =>
      Forall (fun n => is_Some (image_dir r.1.1 !! sample_path n))
        (more_images o)) offers /\
    map primary_image offers = [lit "logo@shop.png"; []].
Proof.
  intros r.
  assert (E : exists offers, r = (r.1.1, r.1.2, Wrote offers) /\
                map primary_image offers = [lit "logo@shop.png"; []]).
  { eexists. split; [apply triple_eta|]; vm_compute; reflexivity. }
  destruct E as [offers [E Hp]]. exists offers. split_and!; [exact E| |exact Hp].
  eapply Forall_impl;
    [exact (proj2 (written_offers_name_saved_images _ _ _ _ _ _ E))|].
  by intros o [_ H].
Defined.

Lemma last_logo_is_kept :
  let r := _save_imgs (L := sample_lib) msg_two_logos ∅ in
  r = (r.1, Ok [lit "logo@shop.png"; lit "logo@shop.png"]) /\
  r.1 !! lit "images/logo@shop.png" = Some (bytes "PNG-2").
Proof.
  intros r.
  assert (E : r = (r.1, Ok [lit "logo@shop.png"; lit "logo@shop.png"]))
    by (apply pair_eta; vm_compute; reflexivity).
  split; [exact E|].
  destruct (proj2 (proj2 (save_imgs_writes_what_it_names _ _ _ _ E))
              (firstn 3 (walk msg_two_logos))
              (Leaf (part_headers "image/png" (Some "inline")
                       (Some "<logo@shop>")) (bytes "PNG-2"))
              [] (lit "logo@shop.png")) as [_ H].
  - by vm_compute.
  - by vm_compute.
  - by vm_compute.
  - intros q m Hq. by apply not_elem_of_nil in Hq.
  - exact H.
Defined.

End PipelineProps.

(** ** The patterns and the texts of [LeadBringerOfferKnowledge.py] *)

Module KnowledgeFacts.
Import Py Re Std Pipeline ImageFilter PyText ReMore Knowledge.
Import PyFacts ReFacts PatternFacts RunFacts TextFacts ScanFacts.

Lemma char_in_elem cs c : char_in cs c = true <-> c ∈ cs.
Proof.
  unfold char_in. induction cs as [|x cs IH]; simpl.
  - split; [done|]. by intros ?%not_elem_of_nil.
  - rewrite orb_true_iff, IH, elem_of_cons.
    split; (intros [H|H]; [left|by right]).
    + by apply Ascii.eqb_eq in H.
    + by apply Ascii.eqb_eq.
Qed.

Lemma char_in_false cs c : char_in cs c = false <-> c ∉ cs.
Proof.
  rewrite <- char_in_elem. by destruct (char_in cs c).
Qed.

(** The first occurrence of a character. *)
Lemma elem_first (c : ascii) s :
  c ∈ s -> exists b d, s = b ++ c :: d /\ c ∉ b.
Proof.
  induction s as [|x s IH]; [by intros ?%not_elem_of_nil|].
  destruct (decide (x = c)) as [->|Hne].
  - intros _. exists [], s. split; [done|]. apply not_elem_of_nil.
  - intros [?|Hin]%elem_of_cons; [done|].
    destruct (IH Hin) as (b & d & -> & Hb). exists (x :: b), d.
    split; [done|]. by apply not_elem_of_cons.
Qed.

Lemma lang_plus_class p w :
  lang (plus (RChar p)) w -> Forall (fun c => p c = true) w /\ 1 <= length w.
Proof.
  intros [ws [-> [Hall [Hlo _]]]].
  assert (length (concat ws) = length ws /\
          Forall (fun c => p c = true) (concat ws)) as [E F].
  { clear Hlo. induction Hall as [|x l [c [-> Hc]] _ [IH1 IH2]]; simpl.
    - done.
    - split; [by rewrite IH1|by constructor]. }
  split; [done|lia].
Qed.

Lemma matches_class_run q : forall w lo prev r g,
  Forall (fun c => q c = true) w -> lo <= length w ->
  matches (RRep lo None (RChar q)) (MState prev (w ++ r) g)
    (MState (rev w ++ prev) r g).
Proof.
  induction w as [|c w IH]; intros lo prev r g Hw Hlo.
  - simpl in *. assert (lo = 0) as -> by lia. constructor.
  - apply Forall_cons in Hw as [Hc Hw].
    eapply (M_rep_more lo None (RChar q) _ (MState (c :: prev) (w ++ r) g)).
    + done.
    + by apply (M_char q c (w ++ r) (MState prev (c :: w ++ r) g)).
    + simpl. rewrite <- app_assoc. apply IH; [done|]. simpl in Hlo. lia.
Qed.

(** The shape of a match of a pattern without groups. *)
Lemma try_at_shape p adv prev s st' :
  try_at p adv (MState prev s None) = Some st' ->
  ngroups (p_body p) = 0 ->
  exists m, s = m ++ m_rest st' /\
            st' = MState (rev m ++ prev) (m_rest st') None /\
            (nullable (p_body p) = false -> m <> []).
Proof.
  intros Hm%try_at_matches Hg.
  destruct (matches_split _ _ _ Hm) as (w & Hr & Hp).
  pose proof (matches_nogroup _ _ _ Hm Hg) as Hgrp. simpl in *.
  exists w. split; [done|]. split.
  - destruct st'. simpl in *. by subst.
  - intros Hn. apply (matches_consumes _ _ _ Hm) in Hn. simpl in Hn.
    intros ->. simpl in Hr. rewrite Hr in Hn. lia.
Qed.

(** *** Tags *)

Lemma tag_at_head_ne c s : c <> "<"%char -> tag_at_head (c :: s) = false.
Proof.
  intros Hc. destruct s as [|x t]; [done|]. simpl.
  destruct (Ascii.eqb_spec c "<"); [done|done].
Qed.

Lemma tag_at_head_true s :
  tag_at_head s = true <->
  exists x t, s = "<"%char :: x :: t /\ x <> ">"%char /\ ">"%char ∈ t.
Proof.
  destruct s as [|c [|x t]]; simpl.
  - split; [done|]. by intros (? & ? & ? & _).
  - split; [done|]. by intros (? & ? & ? & _).
  - rewrite !andb_true_iff, negb_true_iff, char_in_elem. split.
    + intros [[Hc Hx] Ht]. apply Ascii.eqb_eq in Hc as ->.
      exists x, t. split; [done|]. split; [|done].
      intros ->. by rewrite Ascii.eqb_refl in Hx.
    + intros (x' & t' & [= -> -> ->] & Hx & Ht). split_and!; try done.
      by apply Ascii.eqb_neq.
Qed.

Lemma progressing_tag : progressing (p_body TAG_RX) = true.
Proof. done. Qed.

Lemma try_tag_hit adv prev s :
  tag_at_head s = true ->
  exists m rest',
    s = m ++ rest' /\ m <> [] /\
    try_at TAG_RX adv (MState prev s None) =
    Some (MState (rev m ++ prev) rest' None).
Proof.
  intros (x & t & -> & Hx & Ht)%tag_at_head_true.
  destruct (elem_first _ _ Ht) as (b & d & -> & Hb).
  set (st := MState prev ("<"%char :: x :: b ++ ">"%char :: d) None).
  set (st1 := MState ("<"%char :: prev) ((x :: b) ++ ">"%char :: d) None).
  set (st2 := MState (rev (x :: b) ++ "<"%char :: prev) (">"%char :: d) None).
  set (st3 := MState (">"%char :: rev (x :: b) ++ "<"%char :: prev) d None).
  assert (Hm : matches (p_body TAG_RX) st st3).
  { unfold TAG_RX, pat, p_body.
    apply (M_seq _ _ st st1 st3).
    - by apply (M_char _ "<"%char ((x :: b) ++ ">"%char :: d) st).
    - apply (M_seq _ _ st1 st2 st3).
      + apply matches_class_run; [|simpl; lia].
        constructor.
        * apply negb_true_iff. by apply Ascii.eqb_neq.
        * apply Forall_forall. intros c Hc. apply negb_true_iff.
          apply Ascii.eqb_neq. by intros ->.
      + by apply (M_char _ ">"%char d st2). }
  assert (Hk : is_Some (accept TAG_RX adv st st3)).
  { unfold accept, st, st3. cbn [m_prev m_rest].
    rewrite (proj2 (Nat.eqb_neq _ _)).
    - rewrite andb_false_r. by eexists.
    - cbn [length]. rewrite length_app. simpl. lia. }
  destruct (rmatch_complete _ progressing_tag _ _ _ Hm Hk) as [st' Htry].
  fold (try_at TAG_RX adv st) in Htry.
  destruct (try_at_shape _ _ _ _ _ Htry eq_refl) as (m & Hs & Hst & Hne).
  exists m, (m_rest st'). split; [done|]. split; [by apply Hne|].
  rewrite Htry. by f_equal.
Qed.

Lemma try_tag_miss adv prev s :
  tag_at_head s = false ->
  try_at TAG_RX adv (MState prev s None) = None.
Proof.
  intros Hh. destruct (try_at _ _ _) as [st'|] eqn:E; [exfalso|done].
  apply try_at_matches in E.
  destruct (matches_between _ _ _ E) as [Hr _].
  apply matches_lang in E. simpl in Hr.
  destruct E as (u & v & Hw & Hu%lang_chr & u' & v' & -> & Hu' & Hv'%lang_chr).
  apply lang_plus_class in Hu' as [Hall Hlen]. subst u v'.
  rewrite Hw in Hr. simpl in Hr.
  destruct u' as [|x u']; [simpl in Hlen; lia|].
  apply Forall_cons in Hall as [Hx _].
  assert (tag_at_head s = true); [|congruence].
  apply tag_at_head_true. exists x, (u' ++ ">"%char :: m_rest st').
  split; [by rewrite Hr, <- !app_assoc|]. split.
  - intros ->. done.
  - set_solver.
Qed.

Lemma notag_cons c s :
  notag (c :: s) = negb (tag_at_head (c :: s)) && notag s.
Proof. done. Qed.

Lemma notag_suffix a s : notag (a ++ s) = true -> notag s = true.
Proof.
  induction a as [|c a IH]; [done|]. simpl app. rewrite notag_cons.
  intros [_ H]%andb_true_iff. auto.
Qed.

Lemma notag_tag_free s : notag s = true -> tag_free s.
Proof.
  intros Hs a x b d ->. apply notag_suffix in Hs.
  rewrite notag_cons in Hs. apply andb_true_iff in Hs as [Hs _].
  apply negb_true_iff in Hs.
  destruct (decide (x = ">"%char)) as [|Hx]; [done|].
  assert (tag_at_head ("<"%char :: x :: b ++ ">"%char :: d) = true);
    [|congruence].
  apply tag_at_head_true. exists x, (b ++ ">"%char :: d).
  split_and!; [done|done|set_solver].
Qed.

Lemma notag_no_lt s : "<"%char ∉ s -> notag s = true.
Proof.
  induction s as [|c s IH]; [done|].
  intros [Hc Hs]%not_elem_of_cons. rewrite notag_cons, IH by done.
  by rewrite tag_at_head_ne.
Qed.

(** What [sub] with [TAG_RX] and a space leaves. *)
Lemma untag_props : forall m s n prev,
  length s <= m -> length s < n ->
  let o := sub_go TAG_RX (lit " ") n false prev s in
  notag o = true /\
  (forall c, c ∈ o -> c ∈ s \/ c = " "%char) /\
  (notag s = true -> o = s).
Proof.
  induction m as [|m IH]; intros s [|n] prev Hm Hn; try lia.
  - destruct s; [|simpl in Hm; lia].
    rewrite sub_go_end by (by apply try_tag_miss). simpl. split_and!; try done.
    intros c Hc. by left.
  - destruct s as [|c t].
    { rewrite sub_go_end by (by apply try_tag_miss). simpl.
      split_and!; try done. intros c Hc. by left. }
    simpl in Hm, Hn.
    destruct (tag_at_head (c :: t)) eqn:Eh.
    + destruct (try_tag_hit false prev _ Eh) as (w & rest' & Hs & Hne & Htry).
      rewrite (sub_go_hit _ _ _ _ _ _ _ Htry).
      rewrite (between_prefix prev (c :: t) w rest').
      cbn [m_prev m_rest].
      assert (Hlen : length (c :: t) = length w + length rest').
      { by rewrite Hs, length_app. }
      simpl in Hlen.
      assert (0 < length w) by (destruct w; [done|simpl; lia]).
      replace (length w =? 0) with false
        by (symmetry; apply Nat.eqb_neq; lia).
      destruct (IH rest' n (rev w ++ prev)) as (H1 & H2 & H3); [lia|lia|].
      cbn zeta. change (lit " " ++ ?x) with (" "%char :: x).
      split_and!.
      * rewrite notag_cons, H1. by rewrite tag_at_head_ne.
      * intros x [->|Hx]%elem_of_cons; [by right|].
        destruct (H2 _ Hx) as [Hin|]; [left|by right].
        rewrite Hs. set_solver.
      * rewrite notag_cons, Eh. done.
    + rewrite sub_go_skip by (by apply try_tag_miss).
      destruct (IH t (S n) (c :: prev)) as (H1 & H2 & H3); [lia|lia|].
      cbn zeta in *. set (o' := sub_go TAG_RX (lit " ") (S n) false (c :: prev) t) in *.
      split_and!.
      * rewrite notag_cons, H1, andb_true_r. apply negb_true_iff.
        destruct (tag_at_head (c :: o')) eqn:Eo; [exfalso|done].
        apply tag_at_head_true in Eo as (x & o1 & [= -> Ho'] & Hx & Hgt).
        assert (Hin : ">"%char ∈ t).
        { destruct (H2 ">"%char) as [?|?]; [|done|done].
          rewrite Ho'. by right. }
        destruct t as [|x0 t1]; [by apply not_elem_of_nil in Hin|].
        assert (x0 <> ">"%char) as Hx0.
        { intros ->. unfold o' in Ho'.
          rewrite sub_go_skip in Ho' by (apply try_tag_miss; by apply tag_at_head_ne).
          by injection Ho' as <-. }
        assert (tag_at_head ("<"%char :: x0 :: t1) = true); [|congruence].
        apply tag_at_head_true. exists x0, t1. split_and!; [done|done|].
        apply elem_of_cons in Hin as [?|?]; [congruence|done].
      * intros x [->|Hx]%elem_of_cons; [left; by left|].
        destruct (H2 _ Hx); [left; by right|by right].
      * rewrite notag_cons. intros [_ Ht]%andb_true_iff.
        by rewrite H3.
Qed.

Lemma untag_spec s :
  notag (sub TAG_RX (lit " ") s) = true /\
  (forall c, c ∈ sub TAG_RX (lit " ") s -> c ∈ s \/ c = " "%char) /\
  (notag s = true -> sub TAG_RX (lit " ") s = s).
Proof. apply (untag_props (length s)); lia. Qed.

(** Squeezing the white space of a text makes no tag. *)
Lemma squeezed_notag s s' :
  squeezed s s' -> notag s = true -> notag s' = true.
Proof.
  induction 1 as [|c s s' Hsq IH|c s s' Hc Hsq IH|c s s' Hc Hsq IH].
  - done.
  - rewrite !notag_cons. intros [Hh Hs]%andb_true_iff.
    rewrite IH, andb_true_r by done. apply negb_true_iff.
    apply negb_true_iff in Hh.
    destruct (tag_at_head (c :: s')) eqn:E; [exfalso|done].
    apply tag_at_head_true in E as (x' & t' & [= -> ->] & Hx' & Hgt).
    assert (tag_at_head ("<"%char :: s) = true); [|congruence].
    apply tag_at_head_true.
    assert (Hin : forall t0, squeezed t0 t' -> ">"%char ∈ t0).
    { intros t0 Ht0. by destruct (squeezed_elem _ _ _ Ht0 Hgt). }
    inversion Hsq as [|? t0 ? Ht0|y t0 ? Hy Ht0|y t0 ? Hy Ht0]; subst.
    + exists x', t0. split_and!; [done|done|by apply Hin].
    + exists y, t0. split_and!; [done|by intros ->|].
      destruct (squeezed_elem _ _ ">"%char Ht0) as [?|?]; [by right|done|done].
    + exists y, t0. split_and!; [done|by intros ->|by apply Hin].
  - rewrite notag_cons. intros [_ Hs]%andb_true_iff. auto.
  - rewrite !notag_cons. intros [_ Hs]%andb_true_iff.
    rewrite IH by done. by rewrite tag_at_head_ne.
Qed.

(** *** [clean_text] *)

Lemma clean_text_notag html : notag (clean_text html) = true.
Proof.
  unfold clean_text.
  apply (squeezed_notag _ _ (squeezed_split _)).
  apply (squeezed_notag _ _ (squeezed_lf_space _)).
  apply untag_spec.
Qed.

Lemma spaced_no_lf s : spaced s -> ascii_of_nat 10 ∉ s.
Proof. intros Hs Hin. by apply (spaced_chars s _ Hs) in Hin. Qed.

Lemma clean_text_fix s :
  spaced s -> notag s = true -> clean_text (Some s) = s.
Proof.
  intros Hs Hn. unfold clean_text. change (default [] (Some s)) with s.
  rewrite (proj2 (proj2 (untag_spec s))) by done.
  rewrite replace_absent by (by apply spaced_no_lf).
  by apply spaced_fix.
Qed.

Lemma split_go_lf s : forall cur,
  split_go cur (replace [ascii_of_nat 10] (lit " ") s) = split_go cur s.
Proof.
  change (lit " ") with [" "%char]. rewrite replace_char.
  induction s as [|c s IH]; intros cur; [done|]. cbn [map].
  destruct (Ascii.eqb (ascii_of_nat 10) c) eqn:E.
  - apply Ascii.eqb_eq in E as <-. cbn [split_go].
    replace (isspace " ") with true by done.
    replace (isspace (ascii_of_nat 10)) with true by done.
    destruct cur; by rewrite IH.
  - cbn [split_go]. destruct (isspace c); [destruct cur|]; by rewrite IH.
Qed.

Lemma clean_text_plain s :
  notag s = true -> clean_text (Some s) = join (lit " ") (split s).
Proof.
  intros Hn. unfold clean_text. change (default [] (Some s)) with s.
  rewrite (proj2 (proj2 (untag_spec s))) by done.
  unfold split. by rewrite split_go_lf.
Qed.

(** *** Patterns that need a lower case letter *)

Lemma scan_in_text p : forall rest adv prev st st' c,
  scan p adv prev rest = Some (st, st') ->
  matches (p_body p) st st' /\ (c ∈ between st st' -> c ∈ rest).
Proof.
  intros rest adv prev st st' c (w & adv' & Hw & _ & Ht)%scan_start.
  apply try_at_matches in Ht. split; [done|].
  destruct (matches_between _ _ _ Ht) as [Hr _].
  rewrite Hw, Hr. set_solver.
Qed.

Lemma search_needs_char p (c : ascii) txt :
  (forall w, lang (p_body p) w -> c ∈ w) -> c ∉ txt ->
  search_p p txt = None.
Proof.
  intros Hl Hc. unfold search_p.
  destruct (scan p false [] txt) as [[st st']|] eqn:E; [exfalso|done].
  destruct (scan_in_text _ _ _ _ _ _ c E) as [Hm Hin].
  apply Hc, Hin, Hl. by apply matches_lang.
Qed.

Lemma lang_lit_m (s : string) w :
  lang (lit_with chr s) w -> w = lit s.
Proof.
  unfold lit_with. revert w. induction (lit s) as [|c l IH]; intros w; simpl.
  - done.
  - intros (u & v & -> & ->%lang_chr & Hv). simpl. f_equal. by apply IH.
Qed.

Lemma thick_needs_m w : lang (p_body THICK_RX) w -> "m"%char ∈ w.
Proof.
  intros (u1 & v1 & -> & _ & u2 & v2 & -> & _ & u3 & v3 & -> & _ & H).
  apply lang_lit_m in H as ->. set_solver.
Qed.

Lemma wl_needs_m w : lang (p_body WL_RX) w -> "m"%char ∈ w.
Proof.
  intros (u1 & v1 & -> & _ & u2 & v2 & -> & _ & u3 & v3 & -> & _ &
          u4 & v4 & -> & H & _).
  apply lang_lit_m in H as ->. set_solver.
Qed.

Lemma upper_has_no (c : ascii) s : islower c = true -> c ∉ upper s.
Proof.
  intros Hc Hin. pose proof (upper_no_lower s) as H.
  rewrite Forall_forall in H. specialize (H _ Hin). congruence.
Qed.

(** *** The FOB location *)

Lemma fob_group st st' :
  matches (p_body FOB_RX) st st' ->
  exists g, m_grp st' = Some g /\
            Forall (fun c => isalpha c || isdigit c || isspace c
                             || Ascii.eqb c "," = true) g /\
            forall c, c ∈ g -> c ∈ m_rest st.
Proof.
  unfold FOB_RX, pat, p_body. intros H.
  inversion H as [| |? ? ? st0 ? H0 H1| | | | | | |]; subst.
  inversion H1 as [| |? ? ? st1 ? H2 H3| | | | | | |]; subst.
  inversion H3 as [| |? ? ? st2 ? H4 H5| | | | | | |]; subst.
  inversion H5 as [| |? ? ? st3 ? H6 H7| | | | | | |]; subst.
  inversion H7 as [| |? ? ? st4 ? H8 H9| | | | | | |]; subst.
  inversion H9 as [| | | | | | |? ? st5 H10| |]; subst.
  exists (between st4 st5). split; [done|].
  destruct (matches_between _ _ _ H0) as [E0 _].
  destruct (matches_between _ _ _ H2) as [E2 _].
  destruct (matches_between _ _ _ H4) as [E4 _].
  destruct (matches_between _ _ _ H6) as [E6 _].
  destruct (matches_between _ _ _ H8) as [E8 _].
  destruct (matches_between _ _ _ H10) as [E10 _].
  split.
  - by apply matches_lang, lang_plus_class in H10 as [? _].
  - intros c Hc. rewrite E0, E2, E4, E6, E8, E10. set_solver.
Qed.

Lemma fob_of_spec text :
  exists v, fob_of text = Ok v /\
            forall c, c ∈ v -> c ∈ text.
Proof.
  unfold fob_of, search_p.
  destruct (scan FOB_RX false [] text) as [[st st']|] eqn:E.
  - destruct (scan_start _ _ _ _ _ _ E) as (w & adv' & Hw & _ & Ht).
    apply try_at_matches, fob_group in Ht as (g & Hg & _ & Hin).
    unfold group1. simpl. rewrite Hg. eexists. split; [done|].
    intros c Hc. rewrite Hw. apply elem_of_app. right. apply Hin.
    destruct (strip_by_infix isspace g) as (l & r & Hlr).
    rewrite Hlr. unfold strip in Hc. set_solver.
  - exists []. split; [done|]. by intros c ?%not_elem_of_nil.
Qed.

(** *** Uploads *)

Section Uploads.
Context {E : Type} {W : World E} {L : StdLib}.

Lemma store_and_share_ok filename data mimetype e r e' :
  store_and_share filename data mimetype e = (Ok r, e') ->
  exists id e1 e2 e3,
    write_temp filename data e = (Ok tt, e1) /\
    drive_create filename mimetype e1 = (Ok id, e2) /\
    drive_share id e2 = (Ok tt, e3) /\
    r = drive_prefix ++ id /\ e' = os_remove filename e3.
Proof.
  unfold store_and_share, io_bind.
  destruct (write_temp filename data e) as [[[]|] e1] eqn:E1; [|done].
  destruct (drive_create filename mimetype e1) as [[id|] e2] eqn:E2; [|done].
  destruct (drive_share id e2) as [[[]|] e3] eqn:E3; [|done].
  intros [= <- <-]. by exists id, e1, e2, e3.
Qed.

(** What [upload_image_to_drive] returns, and what it has done then. *)
Lemma upload_cases image_url title e :
  let r := upload_image_to_drive image_url title e in
  (r.1 = [] /\
   ((exists e1, requests_get image_url e = (Raise, e1) /\ r.2 = e1) \/
    (exists response e1,
       requests_get image_url e = (Ok response, e1) /\
       (status_code response <> 200%Z \/
        contains (lit "image") (content_type response) = false) /\
       r.2 = e1) \/
    (exists response e1,
       requests_get image_url e = (Ok response, e1) /\
       status_code response = 200%Z /\
       contains (lit "image") (content_type response) = true))) \/
  (exists response e1 e2 id e3,
     requests_get image_url e = (Ok response, e1) /\
     status_code response = 200%Z /\
     contains (lit "image") (content_type response) = true /\
     mkdir_temp e1 = (Ok tt, e2) /\
     store_and_share
       (upload_filename title (time_now e2) (content_type response))
       (content response) (content_type response) e2
     = (Ok (drive_prefix ++ id), e3) /\
     r = (drive_prefix ++ id, e3)).
Proof.
  unfold upload_image_to_drive, try_or, io_bind, io_ret. cbn zeta.
  destruct (requests_get image_url e) as [[response|] e1] eqn:E1.
  2:{ left. split; [done|]. left. by exists e1. }
  destruct (status_code response =? 200)%Z eqn:Es; cbn [negb].
  2:{ left. split; [done|]. right. left. exists response, e1.
      split; [done|]. split; [|done]. left. by apply Z.eqb_neq. }
  apply Z.eqb_eq in Es.
  destruct (contains (lit "image") (content_type response)) eqn:Ec; cbn [negb].
  2:{ left. split; [done|]. right. left. exists response, e1.
      split; [done|]. split; [|done]. by right. }
  destruct (mkdir_temp e1) as [[[]|] e2] eqn:E2.
  2:{ left. split; [done|]. right. right. by exists response, e1. }
  destruct (store_and_share _ _ _ e2) as [[r|] e3] eqn:E3.
  2:{ left. split; [done|]. right. right. by exists response, e1. }
  right. destruct (store_and_share_ok _ _ _ _ _ _ E3)
    as (id & ? & ? & ? & _ & _ & _ & -> & _).
  by exists response, e1, e2, id, e3.
Qed.

Lemma upload_result image_url title e :
  (upload_image_to_drive image_url title e).1 = [] \/
  exists id, (upload_image_to_drive image_url title e).1 = drive_prefix ++ id.
Proof.
  destruct (upload_cases image_url title e) as [[H _]|H]; [by left|right].
  destruct H as (? & ? & ? & id & ? & _ & _ & _ & _ & _ & ->). by exists id.
Qed.

Lemma drive_prefix_truthy id : truthy (drive_prefix ++ id) = true.
Proof. by vm_compute. Qed.

Lemma upload_attachment_nothing attachment title e :
  upload_attachment_to_drive attachment title e = ([], e).
Proof.
  unfold upload_attachment_to_drive, try_or, io_bind, load_global.
  by replace (existsb (String.eqb "base64") module_names) with false
    by (by vm_compute).
Qed.

Lemma attachment_loop_nothing atts : forall clean_name e,
  attachment_loop atts clean_name e = ([], e).
Proof.
  induction atts as [|att atts IH]; intros clean_name e; [done|].
  cbn [attachment_loop]. rewrite upload_attachment_nothing.
  by rewrite IH.
Qed.

Lemma image_step_kept found_images img :
  image_step found_images img =
  if refused img then Raise
  else if kept img then
    Ok (if product_alt img then src_of img :: found_images
        else found_images ++ [src_of img])
  else Ok found_images.
Proof.
  unfold image_step, kept, refused, candidate.
  destruct (truthy (src_of img)); [|done].
  destruct (startswith (lit "http") (src_of img)); [|done].
  destruct (is_tracking_pixel (src_of img) (Some (tag img))) as [[]|];
    cbn [negb orb andb rbind]; [done| |done].
  by destruct (product_alt img).
Qed.

(** The loop of [extract_quality_images]: it raises when
    [is_tracking_pixel] raises on one of the images it looks at;
    otherwise the images with a product word in [alt] go to the front,
    one before the other, the others to the end. *)
Lemma image_loop_spec imgs : forall found_images,
  image_loop imgs found_images =
  if existsb refused imgs then Raise
  else
    Ok (rev (map src_of
               (filter (fun i => kept i && product_alt i = true) imgs))
        ++ found_images
        ++ map src_of
             (filter (fun i => kept i && negb (product_alt i) = true) imgs)).
Proof.
  induction imgs as [|img imgs IH]; intros found_images.
  - simpl. by rewrite app_nil_r.
  - cbn [image_loop existsb]. rewrite image_step_kept.
    destruct (refused img) eqn:Er; [done|]. cbn [orb].
    destruct (kept img) eqn:Ek; cbn [rbind]; rewrite IH;
      destruct (existsb refused imgs); try done; f_equal.
    + destruct (product_alt img) eqn:Ep.
      * rewrite filter_cons_True by (by rewrite Ek, Ep).
        rewrite (filter_cons_False (fun i => kept i && negb (product_alt i) = true))
          by (by rewrite Ek, Ep).
        simpl. by rewrite <- !app_assoc.
      * rewrite filter_cons_False by (by rewrite Ek, Ep).
        rewrite (filter_cons_True (fun i => kept i && negb (product_alt i) = true))
          by (by rewrite Ek, Ep).
        simpl. by rewrite <- !app_assoc.
    + by rewrite !filter_cons_False by (by rewrite Ek).
Qed.

End Uploads.

(** *** File names *)

Lemma string_of_uint_digits d :
  Forall (fun c => isdigit c = true) (lit (NilEmpty.string_of_uint d)).
Proof. induction d; simpl; by constructor. Qed.

Lemma str_of_Z_chars z :
  Forall (fun c => isdigit c = true \/ c = "-"%char) (str_of_Z z).
Proof.
  unfold str_of_Z, NilZero.string_of_int, NilZero.string_of_uint.
  assert (Hu : forall d, Forall (fun c => isdigit c = true \/ c = "-"%char)
            (lit match d with
                 | Decimal.Nil => "0"%string
                 | _ => NilEmpty.string_of_uint d
                 end)).
  { intros d.
    assert (Forall (fun c => isdigit c = true)
              (lit match d with
                   | Decimal.Nil => "0"%string
                   | _ => NilEmpty.string_of_uint d
                   end)) as H.
    { destruct d; try apply string_of_uint_digits. by constructor. }
    eapply Forall_impl; [exact H|]. by left. }
  destruct (Z.to_int z) as [d|d].
  - apply Hu.
  - simpl. constructor; [by right|]. apply Hu.
Qed.

(** *** Reply markers *)

Lemma lower_idem s : lower (lower s) = lower s.
Proof.
  unfold lower. rewrite map_map. apply map_ext. intros c.
  by_cases_on_char c.
Qed.

Lemma scan_marker_none : forall rest adv prev,
  prev <> [] -> scan MARKER_RX adv prev rest = None.
Proof.
  induction rest as [|c t IH]; intros adv prev Hp; rewrite scan_eq;
    unfold try_at, MARKER_RX, pat; cbn [p_body];
    rewrite rmatch_bol_fails by done; [done|].
  by apply IH.
Qed.

Lemma sub_go_marker_tail n adv prev s :
  prev <> [] -> sub_go MARKER_RX [] n adv prev s = s.
Proof.
  intros Hp. destruct n; [done|]. cbn [sub_go].
  by rewrite scan_marker_none.
Qed.

Lemma startswith_length p s : startswith p s = true -> length p <= length s.
Proof.
  intros (post & ->)%startswith_spec. rewrite length_app. lia.
Qed.

(** The marker at the head of a text. *)
Lemma try_marker adv s :
  match find (fun m => startswith m (lower s)) reply_markers with
  | Some m =>
      exists g,
        try_at MARKER_RX adv (MState [] s None) =
        Some (MState (rev (take (length m) s)) (drop (length m) s) g) /\
        0 < length m <= length s
  | None => try_at MARKER_RX adv (MState [] s None) = None
  end.
Proof.
  unfold try_at, MARKER_RX, pat, alt3. cbn [p_body].
  cbn [rmatch m_prev]. rewrite !rmatch_lit_i. cbn [m_rest].
  unfold reply_markers. cbn [map find].
  change (lower (lit "re:")) with (lit "re:").
  change (lower (lit "fw:")) with (lit "fw:").
  change (lower (lit "fwd:")) with (lit "fwd:").
  assert (K : forall m,
            startswith m (lower s) = true -> 0 < length m ->
            accept (Pattern (RBol;; RGroup
                      (RAlt (lit_with chr_i "re:")
                         (RAlt (lit_with chr_i "fw:") (lit_with chr_i "fwd:"))))
                      false) adv (MState [] s None)
              (set_grp (MState [] s None) (skip (length m) (MState [] s None)))
            = Some (MState (rev (take (length m) s)) (drop (length m) s)
                      (Some (between (MState [] s None)
                               (skip (length m) (MState [] s None))))) /\
            0 < length m <= length s).
  { intros m Hm Hpos. apply startswith_length in Hm.
    unfold lower in Hm. rewrite length_map in Hm.
    split; [|lia]. unfold accept, set_grp, skip.
    cbn [m_prev m_rest m_grp p_dollar length].
    rewrite app_nil_r, length_rev, length_take.
    rewrite (proj2 (Nat.eqb_neq _ _)) by lia.
    by rewrite andb_false_r. }
  destruct (startswith (lit "re:") (lower s)) eqn:E1.
  { destruct (K _ E1) as [-> ?]; [simpl; lia|]. by eexists. }
  destruct (startswith (lit "fw:") (lower s)) eqn:E2.
  { destruct (K _ E2) as [-> ?]; [simpl; lia|]. by eexists. }
  destruct (startswith (lit "fwd:") (lower s)) eqn:E3.
  { destruct (K _ E3) as [-> ?]; [simpl; lia|]. by eexists. }
  done.
Qed.

Lemma sub_marker s :
  sub MARKER_RX [] s =
  match find (fun m => startswith m (lower s)) reply_markers with
  | Some m => drop (length m) s
  | None => s
  end.
Proof.
  pose proof (try_marker false s) as H. unfold sub.
  replace (2 * length s + 2) with (S (S (2 * length s))) by lia.
  destruct (find _ reply_markers) as [m|].
  - destruct H as (g & Ht & Hlen).
    rewrite (sub_go_hit _ _ _ _ _ _ _ Ht). cbn [m_prev m_rest app].
    apply sub_go_marker_tail. intros Hr.
    apply (f_equal (@length _)) in Hr.
    rewrite length_rev, length_take in Hr. simpl in Hr. lia.
  - destruct s as [|c t].
    + by rewrite sub_go_end.
    + rewrite sub_go_skip by done. by rewrite sub_go_marker_tail.
Qed.

End KnowledgeFacts.

(** ** The image filter, the texts and the uploads *)

Module KnowledgeProps.
Import Py Re Std Pipeline ImageFilter PyText ReMore Knowledge.
Import Sample KnowledgeSamples.
Import PyFacts ReFacts PatternFacts RunFacts TextFacts ScanFacts.
Import KnowledgeFacts.

Lemma existsb_elem {A} (f : A -> bool) l :
  existsb f l = true <-> exists x, x ∈ l /\ f x = true.
Proof.
  rewrite existsb_exists. split; intros (x & Hx & Hf); exists x;
    (split; [by apply list_elem_of_In|done]).
Qed.

Lemma elem_of_rev' {A} (x : A) l : x ∈ rev l <-> x ∈ l.
Proof. rewrite !list_elem_of_In. symmetry. apply in_rev. Qed.

Lemma filter_all {A} (P : A -> Prop) `{!forall x, Decision (P x)}
    (l : list A) :
  (forall x, x ∈ l -> P x) -> filter P l = l.
Proof.
  induction l as [|x l IH]; [done|]. intros Hall.
  rewrite filter_cons_True by (apply Hall; by left).
  rewrite IH; [done|]. intros y Hy. apply Hall. by right.
Qed.

Lemma kw_occurs (l : list str) (url : str) :
  existsb (fun p => contains p (lower url)) l = true <->
  exists kw, kw ∈ l /\ occurs_ci kw url.
Proof.
  rewrite existsb_elem. split; intros (kw & Hin & H); exists kw;
    (split; [done|]); by apply contains_lower.
Qed.

Section Props.
Context {E : Type} {W : World E} {L : StdLib}.

(** X6.  [is_tracking_pixel] first looks for the patterns: when one of
    them occurs in the URL, anywhere and in whatever case, the image is a
    tracking pixel.  Otherwise the URL is parsed, and the function raises
    exactly when [urlparse] does.  With a URL that is parsed, the image is
    a tracking pixel exactly when the path, in lower case, ends with one
    of the script extensions, or the dimension check discards the tag, or
    one of the domains or parameters occurs in the URL.  So a tag never
    saves an image that its URL condemns. *)
Theorem tracking_keywords_match_anywhere (img_url : str)
    (img_tag : option ImgTag) :
  (is_tracking_pixel img_url img_tag = Raise <->
   urlparse_path img_url = Raise /\
   ~ exists kw, kw ∈ TRACKING_PIXEL_PATTERNS /\ occurs_ci kw img_url) /\
  (is_tracking_pixel img_url img_tag = Ok true <->
   (exists kw, kw ∈ TRACKING_PIXEL_PATTERNS /\ occurs_ci kw img_url) \/
   exists path,
     urlparse_path img_url = Ok path /\
     ((exists ext,
         ext ∈ TRACKING_EXTENSIONS /\ endswith ext (lower path) = true) \/
      dimension_check img_tag = true \/
      exists kw,
        kw ∈ tracking_domains ++ tracking_params /\
        occurs_ci kw img_url)) /\
  (is_tracking_pixel img_url None = Ok true ->
   is_tracking_pixel img_url img_tag = Ok true).
Proof.
  assert (Hlate : forall tag path,
    urlparse_path img_url = Ok path ->
    existsb (fun p => contains p (lower img_url)) TRACKING_PIXEL_PATTERNS
      = false ->
    exists v, is_tracking_pixel img_url tag = Ok v /\
      (v = true <->
       (exists ext,
          ext ∈ TRACKING_EXTENSIONS /\ endswith ext (lower path) = true) \/
       dimension_check tag = true \/
       exists kw,
         kw ∈ tracking_domains ++ tracking_params /\
         occurs_ci kw img_url)).
  { intros tag path Hp E1. unfold is_tracking_pixel. rewrite E1, Hp.
    cbn [rbind].
    destruct (existsb _ TRACKING_EXTENSIONS) eqn:E2.
    { exists true. split; [done|]. split; [intros _|done]. left.
      by apply existsb_elem in E2. }
    destruct (dimension_check tag) eqn:E3.
    { exists true. split; [done|]. split; [intros _|done]. right. by left. }
    destruct (existsb _ tracking_domains) eqn:E4.
    { exists true. split; [done|]. split; [intros _|done]. right. right.
      apply kw_occurs in E4 as (kw & Hin & Hocc). exists kw.
      split; [|done]. apply elem_of_app. by left. }
    eexists. split; [done|]. split.
    - intros (kw & Hin & Hocc)%kw_occurs. right. right. exists kw.
      split; [|done]. apply elem_of_app. by right.
    - intros [(ext & Hin & He)|[Hd|(kw & Hin & Hocc)]].
      + assert (H : existsb (fun ext => endswith ext (lower path))
                      TRACKING_EXTENSIONS = true)
          by (apply existsb_elem; by exists ext).
        rewrite H in E2. discriminate E2.
      + discriminate Hd.
      + apply elem_of_app in Hin as [Hin|Hin].
        * assert (H : existsb (fun p => contains p (lower img_url))
                        tracking_domains = true)
            by (apply kw_occurs; by exists kw).
          rewrite H in E4. discriminate E4.
        * apply kw_occurs. by exists kw. }
  destruct (existsb (fun p => contains p (lower img_url))
              TRACKING_PIXEL_PATTERNS) eqn:E1.
  - assert (Hp : exists kw, kw ∈ TRACKING_PIXEL_PATTERNS /\ occurs_ci kw img_url)
      by (by apply kw_occurs).
    assert (Ht : forall tag, is_tracking_pixel img_url tag = Ok true).
    { intros tag. unfold is_tracking_pixel. by rewrite E1. }
    rewrite !Ht. split_and!; [|by split; [left|]|done].
    split; [done|]. by intros [_ []].
  - assert (Hp : ~ exists kw, kw ∈ TRACKING_PIXEL_PATTERNS /\
                              occurs_ci kw img_url).
    { intros H%kw_occurs. rewrite H in E1. discriminate E1. }
    destruct (urlparse_path img_url) as [path|] eqn:Eu.
    + destruct (Hlate img_tag path eq_refl eq_refl) as (v & Hv & Hiff).
      destruct (Hlate None path eq_refl eq_refl) as (v0 & Hv0 & Hiff0).
      rewrite Hv, Hv0. split_and!.
      * split; [done|]. by intros [? _].
      * split.
        -- intros [= ->]. right. exists path. split; [done|]. by apply Hiff.
        -- intros [H|(p & [= <-] & H)]; [done|]. f_equal. by apply Hiff.
      * intros [= ->]. f_equal. apply Hiff.
        destruct (proj1 Hiff0 eq_refl) as [H|[H|H]]; [by left|done|].
        right. by right.
    + assert (Ht : forall tag, is_tracking_pixel img_url tag = Raise).
      { intros tag. unfold is_tracking_pixel. by rewrite E1, Eu. }
      rewrite !Ht. split_and!; [done| |done].
      split; [done|]. by intros [H|(p & ? & _)].
Qed.

(** *** [extract_quality_images] *)

Lemma candidate_true img :
  candidate img = true <->
  exists url, src img = Some url /\ url <> [] /\
              startswith (lit "http") url = true.
Proof.
  unfold candidate, src_of. rewrite andb_true_iff, truthy_true. split.
  - intros [Hne Hs]. destruct (src img) as [url|]; [|done]. by exists url.
  - intros (url & -> & ? & ?). done.
Qed.

Lemma kept_true img :
  kept img = true <->
  exists url, src img = Some url /\ url <> [] /\
              startswith (lit "http") url = true /\
              is_tracking_pixel url (Some (tag img)) = Ok false.
Proof.
  unfold kept. rewrite andb_true_iff, candidate_true. split.
  - intros [(url & Hs & Hne & Hh) Ht]. exists url. split_and!; try done.
    unfold src_of in Ht. rewrite Hs in Ht. simpl in Ht.
    by destruct (is_tracking_pixel url (Some (tag img))) as [[]|].
  - intros (url & Hs & Hne & Hh & Ht). split; [by exists url|].
    unfold src_of. rewrite Hs. simpl. by rewrite Ht.
Qed.

Lemma refused_true img :
  refused img = true <->
  exists url, src img = Some url /\ url <> [] /\
              startswith (lit "http") url = true /\
              is_tracking_pixel url (Some (tag img)) = Raise.
Proof.
  unfold refused. rewrite andb_true_iff, candidate_true. split.
  - intros [(url & Hs & Hne & Hh) Ht]. exists url. split_and!; try done.
    unfold src_of in Ht. rewrite Hs in Ht. simpl in Ht.
    by destruct (is_tracking_pixel url (Some (tag img))) as [[]|].
  - intros (url & Hs & Hne & Hh & Ht). split; [by exists url|].
    unfold src_of. rewrite Hs. simpl. by rewrite Ht.
Qed.

(** What [extract_quality_images] gives for a text that is not empty. *)
Lemma extract_spec h :
  h <> [] ->
  extract_quality_images (Some h) =
  if existsb refused (find_all_img h) then Raise
  else
    Ok (first_seen
          (rev (map src_of
                  (filter (fun i => kept i && product_alt i = true)
                     (find_all_img h)))
           ++ map src_of
                (filter (fun i => kept i && negb (product_alt i) = true)
                   (find_all_img h)))).
Proof.
  intros Hh. unfold extract_quality_images. destruct h as [|c h]; [done|].
  rewrite image_loop_spec. by destruct (existsb refused _).
Qed.

Lemma extract_elem h l url :
  h <> [] -> extract_quality_images (Some h) = Ok l ->
  url ∈ l <->
  exists img, img ∈ find_all_img h /\ kept img = true /\ src_of img = url.
Proof.
  intros Hh. rewrite extract_spec by done.
  destruct (existsb refused _); [done|]. intros [= <-].
  rewrite first_seen_elem.
  rewrite elem_of_app, elem_of_rev', !list_elem_of_fmap. split.
  - intros [(i & -> & [Hk Hi]%list_elem_of_filter)|
            (i & -> & [Hk Hi]%list_elem_of_filter)]; exists i;
      apply andb_true_iff in Hk as [Hk _]; done.
  - intros (i & Hi & Hk & <-). destruct (product_alt i) eqn:Ep.
    + left. exists i. split; [done|]. apply list_elem_of_filter.
      by rewrite Hk, Ep.
    + right. exists i. split; [done|]. apply list_elem_of_filter.
      by rewrite Hk, Ep.
Qed.

(** X7.  [extract_quality_images] raises exactly when the text is not
    empty and [is_tracking_pixel] raises on one of its [<img>] elements
    whose [src] is not empty and starts with [http].  When it returns, it
    returns no URL twice, and it returns a URL exactly when the text is
    not empty and the URL is the [src] of one of its [<img>] elements, is
    not empty, starts with [http] and is not a tracking pixel for
    [is_tracking_pixel] with that element as tag. *)
Theorem quality_images_are_the_kept_images (html : option str) :
  (extract_quality_images html = Raise <->
   exists h img url,
     html = Some h /\ h <> [] /\ img ∈ find_all_img h /\
     src img = Some url /\ url <> [] /\
     startswith (lit "http") url = true /\
     is_tracking_pixel url (Some (tag img)) = Raise) /\
  (forall l, extract_quality_images html = Ok l ->
     NoDup l /\
     forall url, url ∈ l <->
       exists h img,
         html = Some h /\ h <> [] /\ img ∈ find_all_img h /\
         src img = Some url /\ url <> [] /\
         startswith (lit "http") url = true /\
         is_tracking_pixel url (Some (tag img)) = Ok false).
Proof.
  destruct html as [[|c h]|].
  - split; [split; [done|by intros (? & ? & ? & [= <-] & ? & _)]|].
    intros l [= <-]. split; [constructor|]. intros url.
    split; [by intros ?%not_elem_of_nil|].
    by intros (h & ? & [= <-] & ? & _).
  - split.
    + rewrite extract_spec by done.
      destruct (existsb refused (find_all_img (c :: h))) eqn:Er.
      * split; [intros _|done].
        apply existsb_elem in Er as (img & Hi & (url & ?)%refused_true).
        by exists (c :: h), img, url.
      * split; [done|]. intros (h' & img & url & [= <-] & _ & Hi & Hr).
        assert (H : existsb refused (find_all_img (c :: h)) = true).
        { apply existsb_elem. exists img. split; [done|].
          apply refused_true. by exists url. }
        rewrite H in Er. discriminate Er.
    + intros l Hl. split.
      * rewrite extract_spec in Hl by done.
        destruct (existsb refused _); [done|]. injection Hl as <-.
        apply first_seen_NoDup.
      * intros url. rewrite (extract_elem (c :: h) l url) by done. split.
        -- intros (img & Hi & (u & Hs & Hne & Hh & Ht)%kept_true & Hu).
           unfold src_of in Hu. rewrite Hs in Hu. simpl in Hu. subst u.
           exists (c :: h), img. done.
        -- intros (h' & img & [= <-] & _ & Hi & Hs & Hne & Hh & Ht).
           exists img. split; [done|]. split.
           ++ apply kept_true. by exists url.
           ++ unfold src_of. by rewrite Hs.
  - split; [split; [done|by intros (? & ? & ? & [=] & _)]|].
    intros l [= <-]. split; [constructor|]. intros url.
    split; [by intros ?%not_elem_of_nil|].
    by intros (h & ? & [=] & _).
Qed.

(** X8.  The order of the URLs [extract_quality_images] returns: those
    of the kept images whose [alt] has a product word come first, the
    last of them in the text first, then those of the other kept images
    in the order of the text; of a URL that comes several times the first
    place counts.  So the first URL is that of the last kept image with a
    product word, or without such an image that of the first kept
    image. *)
Theorem quality_images_put_product_images_first (h : str) (l : list str) :
  h <> [] -> extract_quality_images (Some h) = Ok l ->
  let imgs := filter (fun i => kept i = true) (find_all_img h) in
  let front := filter (fun i => product_alt i = true) imgs in
  let back := filter (fun i => product_alt i = false) imgs in
  l = first_seen (rev (map src_of front) ++ map src_of back) /\
  (forall i, last front = Some i -> head l = Some (src_of i)) /\
  (front = [] -> head l = src_of <$> head imgs).
Proof.
  intros Hh Hl imgs front back.
  assert (Hf : filter (fun i => kept i && product_alt i = true) (find_all_img h)
               = front).
  { unfold front, imgs. rewrite list_filter_filter. apply list_filter_iff.
    intros i. rewrite andb_true_iff. tauto. }
  assert (Hb : filter (fun i => kept i && negb (product_alt i) = true)
                 (find_all_img h) = back).
  { unfold back, imgs. rewrite list_filter_filter. apply list_filter_iff.
    intros i. rewrite andb_true_iff, negb_true_iff. tauto. }
  assert (Heq : l = first_seen (rev (map src_of front) ++ map src_of back)).
  { rewrite extract_spec in Hl by done.
    destruct (existsb refused _); [done|]. injection Hl as <-.
    by rewrite Hf, Hb. }
  split; [exact Heq|]. split.
  - intros i Hi. rewrite Heq.
    apply last_Some in Hi as [l' Hl']. rewrite Hl'.
    rewrite map_app, rev_app_distr. done.
  - intros Hnil. rewrite Heq, Hnil. simpl.
    assert (back = imgs) as ->.
    { unfold back. apply filter_all. intros i Hi.
      destruct (product_alt i) eqn:Ep; [|done].
      assert (Hin : i ∈ front) by (unfold front; by apply list_elem_of_filter).
      rewrite Hnil in Hin. by apply not_elem_of_nil in Hin. }
    by destruct imgs.
Qed.

(** *** [clean_text] and [clean_title] *)

(** X9.  What [clean_text] leaves is a text of words separated by single
    spaces, without any other white space, and without a tag: no [<] in
    it is followed by a character other than [>] and, further on, by a
    [>].  [clean_text] leaves such a text as it is, so applying it twice
    is applying it once.  Of a text without [<] only the white space
    changes, and [None] gives the empty text. *)
Theorem clean_text_leaves_words_and_no_tag (html : option str) :
  spaced (clean_text html) /\
  tag_free (clean_text html) /\
  clean_text (Some (clean_text html)) = clean_text html /\
  (forall h, html = Some h -> "<"%char ∉ h ->
     clean_text html = join (lit " ") (split h)) /\
  clean_text None = [].
Proof.
  split_and!.
  - apply spaced_join_split.
  - apply notag_tag_free, clean_text_notag.
  - apply clean_text_fix; [apply spaced_join_split|apply clean_text_notag].
  - intros h -> Hh. by apply clean_text_plain, notag_no_lt.
  - done.
Qed.

(** X10.  For a subject of ASCII characters, [clean_title] returns
    words separated by single spaces; each word is capitalized: it has no
    lower case letter at its head and no upper case letter after it.  The
    result does not depend on the case of the letters of the subject: two
    ASCII subjects that are equal in lower case have the same name, and so
    have a subject and the subject in upper case. *)
Theorem clean_title_capitalizes_words (raw : str) :
  isascii raw = true ->
  (exists ws,
     clean_title raw = join (lit " ") ws /\
     Forall word ws /\ Forall capitalized ws /\
     split (clean_title raw) = ws) /\
  (forall raw',
     isascii raw' = true -> lower raw' = lower raw ->
     clean_title raw' = clean_title raw) /\
  clean_title (upper raw) = clean_title raw.
Proof.
  intros _. split_and!.
  - unfold clean_title.
    set (t := strip (sub TRAIL_RX [] _)).
    exists (map capitalize (split t)).
    assert (H : Forall (fun w => word w /\ capitalized w)
                  (map capitalize (split t))).
    { apply Forall_fmap. eapply Forall_impl; [apply split_words|].
      intros w Hw. by apply capitalize_word. }
    apply Forall_and in H as [Hw Hc].
    split_and!; try done. by apply split_join.
  - intros raw' _ Hl. unfold clean_title. by rewrite Hl.
  - unfold clean_title. by rewrite lower_upper.
Qed.

(** X18.  A reply or forward marker in front of a subject of ASCII
    characters does not change the name [clean_title] gives it: for an
    ASCII subject that does not itself begin with [re:], [fw:] or [fwd:],
    in whatever case, the subject and the subject with one of these
    markers before it have the same name. *)
Theorem reply_marker_does_not_change_the_name (marker raw : str) :
  isascii marker = true -> isascii raw = true ->
  lower marker ∈ reply_markers ->
  find (fun m => startswith m (lower raw)) reply_markers = None ->
  clean_title (marker ++ raw) = clean_title raw.
Proof.
  intros _ _ Hm Hnone. unfold clean_title.
  assert (H1 : sub MARKER_RX [] (lower raw) = lower raw).
  { by rewrite sub_marker, lower_idem, Hnone. }
  assert (H2 : sub MARKER_RX [] (lower (marker ++ raw)) = lower raw).
  { rewrite sub_marker, lower_idem, lower_app.
    unfold reply_markers in *. cbn [map] in Hm.
    repeat (apply elem_of_cons in Hm as [Hm|Hm]);
      [rewrite Hm; done..|by apply not_elem_of_nil in Hm]. }
  by rewrite H1, H2.
Qed.

(** *** [parse_offer] *)

(** What [parse_offer] returns, and when. *)
Lemma parse_offer_returns (email : Email) (e : E) content raw l :
  e_body email = Some content -> e_subject email = Some raw ->
  extract_quality_images content = Ok l ->
  let clean_name := clean_title raw in
  let text := upper (clean_text content) in
  exists v urls e',
    fob_of text = Ok v /\
    photo_loop (length l) clean_name 0 (take 5 l) e = (urls, e') /\
    parse_offer email e =
    (Ok {| photo := hd [] urls; photos := join (lit ",") urls;
           photo_count := length urls; name := clean_name; fob := v;
           thickness := join (lit "; ") (findall THICK_RX text);
           wl := join (lit "; ") (findall WL_RX text);
           saved := false; had_attachments := false;
           quality_images_found := length l |}, e').
Proof.
  intros Hb Hs Hl clean_name text.
  destruct (fob_of_spec text) as (v & Hv & _).
  destruct (photo_loop (length l) clean_name 0 (take 5 l) e)
    as [urls e'] eqn:Ep.
  exists v, urls, e'. split; [done|]. split; [done|].
  unfold parse_offer, io_bind, method_of. rewrite Hb, Hs. fold text.
  rewrite Hv, Hl. fold clean_name. rewrite attachment_loop_nothing.
  cbn [app length]. by rewrite Ep.
Qed.

Lemma parse_offer_raises (email : Email) (e : E) :
  e_body email = None \/ e_subject email = None \/
  (exists content,
     e_body email = Some content /\
     extract_quality_images content = Raise) ->
  parse_offer email e = (Raise, e).
Proof.
  unfold parse_offer, io_bind, method_of.
  destruct (e_body email) as [content|]; [|done].
  destruct (fob_of_spec (upper (clean_text content))) as (v & -> & _).
  destruct (e_subject email) as [raw|]; [|done].
  intros [H|[H|(c & [= <-] & H)]]; [done|done|]. by rewrite H.
Qed.

(** When [parse_offer] returns and when it raises. *)
Lemma parse_offer_cases (email : Email) (e : E) :
  (exists content raw l,
     e_body email = Some content /\ e_subject email = Some raw /\
     extract_quality_images content = Ok l) \/
  (e_body email = None \/ e_subject email = None \/
   exists content,
     e_body email = Some content /\
     extract_quality_images content = Raise).
Proof.
  destruct (e_body email) as [content|]; [|right; by left].
  destruct (e_subject email) as [raw|]; [|right; right; by left].
  destruct (extract_quality_images content) as [l|] eqn:El.
  - left. by exists content, raw, l.
  - right. right. right. by exists content.
Qed.

(** X11.  [parse_offer] looks for the thickness and the wear layer in the
    text in upper case with patterns that need the lower case letters of
    [mm] and [mil]: in every offer it returns, [thickness] and [wl] are
    empty, and the FOB location has no lower case letter.  It returns an
    offer when the body and the subject are not [null] and
    [extract_quality_images] returns; otherwise it raises, before it has
    done anything. *)
Theorem thickness_and_wear_layer_are_never_found (email : Email) (e : E) :
  (forall text,
     findall THICK_RX (upper text) = [] /\ findall WL_RX (upper text) = []) /\
  match parse_offer email e with
  | (Ok offer, _) =>
      thickness offer = [] /\ wl offer = [] /\
      Forall (fun c => islower c = false) (fob offer)
  | (Raise, e') =>
      e' = e /\
      (e_body email = None \/ e_subject email = None \/
       exists content,
         e_body email = Some content /\
         extract_quality_images content = Raise)
  end /\
  (forall content raw l,
     e_body email = Some content -> e_subject email = Some raw ->
     extract_quality_images content = Ok l ->
     exists offer e', parse_offer email e = (Ok offer, e')).
Proof.
  assert (Hno : forall text,
            findall THICK_RX (upper text) = [] /\
            findall WL_RX (upper text) = []).
  { intros text. split; apply findall_nowhere.
    - apply (search_needs_char _ "m"%char); [apply thick_needs_m|].
      by apply upper_has_no.
    - apply (search_needs_char _ "m"%char); [apply wl_needs_m|].
      by apply upper_has_no. }
  split; [exact Hno|]. split.
  - destruct (parse_offer_cases email e)
      as [(content & raw & l & Hb & Hs & Hl)|Hbad].
    + destruct (parse_offer_returns email e _ _ _ Hb Hs Hl)
        as (v & urls & e' & Hv & _ & ->).
      cbn [thickness wl fob].
      destruct (Hno (clean_text content)) as [-> ->].
      split_and!; try done.
      destruct (fob_of_spec (upper (clean_text content))) as (v' & Hv' & Hin).
      assert (v' = v) as -> by congruence.
      apply Forall_forall. intros c Hc. apply Hin in Hc.
      pose proof (upper_no_lower (clean_text content)) as Hu.
      rewrite Forall_forall in Hu. by apply Hu.
    + by rewrite (parse_offer_raises email e Hbad).
  - intros content raw l Hb Hs Hl.
    destruct (parse_offer_returns email e _ _ _ Hb Hs Hl)
      as (v & urls & e' & _ & _ & ->).
    by eexists _, _.
Qed.

(** X12.  The module does not import [base64], so that
    [upload_attachment_to_drive] ends in its [except] branch before it
    has decoded, written or uploaded anything: it returns the empty
    string and leaves the world as it is.  In every offer [parse_offer]
    returns, [had_attachments] is false and the images counted are those
    of the body alone; it returns one whenever the body and the subject
    are not [null] and [extract_quality_images] returns. *)
Theorem attachments_are_never_uploaded (email : Email) (e : E) :
  (forall attachment title,
     upload_attachment_to_drive attachment title e = ([], e)) /\
  (forall offer e',
     parse_offer email e = (Ok offer, e') ->
     had_attachments offer = false /\
     exists content l,
       e_body email = Some content /\
       extract_quality_images content = Ok l /\
       quality_images_found offer = length l) /\
  (forall content raw l,
     e_body email = Some content -> e_subject email = Some raw ->
     extract_quality_images content = Ok l ->
     exists offer e',
       parse_offer email e = (Ok offer, e') /\
       had_attachments offer = false /\
       quality_images_found offer = length l).
Proof.
  split_and!; [intros; apply upload_attachment_nothing| |].
  - intros offer e' Hp.
    destruct (parse_offer_cases email e)
      as [(content & raw & l & Hb & Hs & Hl)|Hbad].
    + destruct (parse_offer_returns email e _ _ _ Hb Hs Hl)
        as (v & urls & e'' & _ & _ & Hr).
      rewrite Hr in Hp. injection Hp as <- <-.
      split; [done|]. by exists content, l.
    + by rewrite (parse_offer_raises email e Hbad) in Hp.
  - intros content raw l Hb Hs Hl.
    destruct (parse_offer_returns email e _ _ _ Hb Hs Hl)
      as (v & urls & e' & _ & _ & ->).
    by eexists _, _.
Qed.

Lemma photo_loop_cons n_all clean_name i img rest (e : E) :
  photo_loop n_all clean_name i (img :: rest) e =
  let s := photo_step img
             (clean_name ++ lit "_img" ++ str_of_Z (Z.of_nat i + 1)) e in
  let e2 := if (S i <? n_all)%nat then sleep 1 s.2 else s.2 in
  let '(urls, e3) := photo_loop n_all clean_name (S i) rest e2 in
  (s.1 :: urls, e3).
Proof.
  cbn [photo_loop]. unfold photo_step.
  assert (Hb : (Z.of_nat i <? Z.of_nat n_all - 1)%Z = (S i <? n_all)%nat).
  { destruct (Z.ltb_spec (Z.of_nat i) (Z.of_nat n_all - 1)),
      (Nat.ltb_spec (S i) n_all); (done || lia). }
  rewrite Hb.
  destruct (contains (lit "drive.google.com") img); [done|].
  by destruct (upload_image_to_drive img _ e) as [drive_url e1].
Qed.

(** The worlds the loop of [parse_offer] goes through, one before each
    image and one at the end. *)
Lemma photo_loop_trace n_all clean_name images : forall i (e : E) urls e',
  photo_loop n_all clean_name i images e = (urls, e') ->
  exists es : list E,
    length urls = length images /\
    es !! 0 = Some e /\ es !! length images = Some e' /\
    forall j img ej,
      images !! j = Some img -> es !! j = Some ej ->
      let s := photo_step img
                 (clean_name ++ lit "_img" ++
                  str_of_Z (Z.of_nat (i + j) + 1)) ej in
      urls !! j = Some s.1 /\
      es !! S j = Some (if (S (i + j) <? n_all)%nat
                        then sleep 1 s.2 else s.2).
Proof.
  induction images as [|img rest IH]; intros i e urls e'.
  - intros [= <- <-]. exists [e]. by split_and!.
  - rewrite photo_loop_cons. cbn zeta.
    set (s := photo_step img _ e).
    set (e2 := if (S i <? n_all)%nat then sleep 1 s.2 else s.2).
    destruct (photo_loop n_all clean_name (S i) rest e2) as [urls' e3] eqn:Ep.
    intros [= <- <-].
    destruct (IH _ _ _ _ Ep) as (es & Hlen & H0 & Hend & Hstep).
    exists (e :: es). split_and!; [simpl; lia|done|done|].
    intros [|j] img' ej; simpl.
    + intros [= <-] [= <-]. rewrite Nat.add_0_r. by split.
    + intros Hi He. rewrite Nat.add_succ_r. by apply Hstep.
Qed.

(** X13.  The photos of an offer: [parse_offer] goes through the first
    five images of the body in their order and returns one URL for each.
    For an image whose URL contains [drive.google.com] it is that URL;
    any other image is uploaded, under the name of the offer followed by
    [_img] and its number, and the URL is the link of the upload, or that
    of the image when the upload gave none.  After each image but the
    last of the body the loop pauses.  [photo_count] is the number of
    these images, five at most, [photos] joins the URLs with commas and
    [photo] is the first of them. *)
Theorem offer_photos_follow_the_images (email : Email) (e : E)
    (content : option str) (raw : str) (l : list str) :
  e_body email = Some content -> e_subject email = Some raw ->
  extract_quality_images content = Ok l ->
  let images := take 5 l in
  let title i :=
    clean_title raw ++ lit "_img" ++ str_of_Z (Z.of_nat i + 1) in
  exists offer e' urls (es : list E),
    parse_offer email e = (Ok offer, e') /\
    length urls = length images /\
    es !! 0 = Some e /\ es !! length images = Some e' /\
    (forall i img ei,
       images !! i = Some img -> es !! i = Some ei ->
       urls !! i = Some (photo_step img (title i) ei).1 /\
       es !! S i =
         Some (if (S i <? length l)%nat
               then sleep 1 (photo_step img (title i) ei).2
               else (photo_step img (title i) ei).2)) /\
    photos offer = join (lit ",") urls /\
    photo offer = hd [] urls /\
    photo_count offer = length images /\
    photo_count offer = Nat.min 5 (quality_images_found offer).
Proof.
  intros Hb Hs Hl images title.
  destruct (parse_offer_returns email e _ _ _ Hb Hs Hl)
    as (v & urls & e' & _ & Hloop & Hp).
  destruct (photo_loop_trace _ _ _ _ _ _ _ Hloop)
    as (es & Hlen & H0 & Hend & Hstep).
  eexists _, e', urls, es. split; [exact Hp|].
  cbn [photos photo photo_count quality_images_found].
  fold images in Hlen, Hend, Hstep.
  split_and!; try done.
  rewrite Hlen. unfold images. by rewrite length_take.
Qed.

(** *** The uploads *)

(** X14.  [upload_image_to_drive] returns the empty string or a link to
    a file it has made on the drive, which it does only for an answer
    with status 200 and a content type that contains [image].  When the
    request raises, or the answer has another status or another content
    type, it returns the empty string and nothing is done after the
    request: no folder, no file, no upload. *)
Theorem upload_gives_drive_link_or_nothing (image_url title : str) (e : E) :
  ((upload_image_to_drive image_url title e).1 = [] \/
   exists response e1 now e2 e3 id,
     requests_get image_url e = (Ok response, e1) /\
     status_code response = 200%Z /\
     contains (lit "image") (content_type response) = true /\
     drive_create
       (upload_filename title now (content_type response))
       (content_type response) e2 = (Ok id, e3) /\
     (upload_image_to_drive image_url title e).1 = drive_prefix ++ id) /\
  (forall e1, requests_get image_url e = (Raise, e1) ->
     upload_image_to_drive image_url title e = ([], e1)) /\
  (forall response e1,
     requests_get image_url e = (Ok response, e1) ->
     status_code response <> 200%Z \/
     contains (lit "image") (content_type response) = false ->
     upload_image_to_drive image_url title e = ([], e1)).
Proof.
  split_and!.
  - destruct (upload_cases image_url title e) as [[H _]|H]; [by left|right].
    destruct H as (response & e1 & e2 & id & e3 & Hg & Hs & Hc & Hm & Hst & Hr).
    destruct (store_and_share_ok _ _ _ _ _ _ Hst)
      as (id' & f1 & f2 & f3 & _ & Hcr & _ & Hid & _).
    assert (id' = id) as -> by (by apply app_inv_head in Hid).
    exists response, e1, (time_now e2), f1, f2, id.
    rewrite Hr. by split_and!.
  - intros e1 Hg. unfold upload_image_to_drive, try_or, io_bind.
    by rewrite Hg.
  - intros response e1 Hg Hbad.
    unfold upload_image_to_drive, try_or, io_bind, io_ret. rewrite Hg.
    destruct Hbad as [Hs|Hc].
    + apply Z.eqb_neq in Hs. by rewrite Hs.
    + rewrite Hc. by destruct (status_code response =? 200)%Z.
Qed.

Lemma safe_char_no_separator c :
  isword c || isspace c || char_in (lit ".-") c = true ->
  c <> "/"%char /\ c <> "\"%char.
Proof. intros H. split; intros ->; discriminate H. Qed.

Lemma upload_ext_cases content_type :
  upload_ext content_type ∈ [lit ".png"; lit ".gif"; lit ".jpg"].
Proof.
  unfold upload_ext. destruct (contains (lit "png") content_type); [by left|].
  destruct (contains (lit "gif") content_type); [right; by left|].
  right; right; by left.
Qed.

(** X15.  The names of the temporary files.  In [upload_image_to_drive]
    the name is the first fifty of the word characters, white space
    characters and hyphens of the title, an underscore, the time, and
    [.png], [.gif] or [.jpg].  In [upload_attachment_to_drive] it is what
    is left of the title, an underscore and the name of the attachment
    when only word characters, white space, points and hyphens are kept.
    Neither has a slash or a backslash, and both have an underscore, so
    that they name a file of the temporary folder itself. *)
Theorem temporary_file_names_have_no_separator (title : str) (now : Z)
    (content_type : str) (attachment : Attachment) :
  let fn := upload_filename title now content_type in
  let an := attachment_filename title attachment in
  (exists ext,
     ext ∈ [lit ".png"; lit ".gif"; lit ".jpg"] /\
     fn = take 50 (filter (fun c => isword c || isspace c
                                    || Ascii.eqb c "-" = true) title)
          ++ lit "_" ++ str_of_Z now ++ ext) /\
  an = filter (fun c => isword c || isspace c || char_in (lit ".-") c = true)
         (title ++ lit "_" ++ a_name attachment) /\
  Forall (fun c => c <> "/"%char /\ c <> "\"%char) fn /\
  Forall (fun c => c <> "/"%char /\ c <> "\"%char) an /\
  "_"%char ∈ fn /\ "_"%char ∈ an.
Proof.
  intros fn an.
  assert (Hfn : fn = take 50 (filter (fun c => isword c || isspace c
                                      || Ascii.eqb c "-" = true) title)
                     ++ lit "_" ++ str_of_Z now ++ upload_ext content_type).
  { unfold fn, upload_filename, UNSAFE_RX. rewrite sub_class_filter.
    do 2 f_equal.
    apply list_filter_iff. intros c. by rewrite negb_false_iff. }
  assert (Han : an = filter (fun c => isword c || isspace c
                               || char_in (lit ".-") c = true)
                       (title ++ lit "_" ++ a_name attachment)).
  { unfold an, attachment_filename, UNSAFE_NAME_RX.
    rewrite sub_class_filter.
    apply list_filter_iff. intros c. by rewrite negb_false_iff. }
  split_and!.
  - exists (upload_ext content_type). split; [apply upload_ext_cases|done].
  - done.
  - rewrite Hfn. rewrite !Forall_app. split_and!.
    + apply Forall_forall. intros c (i & Hc & _)%elem_of_take.
      apply list_elem_of_lookup_2, list_elem_of_filter in Hc as [Hc _].
      apply safe_char_no_separator.
      apply orb_true_iff in Hc as [Hc|Hc]; [by rewrite Hc|].
      apply Ascii.eqb_eq in Hc as ->. done.
    + by repeat constructor.
    + eapply Forall_impl; [apply str_of_Z_chars|]. simpl.
      intros c [Hc| ->]; [|done]. split; intros ->; discriminate Hc.
    + pose proof (upload_ext_cases content_type) as Hx.
      repeat (apply elem_of_cons in Hx as [->|Hx]);
        [by repeat constructor..|by apply not_elem_of_nil in Hx].
  - rewrite Han. apply Forall_forall. intros c [Hc _]%list_elem_of_filter.
    by apply safe_char_no_separator.
  - rewrite Hfn. apply elem_of_app. right. by left.
  - rewrite Han. apply list_elem_of_filter. split; [done|].
    apply elem_of_app. right. by left.
Qed.

(** The loop of [handle_multiple_images_single]. *)
Lemma first_upload_result images title : forall e,
  match (first_upload images title e).1 with
  | Some r => exists id, r = drive_prefix ++ id
  | None => True
  end.
Proof.
  induction images as [|img images IH]; intros e; [done|].
  cbn [first_upload].
  pose proof (upload_result img title e) as Hu.
  destruct (upload_image_to_drive img title e) as [r e1]. simpl in Hu.
  destruct (truthy r) eqn:Et; [|apply IH]. simpl.
  destruct Hu as [->|Hu]; [done|done].
Qed.

(** X16.  [handle_multiple_images_single] never goes beyond the third
    image: its result, and what it does to the world, are the same on the
    first three images alone.  It returns a link to an upload or, the
    uploads it tried having failed, the URL of the first image (the empty
    string when there is no image).  When the upload of the first image
    succeeds, its link is returned and no other upload is tried. *)
Theorem single_image_tries_three_at_most (images : list str) (title : str)
    (e : E) :
  handle_multiple_images_single images title e =
    handle_multiple_images_single (take 3 images) title e /\
  ((handle_multiple_images_single images title e).1 = hd [] images \/
   exists id,
     (handle_multiple_images_single images title e).1 = drive_prefix ++ id) /\
  (forall first rest,
     images = first :: rest ->
     (upload_image_to_drive first title e).1 <> [] ->
     handle_multiple_images_single images title e =
     upload_image_to_drive first title e).
Proof.
  split_and!.
  - by destruct images as [|a [|b [|c [|d l]]]].
  - unfold handle_multiple_images_single. destruct images as [|a l]; [by left|].
    pose proof (first_upload_result (take 3 (a :: l)) title e) as H.
    destruct (first_upload (take 3 (a :: l)) title e) as [[r|] e'];
      simpl in *; [by right|by left].
  - intros first rest -> Hne. unfold handle_multiple_images_single.
    cbn [take first_upload].
    destruct (upload_image_to_drive first title e) as [r e1]. simpl in Hne.
    by destruct r.
Qed.

(** The loop of [handle_multiple_images_album]. *)
Lemma album_loop_result title images : forall i e,
  length (album_loop title i images e).1 <= length images /\
  Forall (fun u => exists id, u = drive_prefix ++ id)
    (album_loop title i images e).1.
Proof.
  induction images as [|img images IH]; intros i e; [done|].
  cbn [album_loop].
  pose proof (upload_result img
    (title ++ lit "_img" ++ str_of_Z (Z.of_nat i + 1)) e) as Hu.
  destruct (upload_image_to_drive img _ e) as [r e1]. simpl in Hu.
  specialize (IH (S i) (sleep 1 e1)).
  destruct (album_loop title (S i) images (sleep 1 e1)) as [urls e2].
  simpl in *. destruct IH as [Hlen Hall].
  destruct Hu as [->|[id ->]]; simpl.
  - split; [lia|done].
  - split; [lia|]. constructor; [by exists id|done].
Qed.

(** X17.  [handle_multiple_images_album] never goes beyond the fourth
    image: its result, and what it does to the world, are the same on the
    first four images alone.  It returns links to uploads only, at most
    one for each of these images: an image that could not be uploaded is
    left out. *)
Theorem album_uploads_four_at_most (images : list str) (title : str)
    (e : E) :
  handle_multiple_images_album images title e =
    handle_multiple_images_album (take 4 images) title e /\
  length (handle_multiple_images_album images title e).1
    <= min 4 (length images) /\
  Forall (fun u => exists id, u = drive_prefix ++ id)
    (handle_multiple_images_album images title e).1.
Proof.
  unfold handle_multiple_images_album.
  destruct (album_loop_result title (take 4 images) 0 e) as [Hlen Hall].
  split_and!; try done.
  - by rewrite take_take.
  - rewrite length_take in Hlen. lia.
Qed.

End Props.

Lemma product_images_of_sample_page :
  lit page <> [] /\
  extract_quality_images (W := sample_world) (L := sample_lib)
    (Some (lit page)) = Ok [lit url_floor; lit url_photo] /\
  head [lit url_floor; lit url_photo] = Some (lit url_floor).
Proof.
  assert (H : lit page <> []) by done.
  assert (Hl : extract_quality_images (W := sample_world) (L := sample_lib)
                 (Some (lit page)) = Ok [lit url_floor; lit url_photo])
    by (by vm_compute).
  split_and!; [exact H|exact Hl|].
  apply (proj1 (proj2 (quality_images_put_product_images_first
                         (W := sample_world) (L := sample_lib) _ _ H Hl))
           (img (Some url_floor) (Some "Oak floor") (Some "600px")
              (Some "400"))).
  by vm_compute.
Defined.

Lemma title_of_oak_planks :
  isascii (lit "re: OAK planks") = true /\
  clean_title (upper (lit "re: OAK planks")) = clean_title (lit "re: OAK planks").
Proof.
  assert (H : isascii (lit "re: OAK planks") = true) by done.
  split; [exact H|].
  exact (proj2 (proj2 (clean_title_capitalizes_words _ H))).
Defined.

Lemma reply_to_oak_planks :
  lower (lit "RE:") ∈ reply_markers /\
  clean_title (lit "RE: Oak planks") = clean_title (lit " Oak planks") /\
  clean_title (lit "RE: Oak planks") = lit "Oak Planks".
Proof.
  assert (H : lower (lit "RE:") ∈ reply_markers) by (by left).
  split_and!; [exact H| |by vm_compute].
  apply (reply_marker_does_not_change_the_name (lit "RE:") (lit " Oak planks")
           eq_refl eq_refl H).
  by vm_compute.
Defined.

Lemma photos_of_sample_email :
  extract_quality_images (W := sample_world) (L := sample_lib)
    (Some (lit page)) = Ok [lit url_floor; lit url_photo] /\
  exists offer e' (urls : list str) (es : list (list str)),
    parse_offer (W := sample_world) (L := sample_lib) sample_email []
      = (Ok offer, e') /\
    length urls = 2 /\ es !! 0 = Some [] /\
    photo_count offer = 2.
Proof.
  assert (Hl : extract_quality_images (W := sample_world) (L := sample_lib)
                 (Some (lit page)) = Ok [lit url_floor; lit url_photo])
    by (by vm_compute).
  split; [exact Hl|].
  destruct (offer_photos_follow_the_images (W := sample_world)
              (L := sample_lib) sample_email [] _ _ _ eq_refl eq_refl Hl)
    as (offer & e' & urls & es & Hp & Hlen & H0 & _ & _ & _ & _ & Hc & _).
  exists offer, e', urls, es.
  split; [exact Hp|]. split; [exact Hlen|]. split; [exact H0|exact Hc].
Defined.

End KnowledgeProps.

(** ** The functions of [LeadBringerOfferKnowledge.py] on sample inputs *)

Module KnowledgeChecks.
Import Py Re Std Pipeline ImageFilter PyText ReMore Knowledge.
Import Sample KnowledgeSamples.

Example title_of_a_reply :
  clean_title (lit "RE: SLP -- Oak Flooring Blowout!!") = lit "Oak Flooring".
Proof. by vm_compute. Qed.

Example title_keeps_second_marker :
  clean_title (lit "Fwd: re: LVT deals") = lit "Re: Lvt".
Proof. by vm_compute. Qed.

Example title_keeps_mark_before_space :
  clean_title (lit "Oak planks! offer") = lit "Oak Planks!".
Proof. by vm_compute. Qed.

Example trail_before_line_feed :
  sub TRAIL_RX [] (lit "Oak planks!" ++ [ascii_of_nat 10])
  = lit "Oak planks" ++ [ascii_of_nat 10].
Proof. by vm_compute. Qed.

Example text_of_markup :
  clean_text (Some (lit "<p>Oak <b>5mm</b>" ++ [ascii_of_nat 10]
                      ++ lit "planks</p>"))
  = lit "Oak 5mm planks".
Proof. by vm_compute. Qed.

Example text_between_comparisons :
  clean_text (Some (lit "1 < 2 and 3 > 2")) = lit "1 2".
Proof. by vm_compute. Qed.

Example text_empty_brackets :
  clean_text (Some (lit "a <> b")) = lit "a <> b".
Proof. by vm_compute. Qed.

Example text_nested_brackets :
  clean_text (Some (lit "<<b>>")) = lit ">".
Proof. by vm_compute. Qed.

Example thickness_in_lower_case :
  findall THICK_RX (lit "5 mm and 12.5mm") = [lit "5 mm"; lit "12.5mm"].
Proof. by vm_compute. Qed.

Example thickness_in_upper_case :
  findall THICK_RX (upper (lit "5 mm and 12.5mm")) = [].
Proof. by vm_compute. Qed.

Example fob_runs_on :
  fob_of (lit "FOB: DALTON, GA 30720. $1.29/SF") = Ok (lit "DALTON, GA 30720").
Proof. by vm_compute. Qed.

Example images_of_sample_page :
  extract_quality_images (W := sample_world) (L := sample_lib)
    (Some (lit page)) = Ok [lit url_floor; lit url_photo].
Proof. by vm_compute. Qed.

(** An image whose URL [urlparse] refuses: no list is returned, and no
    offer either; a subject that is [null] has the same effect. *)
Example images_of_bracket_page :
  extract_quality_images (W := sample_world) (L := sample_lib)
    (Some (lit page_bracket)) = Raise.
Proof. by vm_compute. Qed.

Example offer_of_bracket_page :
  parse_offer (W := sample_world) (L := sample_lib)
    {| e_subject := Some (lit "Oak"); e_body := Some (Some (lit page_bracket));
       e_attachmentImages := [] |} []
  = (Raise, []).
Proof. by vm_compute. Qed.

Example offer_without_subject :
  parse_offer (W := sample_world) (L := sample_lib)
    {| e_subject := None; e_body := Some (Some (lit page));
       e_attachmentImages := [] |} []
  = (Raise, []).
Proof. by vm_compute. Qed.

Example offer_without_content :
  (parse_offer (W := sample_world) (L := sample_lib)
     {| e_subject := Some (lit "Oak"); e_body := Some None;
        e_attachmentImages := [] |} []).1
  = Ok {| photo := []; photos := []; photo_count := 0; name := lit "Oak";
          fob := []; thickness := []; wl := []; saved := false;
          had_attachments := false; quality_images_found := 0 |}.
Proof. by vm_compute. Qed.

Example offer_of_sample_email :
  (parse_offer (W := sample_world) (L := sample_lib) sample_email []).1 =
  Ok {| photo := lit "https://drive.google.com/uc?id=F2";
        photos := lit "https://drive.google.com/uc?id=F2,"
                  ++ lit url_photo;
        photo_count := 2; name := lit "Oak Flooring";
        fob := lit "DALTON, GA"; thickness := []; wl := [];
        saved := false; had_attachments := false;
        quality_images_found := 2 |}.
Proof. by vm_compute. Qed.

Example single_stops_at_third_image :
  handle_multiple_images_single (W := sample_world)
    [lit url_photo; lit url_track; lit url_floor; lit url_floor]
    (lit "Oak/Plank") [] =
  (lit "https://drive.google.com/uc?id=F4",
   [lit "GET " ++ lit url_photo; lit "GET " ++ lit url_track;
    lit "GET " ++ lit url_floor; lit "WRITE OakPlank_1700000000.png";
    lit "CREATE OakPlank_1700000000.png";
    lit "REMOVE OakPlank_1700000000.png"]).
Proof. by vm_compute. Qed.

Example single_falls_back_to_first_image :
  (handle_multiple_images_single (W := sample_world)
     [lit url_photo; lit url_track] (lit "Oak") []).1 = lit url_photo.
Proof. by vm_compute. Qed.

Example album_leaves_failures_out :
  (handle_multiple_images_album (W := sample_world)
     [lit url_photo; lit url_floor; lit url_floor; lit url_track;
      lit url_floor] (lit "Oak") []).1 =
  [lit "https://drive.google.com/uc?id=F3";
   lit "https://drive.google.com/uc?id=F7"].
Proof. by vm_compute. Qed.

Example attachment_is_not_uploaded :
  upload_attachment_to_drive (W := sample_world)
    {| a_name := lit "oak.jpg"; a_contentBytes := lit "T0FL";
       a_contentType := lit "image/jpeg" |} (lit "Oak") []
  = ([], []).
Proof. by vm_compute. Qed.

End KnowledgeChecks.
